(** * CuentIA: the story / illustration / narration pipeline of [index.js]

    A shallow embedding of the retry loops, the scene-prompt extraction, the
    PCM decoding, the two handlers and the start of the program, followed by
    the properties proved about them.

    Conventions.
    - A JavaScript string is the list of its UTF-16 code units ([jsstring]).
    - The remote generative API, [Math.random] and [Date.now] are oracles
      ([Env]); a run threads a [World] that counts how often each oracle was
      consulted and records what the run did ([Event]).
    - [console.warn] lines are recorded as structured [Warning]s; the purely
      informative [console.log] / [console.error] lines are not recorded.
    - [fs.writeFileSync] may throw: the file system is an oracle too
      ([disk]).  [WavEncoder.encode] is taken to succeed and is opaque, a
      written audio file is recorded as the [wavData] it was encoded from.
    - Numbers are binary64: the products and sums of [sleep] and the result
      of [parseInt] are rounded to the nearest binary64 number
      ([Double.fl64]), and Node's timer replaces a delay it cannot hold.
    - [JSON.parse], [Buffer.from(_, 'base64')], the typed arrays and the
      string methods are built-ins of the platform; they are modelled here
      after their specification and their implementation in Node
      (ECMA-262, ECMA-404, Node's documentation and sources). *)

From Stdlib Require Import Ascii String DecimalString DecimalNat.
From Stdlib Require Import List Sorted Bool Arith ZArith NArith QArith Qround Qpower Lia.
From Stdlib Require Qcanon.
Import ListNotations.
Local Close Scope Q_scope.

Set Implicit Arguments.

(* ===================================================================== *)
(** ** JavaScript strings *)
(* ===================================================================== *)

Module JsString.

(** One UTF-16 code unit. *)
Definition code_unit := N.
Definition jsstring := list code_unit.

(** An ASCII literal as code units. *)
Definition lit (s : string) : jsstring :=
  map N_of_ascii (list_ascii_of_string s).

(** As [lit], with every apostrophe standing for a double quote (code
    unit 34), so that JSON texts can be written down readably. *)
Definition litq (s : string) : jsstring :=
  map (fun c => if N.eqb c 39 then 34%N else c) (lit s).

(** [s.startsWith(p)] *)
Fixpoint startsWith (s p : jsstring) : bool :=
  match p, s with
  | [], _ => true
  | _ :: _, [] => false
  | a :: p', b :: s' => N.eqb a b && startsWith s' p'
  end.

(** [s.indexOf(c)] for a one-character needle: the first index, or -1. *)
Fixpoint indexOf_from (c : code_unit) (s : jsstring) (i : Z) : Z :=
  match s with
  | [] => (-1)%Z
  | x :: t => if N.eqb x c then i else indexOf_from c t (i + 1)%Z
  end.

Definition indexOf (s : jsstring) (c : code_unit) : Z := indexOf_from c s 0%Z.

(** The clamping of a [substring] argument into [0 .. length]. *)
Definition clamp (s : jsstring) (i : Z) : nat :=
  Z.to_nat (Z.min (Z.max i 0) (Z.of_nat (length s))).

(** [s.substring(start, end)]: both arguments are clamped, and swapped
    when [start > end]. *)
Definition substring (s : jsstring) (istart iend : Z) : jsstring :=
  let a := clamp s istart in
  let b := clamp s iend in
  let lo := Nat.min a b in
  let hi := Nat.max a b in
  firstn (hi - lo) (skipn lo s).

(** [s.substring(start)] *)
Definition substring_from (s : jsstring) (istart : Z) : jsstring :=
  skipn (clamp s istart) s.

(** WhiteSpace and LineTerminator code units of ECMAScript, the
    characters that [trim] removes. *)
Definition is_js_space (c : code_unit) : bool :=
  (N.eqb c 9 || N.eqb c 10 || N.eqb c 11 || N.eqb c 12 || N.eqb c 13
   || N.eqb c 32 || N.eqb c 160 || N.eqb c 5760
   || (N.leb 8192 c && N.leb c 8202)
   || N.eqb c 8232 || N.eqb c 8233 || N.eqb c 8239 || N.eqb c 8287
   || N.eqb c 12288 || N.eqb c 65279)%bool.

Fixpoint trimStart (s : jsstring) : jsstring :=
  match s with
  | [] => []
  | c :: t => if is_js_space c then trimStart t else s
  end.

Definition trimEnd (s : jsstring) : jsstring := rev (trimStart (rev s)).

(** [s.trim()] *)
Definition trim (s : jsstring) : jsstring := trimEnd (trimStart s).

Definition backtick : code_unit := 96%N.

(** [s.replace(/```json|```/g, '')]: scanning from the left, a fence
    followed by [json] is removed whole, any other fence is removed, and
    the scan resumes after the removed text. *)
Fixpoint strip_fences (s : jsstring) : jsstring :=
  match s with
  | [] => []
  | c :: t =>
      match t with
      | c2 :: c3 :: t3 =>
          if (N.eqb c backtick && N.eqb c2 backtick && N.eqb c3 backtick)%bool
          then match t3 with
               | j :: s' :: o :: n :: t7 =>
                   if (N.eqb j 106 && N.eqb s' 115 && N.eqb o 111 && N.eqb n 110)%bool
                   then strip_fences t7
                   else strip_fences t3
               | _ => strip_fences t3
               end
          else c :: strip_fences t
      | _ => c :: strip_fences t
      end
  end.

(** Template-literal rendering of an integer, [`${n}`]. *)
Definition of_Z (z : Z) : jsstring := lit (NilZero.string_of_int (Z.to_int z)).
Definition of_nat (n : nat) : jsstring := lit (NilZero.string_of_uint (Nat.to_uint n)).

Definition is_digit (c : code_unit) : bool := (N.leb 48 c && N.leb c 57)%bool.

(** The longest prefix of decimal digits, and what follows it. *)
Fixpoint span_digits (s : jsstring) : jsstring * jsstring :=
  match s with
  | [] => ([], [])
  | c :: t => if is_digit c
              then let (ds, r) := span_digits t in (c :: ds, r)
              else ([], s)
  end.

(** The integer that a string of decimal digits denotes. *)
Definition decimal_value (ds : jsstring) : Z :=
  fold_left (fun acc c => (10 * acc + (Z.of_N c - 48))%Z) ds 0%Z.

End JsString.
Import JsString.

(* ===================================================================== *)
(** ** Numbers

    A JavaScript Number is a binary64 floating-point number.  The program
    computes with numbers that are not negative: a draw of [Math.random()],
    powers of two, counts of milliseconds, a sample rate.  Such a number is
    a rational or [Infinity]. *)
(* ===================================================================== *)

Module Double.

Inductive number := Finite (q : Q) | Infinity.

Definition pow2 (k : Z) : Q := (2 ^ k)%Q.

(** The binary exponent of a positive rational: the [e] with
    [2^e <= x < 2^(e+1)] (lemma [ilog2_spec]). *)
Definition ilog2 (x : Q) : Z :=
  let e0 := (Z.log2 (Qnum x) - Z.log2 (Zpos (Qden x)))%Z in
  if Qle_bool (pow2 e0) x then e0 else (e0 - 1)%Z.

(** The nearest integer, a tie going to the even one. *)
Definition round_half_even (x : Q) : Z :=
  let f := Qfloor x in
  match (x - inject_Z f ?= 1 # 2)%Q with
  | Lt => f
  | Gt => (f + 1)%Z
  | Eq => if Z.even f then f else (f + 1)%Z
  end.

(** The exponent of the last place of the binary64 numbers around [x]. *)
Definition ulp_exp (x : Q) : Z := (Z.max (ilog2 x) (-1022) - 52)%Z.

(** The multiple of that last place nearest to [x], ties going to the even
    multiple. *)
Definition nearest (x : Q) : Q :=
  (inject_Z (round_half_even (x / pow2 (ulp_exp x))) * pow2 (ulp_exp x))%Q.

(** The binary64 number nearest to a rational that is not negative: 53
    significant bits, exponents from -1022 (below, the last place stays at
    2^-1074), [Infinity] from 2^1024 on. *)
Definition fl64 (x : Q) : number :=
  if Qle_bool x 0 then Finite 0
  else if Qle_bool (pow2 1024) (nearest x) then Infinity
  else Finite (Qred (nearest x)).

(** [Math.floor], [*] and [+] on numbers that are not negative (and, for
    the product, not an infinity by zero), and [Math.pow(2, n)]. *)
Definition floor64 (a : number) : number :=
  match a with
  | Finite x => Finite (inject_Z (Qfloor x))
  | Infinity => Infinity
  end.

Definition mul64 (a b : number) : number :=
  match a, b with
  | Finite x, Finite y => fl64 (x * y)
  | _, _ => Infinity
  end.

Definition add64 (a b : number) : number :=
  match a, b with
  | Finite x, Finite y => fl64 (x + y)
  | _, _ => Infinity
  end.

Definition pow2_64 (n : nat) : number := fl64 (pow2 (Z.of_nat n)).

(** A value of [Math.random()]: a binary64 number in [0, 1). *)
Definition is_draw (r : Q) : Prop :=
  (0 <= r)%Q /\ (r < 1)%Q /\ fl64 r = Finite (Qred r).

(** [Math.pow(2, attempt) * 1000 + Math.floor(Math.random() * 1000)] for
    the draw [r]. *)
Definition delay_ms (attempt : nat) (r : Q) : number :=
  add64 (mul64 (pow2_64 attempt) (Finite 1000))
        (floor64 (mul64 (Finite r) (Finite 1000))).

Definition TIMEOUT_MAX : Z := (2 ^ 31 - 1)%Z.

(** The duration [setTimeout] gives its timer: a delay that is not between
    1 and [TIMEOUT_MAX] is replaced by 1. *)
Definition timer_ms (after : number) : Z :=
  match after with
  | Finite d => if (Qle_bool 1 d && Qle_bool d (inject_Z TIMEOUT_MAX))%bool
                then Qfloor d else 1%Z
  | Infinity => 1%Z
  end.

(** [parseInt(ds, 10)] on a string of decimal digits: the Number nearest to
    the integer they denote. *)
Definition parseInt10 (ds : jsstring) : number := fl64 (inject_Z (decimal_value ds)).

(** Equality of numbers, and the test of [is_draw]. *)
Definition number_eqb (a b : number) : bool :=
  match a, b with
  | Finite x, Finite y => (Qnum x =? Qnum y)%Z && (Qden x =? Qden y)%positive
  | Infinity, Infinity => true
  | _, _ => false
  end.

Definition is_draw_b (r : Q) : bool :=
  Qle_bool 0 r && negb (Qle_bool 1 r) && number_eqb (fl64 r) (Finite (Qred r)).

(** A draw whose jitter is [j]: a multiple of 2^-20 just above
    [(j + 1/2) / 1000]. *)
Definition draw_for (j : Z) : Q :=
  Qmake ((2 * j + 1) * 2 ^ 20 / 2000 + 1) (2 ^ 20).

Definition draw_for_ok (j : nat) : bool :=
  is_draw_b (draw_for (Z.of_nat j))
  && number_eqb (floor64 (mul64 (Finite (draw_for (Z.of_nat j))) (Finite 1000)))
                (Finite (inject_Z (Z.of_nat j))).

End Double.
Import Double.

(* ===================================================================== *)
(** ** JSON.parse *)
(* ===================================================================== *)

Module JSON.

(** A parsed JSON value.  A number keeps its lexeme; an object keeps its
    members in the order in which their keys first occur in the text, a key
    that occurs again replacing the value (the order in which JavaScript
    enumerates keys that are array indices is not modelled). *)
#[warnings="-register-all"]
Inductive json : Type :=
| JNull
| JBool (b : bool)
| JNumber (lexeme : jsstring)
| JString (s : jsstring)
| JArray (elems : list json)
| JObject (members : list (jsstring * json)).

(** The outcome of a parsing function: a value and the unread rest of the
    text, a syntax error, or an exhausted recursion budget. *)
Inductive presult (A : Type) : Type :=
| POk (a : A) (rest : jsstring)
| PErr
| PFuel.
Arguments PErr {A}.
Arguments PFuel {A}.

Fixpoint same_units (a b : jsstring) : bool :=
  match a, b with
  | [], [] => true
  | x :: a', y :: b' => N.eqb x y && same_units a' b'
  | _, _ => false
  end.

(** [CreateDataProperty(object, key, v)] on the members read so far. *)
Fixpoint put_member (key : jsstring) (v : json) (members : list (jsstring * json))
  : list (jsstring * json) :=
  match members with
  | [] => [(key, v)]
  | (k, x) :: rest =>
      if same_units k key then (k, v) :: rest else (k, x) :: put_member key v rest
  end.

(** JSON insignificant whitespace: tab, line feed, carriage return, space. *)
Definition is_ws (c : code_unit) : bool :=
  (N.eqb c 9 || N.eqb c 10 || N.eqb c 13 || N.eqb c 32)%bool.

Fixpoint skip_ws (s : jsstring) : jsstring :=
  match s with
  | [] => []
  | c :: t => if is_ws c then skip_ws t else s
  end.

Definition hex_val (c : code_unit) : option N :=
  if (N.leb 48 c && N.leb c 57)%bool then Some (c - 48)%N
  else if (N.leb 65 c && N.leb c 70)%bool then Some (c - 55)%N
  else if (N.leb 97 c && N.leb c 102)%bool then Some (c - 87)%N
  else None.

Definition hex4 (a b c d : code_unit) : option code_unit :=
  match hex_val a, hex_val b, hex_val c, hex_val d with
  | Some x, Some y, Some z, Some w => Some (((x * 16 + y) * 16 + z) * 16 + w)%N
  | _, _, _, _ => None
  end.

(** The character denoted by a one-letter escape. *)
Definition unescape (e : code_unit) : option code_unit :=
  if N.eqb e 34 then Some 34%N          (* quote *)
  else if N.eqb e 92 then Some 92%N     (* backslash *)
  else if N.eqb e 47 then Some 47%N     (* slash *)
  else if N.eqb e 98 then Some 8%N      (* b: backspace *)
  else if N.eqb e 102 then Some 12%N    (* f: form feed *)
  else if N.eqb e 110 then Some 10%N    (* n: line feed *)
  else if N.eqb e 114 then Some 13%N    (* r: carriage return *)
  else if N.eqb e 116 then Some 9%N     (* t: tab *)
  else None.

(** The characters of a string literal, after its opening quote. *)
Fixpoint parse_chars (acc : jsstring) (s : jsstring) : presult jsstring :=
  match s with
  | [] => PErr
  | c :: t =>
      if N.eqb c 34 then POk (rev acc) t
      else if N.eqb c 92 then
        match t with
        | [] => PErr
        | e :: t' =>
            if N.eqb e 117 then
              match t' with
              | h1 :: h2 :: h3 :: h4 :: t'' =>
                  match hex4 h1 h2 h3 h4 with
                  | Some u => parse_chars (u :: acc) t''
                  | None => PErr
                  end
              | _ => PErr
              end
            else match unescape e with
                 | Some u => parse_chars (u :: acc) t'
                 | None => PErr
                 end
        end
      else if N.ltb c 32 then PErr
      else parse_chars (c :: acc) t
  end.

(** A number: an optional minus sign, an integer part (a lone zero, or a
    non-zero digit followed by digits), an optional fraction (a dot and at
    least one digit) and an optional exponent (e or E, an optional sign,
    at least one digit). *)
Definition parse_int_part (s : jsstring) : presult jsstring :=
  match s with
  | [] => PErr
  | c :: t =>
      if N.eqb c 48 then POk [c] t
      else if is_digit c then let (ds, r) := span_digits t in POk (c :: ds) r
      else PErr
  end.

Definition parse_frac_part (s : jsstring) : presult jsstring :=
  match s with
  | c :: t =>
      if N.eqb c 46 then
        match span_digits t with
        | ([], _) => PErr
        | (ds, r) => POk (c :: ds) r
        end
      else POk [] s
  | [] => POk [] s
  end.

Definition parse_exp_part (s : jsstring) : presult jsstring :=
  match s with
  | c :: t =>
      if (N.eqb c 101 || N.eqb c 69)%bool then
        let (sign, t') :=
          match t with
          | g :: u => if (N.eqb g 43 || N.eqb g 45)%bool then ([g], u) else ([], t)
          | [] => ([], t)
          end in
        match span_digits t' with
        | ([], _) => PErr
        | (ds, r) => POk (c :: sign ++ ds) r
        end
      else POk [] s
  | [] => POk [] s
  end.

Definition parse_number (s : jsstring) : presult jsstring :=
  let (sign, s1) :=
    match s with
    | c :: t => if N.eqb c 45 then ([c], t) else ([], s)
    | [] => ([], s)
    end in
  match parse_int_part s1 with
  | POk ip s2 =>
      match parse_frac_part s2 with
      | POk fp s3 =>
          match parse_exp_part s3 with
          | POk ep s4 => POk (sign ++ ip ++ fp ++ ep) s4
          | PErr => PErr
          | PFuel => PFuel
          end
      | PErr => PErr
      | PFuel => PFuel
      end
  | PErr => PErr
  | PFuel => PFuel
  end.

(** A keyword ([true], [false], [null]) at the head of the text. *)
Definition parse_keyword (kw : jsstring) (v : json) (s : jsstring) : presult json :=
  if startsWith s kw then POk v (skipn (length kw) s) else PErr.

(** Recursive descent.  [parse_value] reads one value after optional
    whitespace; [parse_elements] reads the elements of an array after its
    opening bracket, [parse_members] the members of an object after its
    opening brace.  The first argument bounds the recursion. *)
Fixpoint parse_value (n : nat) (s : jsstring) : presult json :=
  match n with
  | O => PFuel
  | S n' =>
      match skip_ws s with
      | [] => PErr
      | c :: t =>
          if N.eqb c 91 then                       (* [ *)
            match skip_ws t with
            | c' :: t' =>
                if N.eqb c' 93 then POk (JArray []) t'
                else parse_elements n' [] t
            | [] => PErr
            end
          else if N.eqb c 123 then                 (* { *)
            match skip_ws t with
            | c' :: t' =>
                if N.eqb c' 125 then POk (JObject []) t'
                else parse_members n' [] t
            | [] => PErr
            end
          else if N.eqb c 34 then                  (* string *)
            match parse_chars [] t with
            | POk str r => POk (JString str) r
            | PErr => PErr
            | PFuel => PFuel
            end
          else if N.eqb c 116 then parse_keyword (lit "true") (JBool true) (c :: t)
          else if N.eqb c 102 then parse_keyword (lit "false") (JBool false) (c :: t)
          else if N.eqb c 110 then parse_keyword (lit "null") JNull (c :: t)
          else match parse_number (c :: t) with
               | POk lx r => POk (JNumber lx) r
               | PErr => PErr
               | PFuel => PFuel
               end
      end
  end

with parse_elements (n : nat) (acc : list json) (s : jsstring) : presult json :=
  match n with
  | O => PFuel
  | S n' =>
      match parse_value n' s with
      | POk v r =>
          match skip_ws r with
          | c :: t =>
              if N.eqb c 44 then parse_elements n' (v :: acc) t
              else if N.eqb c 93 then POk (JArray (rev (v :: acc))) t
              else PErr
          | [] => PErr
          end
      | PErr => PErr
      | PFuel => PFuel
      end
  end

with parse_members (n : nat) (acc : list (jsstring * json)) (s : jsstring)
  : presult json :=
  match n with
  | O => PFuel
  | S n' =>
      match skip_ws s with
      | c :: t =>
          if N.eqb c 34 then
            match parse_chars [] t with
            | POk key r =>
                match skip_ws r with
                | c' :: t' =>
                    if N.eqb c' 58 then
                      match parse_value n' t' with
                      | POk v r' =>
                          match skip_ws r' with
                          | d :: u =>
                              if N.eqb d 44 then parse_members n' (put_member key v acc) u
                              else if N.eqb d 125
                                   then POk (JObject (put_member key v acc)) u
                                   else PErr
                          | [] => PErr
                          end
                      | PErr => PErr
                      | PFuel => PFuel
                      end
                    else PErr
                | [] => PErr
                end
            | PErr => PErr
            | PFuel => PFuel
            end
          else PErr
      | [] => PErr
      end
  end.

(** The recursion budget given to a text: every nested call has read at
    least one character, so twice the length (and one) is never used up
    (lemma [parse_value_fuel]). *)
Definition budget (s : jsstring) : nat := 2 * length s + 1.

(** [JSON.parse(text)]: one value surrounded by optional whitespace;
    [None] stands for the [SyntaxError] it throws otherwise. *)
Definition parse (text : jsstring) : option json :=
  match parse_value (budget text) text with
  | POk v r => match skip_ws r with [] => Some v | _ :: _ => None end
  | PErr => None
  | PFuel => None
  end.

End JSON.
Import JSON.

(* ===================================================================== *)
(** ** Buffers: base64 and 16-bit PCM *)
(* ===================================================================== *)

Module Buffer.

Definition byte := N.

(** The value of a base64 digit, in the standard or the URL-safe alphabet. *)
Definition sextet (c : code_unit) : option N :=
  if (N.leb 65 c && N.leb c 90)%bool then Some (c - 65)%N
  else if (N.leb 97 c && N.leb c 122)%bool then Some (c - 71)%N
  else if (N.leb 48 c && N.leb c 57)%bool then Some (c + 4)%N
  else if (N.eqb c 43 || N.eqb c 45)%bool then Some 62%N
  else if (N.eqb c 47 || N.eqb c 95)%bool then Some 63%N
  else None.

(** The base64 digits of a text up to its first [=]; characters outside
    the alphabets are skipped.  Node's decoder reads the low byte of every
    code unit. *)
Fixpoint sextets (s : jsstring) : list N :=
  match s with
  | [] => []
  | c :: t =>
      let b := (c mod 256)%N in
      if N.eqb b 61 then []
      else match sextet b with
           | Some v => v :: sextets t
           | None => sextets t
           end
  end.

Fixpoint bytes_of_sextets (l : list N) : list byte :=
  match l with
  | a :: b :: c :: d :: t =>
      (a * 4 + b / 16)%N :: ((b mod 16) * 16 + c / 4)%N :: ((c mod 4) * 64 + d)%N
        :: bytes_of_sextets t
  | a :: b :: c :: [] => [(a * 4 + b / 16)%N; ((b mod 16) * 16 + c / 4)%N]
  | a :: b :: [] => [(a * 4 + b / 16)%N]
  | _ => []
  end.

(** [Buffer.from(text, 'base64')]: Node's decoder, which accepts both
    alphabets, skips what is no base64 digit, stops at the padding and
    drops a last digit left alone. *)
Definition from_base64 (text : jsstring) : list byte :=
  bytes_of_sextets (sextets text).

(** A 16-bit little-endian word read as a signed integer. *)
Definition int16 (lo hi : byte) : Z :=
  let u := (Z.of_N lo + 256 * Z.of_N hi)%Z in
  if (u <? 32768)%Z then u else (u - 65536)%Z.

(** [new Int16Array(buf.buffer, buf.byteOffset, buf.byteLength / 2)]: the
    buffer read two bytes at a time; an odd last byte is left out. *)
Fixpoint int16_view (bytes : list byte) : list Z :=
  match bytes with
  | lo :: hi :: t => int16 lo hi :: int16_view t
  | _ => []
  end.

End Buffer.
Import Buffer.

(* ===================================================================== *)
(** ** The remote capability, the world and the effects *)
(* ===================================================================== *)

(** The parts of a [GenerateContentResponse] that the service reads. *)
Record InlineData := { mimeType : jsstring; data : jsstring }.
Record Part := { text : option jsstring; inlineData : option InlineData }.
(** [candidate.content.parts] *)
Record Candidate := { parts : list Part }.
Record Response := { candidates : option (list Candidate) }.

(** What one [generateContent] call does: it raises, or it returns a result
    whose [response] may be absent. *)
Inductive Attempt :=
| Raised (message : jsstring)
| Returned (response : option Response).

Inductive Model := Gemini15Flash | Gemini20FlashImage | Gemini25FlashTts.

Inductive Request :=
| ReqText (prompt : jsstring)
| ReqImage (prompt : json)
| ReqSpeech (story : jsstring).

(** The argument of [WavEncoder.encode]. *)
Record WavData := { sampleRate : number; channelData : list (list Q) }.

(** Errors.  The last five are the [new Error(...)] of the source, in the
    order of the file. *)
Inductive Error :=
| RemoteError (message : jsstring)
| WriteError (message : jsstring)
| TypeError
| SyntaxError
| NoCuento               (* No se pudo generar el cuento ... *)
| NoImagenes             (* No se pudo generar ninguna imagen ... *)
| NoCandidatosAudio      (* La respuesta de la API de audio no contiene candidatos ... *)
| NoDatosAudio           (* La respuesta de la API no contiene datos de audio. *)
| NoCuentoParaAudio.     (* No se pudo generar el cuento para el audio. *)

(** The [console.warn] lines; [n] is the attempt number [i + 1]. *)
Inductive Warning :=
| WCuento (n : nat)            (* Intento n fallido para generar cuento. *)
| WError (n : nat) (e : Error) (* Intento n fallido debido a un error: ... *)
| WSinImagen (n : nat)         (* Intento n fallido: No se encontraron datos de imagen ... *)
| WImagen (n : nat)            (* Intento n fallido para generar imagen. *)
| WParseJSON (n : nat)         (* Intento n fallido al parsear JSON. *)
| WPrompts (n : nat)           (* Intento n fallido para generar prompts. *)
| WAudio (n : nat)             (* Intento n fallido. *)
| WPromptGenerico.             (* No se pudieron generar prompts secuenciales. ... *)

Inductive Dir := ImagesDir | AudioDir.
Inductive Blob := RawBytes (bytes : list byte) | WavFile (wav : WavData).

(** What a run did.  [EvSleep] holds the duration of the timer in
    milliseconds; [EvWrite] is a call of [fs.writeFileSync] that returned
    (one that threw is not recorded as a write). *)
Inductive Event :=
| EvCall (m : Model) (r : Request)
| EvWarn (w : Warning)
| EvSleep (attempt : nat) (wait : Z)
| EvWrite (d : Dir) (fileName : jsstring) (content : Blob).

(** The oracles: the outcome of the k-th remote call, the k-th value of
    [Math.random()], the k-th reading of [Date.now()], and the file system.
    Every file the program writes holds what the latest remote call
    returned, and no remote call is followed by two writes; [disk k] is the
    outcome of the write that follows the remote call number [k]: [None]
    when the file is written, the message of the error thrown otherwise. *)
Record Env := {
  remote : nat -> Attempt;
  random : nat -> Q;
  clock : nat -> Z;
  disk : nat -> option jsstring
}.

Record World := {
  calls : nat;
  draws : nat;
  ticks : nat;
  trace : list Event
}.

Definition world0 : World := {| calls := 0; draws := 0; ticks := 0; trace := [] |}.

Definition emit (e : Event) (w : World) : World :=
  {| calls := calls w; draws := draws w; ticks := ticks w; trace := trace w ++ [e] |}.

Inductive Outcome (A : Type) : Type :=
| Val (a : A)
| Exn (e : Error).
Arguments Exn {A}.

(** A computation: it runs in a world and ends with a value or a thrown
    error. *)
Definition M (A : Type) : Type := World -> Outcome A * World.

Definition ret {A} (a : A) : M A := fun w => (Val a, w).

Definition bind {A B} (m : M A) (k : A -> M B) : M B :=
  fun w => match m w with
           | (Val a, w') => k a w'
           | (Exn e, w') => (Exn e, w')
           end.

Definition throw {A} (e : Error) : M A := fun w => (Exn e, w).

(** [try { m } catch (e) { h e }] *)
Definition try_catch {A} (m : M A) (h : Error -> M A) : M A :=
  fun w => match m w with
           | (Val a, w') => (Val a, w')
           | (Exn e, w') => h e w'
           end.

Declare Scope js_scope.
Delimit Scope js_scope with js.
Notation "x <- m ;; k" := (bind m (fun x => k))
  (at level 61, m at next level, right associativity) : js_scope.
Notation "m ;; k" := (bind m (fun _ => k))
  (at level 61, right associativity) : js_scope.
Local Open Scope js_scope.

(** [for (let i = i0; i < i0 + n; i++) body]: the body receives the loop
    variables [s] and answers with their new value and whether it left the
    loop ([break], or a [return] whose value is kept in [s]). *)
Fixpoint for_range {S} (n i : nat) (body : nat -> S -> M (bool * S)) (s : S) : M S :=
  match n with
  | O => ret s
  | Datatypes.S n' =>
      r <- body i s ;;
      if fst r then ret (snd r) else for_range n' (Datatypes.S i) body (snd r)
  end.

Definition maxAttempts : nat := 5.

(** [response && response.candidates && response.candidates.length > 0] *)
Definition has_candidates (r : option Response) : bool :=
  match r with
  | Some {| candidates := Some (_ :: _) |} => true
  | _ => false
  end.

(** [response.candidates[0].content.parts] once [has_candidates] holds. *)
Definition first_parts (r : option Response) : list Part :=
  match r with
  | Some {| candidates := Some (c :: _) |} => parts c
  | _ => []
  end.

(** A string in a condition: absent and empty are falsy. *)
Definition truthy (s : option jsstring) : bool :=
  match s with
  | Some (_ :: _) => true
  | _ => false
  end.

(** [parts.find(p => p.inlineData)?.inlineData.data] *)
Definition image_data (ps : list Part) : option jsstring :=
  match find (fun p => match inlineData p with Some _ => true | None => false end) ps with
  | Some {| inlineData := Some d |} => Some (data d)
  | _ => None
  end.

(** [parts.find(p => p.inlineData && p.inlineData.mimeType.startsWith('audio/'))] *)
Definition audio_part (ps : list Part) : option InlineData :=
  match find (fun p => match inlineData p with
                       | Some d => startsWith (mimeType d) (lit "audio/")
                       | None => false
                       end) ps with
  | Some {| inlineData := Some d |} => Some d
  | _ => None
  end.

(** [mimeType.match(/rate=(\d+)/)]: the digits captured by the leftmost
    match, if any. *)
Fixpoint match_rate (s : jsstring) : option jsstring :=
  match s with
  | [] => None
  | _ :: t =>
      if startsWith s (lit "rate=")
      then match span_digits (skipn 5 s) with
           | ([], _) => match_rate t
           | (ds, _) => Some ds
           end
      else match_rate t
  end.

(** The [wavData] built from an audio part: the parsed rate, and one channel
    with every 16-bit sample divided by 32768.  A media type without a rate
    makes [match(...)[1]] raise a [TypeError]. *)
Definition pcm_to_float (samples : list Z) : list Q :=
  map (fun sample => (inject_Z sample / 32768)%Q) samples.

Definition wav_of_part (d : InlineData) : option WavData :=
  match match_rate (mimeType d) with
  | None => None
  | Some ds =>
      let pcmData := from_base64 (data d) in
      let pcm16 := int16_view pcmData in
      Some {| sampleRate := parseInt10 ds; channelData := [pcm_to_float pcm16] |}
  end.

(** [prompts.slice(0, n)] for an integer [n]; a negative [n] counts from
    the end. *)
Definition slice0 {A} (l : list A) (n : Z) : list A :=
  if (n <? 0)%Z
  then firstn (Z.to_nat (Z.max (Z.of_nat (length l) + n) 0)) l
  else firstn (Z.to_nat n) l.

(** The text handed to [JSON.parse] in the scene-prompt stage. *)
Definition cleanedText (jsonText : jsstring) : jsstring :=
  trim (strip_fences (substring_from jsonText (indexOf jsonText 91%N))).

(** The three generic prompts of the fallback. *)
Definition fallback_prompts (story : jsstring) : list json :=
  [ JString (lit "Render 3D de alta calidad, que muestre la escena principal del cuento: "
             ++ substring story 0%Z 50%Z ++ lit "...");
    JString (lit "Render 3D de alta calidad, que muestre una escena de acci" ++ [243%N]
             ++ lit "n del cuento: " ++ substring story 50%Z 100%Z ++ lit "...");
    JString (lit "Render 3D de alta calidad, que muestre el final feliz del cuento: "
             ++ substring story 100%Z 150%Z ++ lit "...") ].

Definition cuentoPrompt (personaje lugar objeto : jsstring) : jsstring :=
  lit "Crea un cuento corto y original de aproximadamente 200 palabras. La historia debe incluir a un "
  ++ personaje ++ lit " en " ++ lugar ++ lit " con un " ++ objeto
  ++ lit ". El cuento debe tener un inicio, un desarrollo y un final.".

Definition promptText (story : jsstring) (numPrompts : Z) : jsstring :=
  [10%N] ++ lit "        Given the following story, identify " ++ of_Z numPrompts
  ++ lit " key scenes that would make good illustrations." ++ [10%N]
  ++ lit "        For each scene, provide a detailed, single-sentence image prompt." ++ [10%N]
  ++ lit "        The response should be a JSON array of strings. Each string is a prompt." ++ [10%N]
  ++ lit "        Story: " ++ [34%N] ++ story ++ [34%N] ++ [10%N]
  ++ lit "    ".

Definition image_fileName (now : Z) (j : nat) : jsstring :=
  lit "cuento_ilustrado_" ++ of_Z now ++ lit "_" ++ of_nat (j + 1) ++ lit ".png".

Definition audio_fileName (now : Z) : jsstring :=
  lit "cuento_audio_" ++ of_Z now ++ lit ".wav".

(* ===================================================================== *)
(** ** The pipeline *)
(* ===================================================================== *)

Section Pipeline.

Variable env : Env.

(** [await genAI.getGenerativeModel({model}).generateContent(req)],
    followed by [result.response]. *)
Definition generateContent (m : Model) (req : Request) : M (option Response) :=
  fun w =>
    let w' := {| calls := S (calls w); draws := draws w; ticks := ticks w;
                 trace := trace w ++ [EvCall m req] |} in
    match remote env (calls w) with
    | Raised msg => (Exn (RemoteError msg), w')
    | Returned r => (Val r, w')
    end.

Definition warn (x : Warning) : M unit := fun w => (Val tt, emit (EvWarn x) w).

(** [await sleep(attempt)]: the run records how long the timer was set. *)
Definition sleep (attempt : nat) : M unit :=
  fun w =>
    let delay := delay_ms attempt (random env (draws w)) in
    (Val tt, {| calls := calls w; draws := S (draws w); ticks := ticks w;
                trace := trace w ++ [EvSleep attempt (timer_ms delay)] |}).

(** [Date.now()] *)
Definition dateNow : M Z :=
  fun w => (Val (clock env (ticks w)),
            {| calls := calls w; draws := draws w; ticks := S (ticks w); trace := trace w |}).

(** [fs.writeFileSync(path.join(dir, fileName), content)] *)
Definition writeFileSync (d : Dir) (fileName : jsstring) (content : Blob) : M unit :=
  fun w => match disk env (pred (calls w)) with
           | None => (Val tt, emit (EvWrite d fileName content) w)
           | Some message => (Exn (WriteError message), w)
           end.

(** [parts[0].text]; [parts[0]] may be undefined. *)
Definition first_text (r : option Response) : M (option jsstring) :=
  match first_parts r with
  | p :: _ => ret (text p)
  | [] => throw TypeError
  end.

(** *** Story stage (the first loop of [crearCuentoEImagenesSecuencia]).
    The loop variable is [cuento]; [None] is [null] or [undefined], which
    the code does not tell apart. *)
Definition story_attempt (prompt : jsstring) (i : nat) (cuento : option jsstring)
  : M (bool * option jsstring) :=
  try_catch
    (cuentoResponse <- generateContent Gemini15Flash (ReqText prompt) ;;
     if has_candidates cuentoResponse then
       t <- first_text cuentoResponse ;;
       ret (true, t)
     else
       warn (WCuento (i + 1)) ;; sleep i ;; ret (false, cuento))
    (fun error => warn (WError (i + 1) error) ;; sleep i ;; ret (false, cuento)).

Definition story_loop (prompt : jsstring) : M (option jsstring) :=
  for_range maxAttempts 0 (story_attempt prompt) None.

(** *** Scene-prompt stage: [generarPromptsSecuenciales].
    The loop variable holds the value of the [return] inside the loop. *)
Definition extract_prompts (jsonText : option jsstring) (numPrompts : Z) (i : nat)
  : M (option (list json)) :=
  try_catch
    (t <- match jsonText with Some t => ret t | None => throw TypeError end ;;
     prompts <- match parse (cleanedText t) with
                | Some v => ret v
                | None => throw SyntaxError
                end ;;
     match prompts with
     | JArray (x :: l) => ret (Some (slice0 (x :: l) numPrompts))
     | _ => ret None
     end)
    (fun jsonError => warn (WParseJSON (i + 1)) ;; ret None).

Definition prompts_attempt (story : jsstring) (numPrompts : Z) (i : nat)
           (returned : option (list json)) : M (bool * option (list json)) :=
  try_catch
    (response <- generateContent Gemini15Flash (ReqText (promptText story numPrompts)) ;;
     if has_candidates response then
       jsonText <- first_text response ;;
       r <- extract_prompts jsonText numPrompts i ;;
       match r with
       | Some l => ret (true, Some l)
       | None => ret (false, returned)
       end
     else
       warn (WPrompts (i + 1)) ;; sleep i ;; ret (false, returned))
    (fun error => warn (WError (i + 1) error) ;; sleep i ;; ret (false, returned)).

Definition prompts_loop (story : jsstring) (numPrompts : Z) : M (option (list json)) :=
  for_range maxAttempts 0 (prompts_attempt story numPrompts) None.

Definition generarPromptsSecuenciales (story : jsstring) (numPrompts : Z)
  : M (list json) :=
  r <- prompts_loop story numPrompts ;;
  match r with
  | Some l => ret l
  | None => warn WPromptGenerico ;; ret (fallback_prompts story)
  end.

(** *** Illustration stage (the second loop of
    [crearCuentoEImagenesSecuencia]).  The loop variable is [imageUrls]. *)
Definition image_attempt (j : nat) (imagePrompt : json) (i : nat)
           (imageUrls : list jsstring) : M (bool * list jsstring) :=
  try_catch
    (imageResponse <- generateContent Gemini20FlashImage (ReqImage imagePrompt) ;;
     if has_candidates imageResponse then
       let imageData := image_data (first_parts imageResponse) in
       if truthy imageData then
         let buffer := from_base64 (match imageData with Some d => d | None => [] end) in
         now <- dateNow ;;
         let fileName := image_fileName now j in
         writeFileSync ImagesDir fileName (RawBytes buffer) ;;
         ret (true, imageUrls ++ [lit "/images/" ++ fileName])
       else
         warn (WSinImagen (i + 1)) ;; sleep i ;; ret (false, imageUrls)
     else
       warn (WImagen (i + 1)) ;; sleep i ;; ret (false, imageUrls))
    (fun error => warn (WError (i + 1) error) ;; sleep i ;; ret (false, imageUrls)).

Definition image_loop (j : nat) (imagePrompt : json) (imageUrls : list jsstring)
  : M (list jsstring) :=
  for_range maxAttempts 0 (image_attempt j imagePrompt) imageUrls.

(** [for (const [j, imagePrompt] of imagePrompts.entries()) ...] from
    index [j] on. *)
Fixpoint illustrate_from (j : nat) (imagePrompts : list json) (imageUrls : list jsstring)
  : M (list jsstring) :=
  match imagePrompts with
  | [] => ret imageUrls
  | imagePrompt :: rest =>
      urls <- image_loop j imagePrompt imageUrls ;;
      illustrate_from (S j) rest urls
  end.

(** The illustration stage with its final check. *)
Definition illustrate (imagePrompts : list json) : M (list jsstring) :=
  imageUrls <- illustrate_from 0 imagePrompts [] ;;
  match imageUrls with
  | [] => throw NoImagenes
  | _ :: _ => ret imageUrls
  end.

Definition crearCuentoEImagenesSecuencia (personaje lugar objeto : jsstring) (numImages : Z)
  : M (jsstring * list jsstring) :=
  cuento <- story_loop (cuentoPrompt personaje lugar objeto) ;;
  match cuento with
  | Some (c :: cs) =>
      let cuento := c :: cs in
      imagePrompts <- generarPromptsSecuenciales cuento numImages ;;
      imageUrls <- illustrate imagePrompts ;;
      ret (cuento, imageUrls)
  | _ => throw NoCuento
  end.

(** *** Narration stage: [generarAudioDeCuento].  The loop variable is
    [response].  The [try] around the whole body only logs the error and
    throws it again. *)
Definition audio_attempt (cuento : jsstring) (i : nat) (response : option Response)
  : M (bool * option Response) :=
  try_catch
    (r <- generateContent Gemini25FlashTts (ReqSpeech cuento) ;;
     if has_candidates r then ret (true, r)
     else warn (WAudio (i + 1)) ;; sleep i ;; ret (false, r))
    (fun error => warn (WError (i + 1) error) ;; sleep i ;; ret (false, response)).

Definition audio_loop (cuento : jsstring) : M (option Response) :=
  for_range maxAttempts 0 (audio_attempt cuento) None.

Definition generarAudioDeCuento (cuento : jsstring) : M jsstring :=
  response <- audio_loop cuento ;;
  match response with
  | None => throw TypeError
  | Some r =>
      match candidates r with
      | Some (c :: _) =>
          match audio_part (parts c) with
          | None => throw NoDatosAudio
          | Some d =>
              match wav_of_part d with
              | None => throw TypeError
              | Some wavData =>
                  now <- dateNow ;;
                  let fileName := audio_fileName now in
                  writeFileSync AudioDir fileName (WavFile wavData) ;;
                  ret (lit "/audio/" ++ fileName)
              end
          end
      | _ => throw NoCandidatosAudio
      end
  end.

(** *** The HTTP handlers *)
Record HttpRequest := {
  personaje : option jsstring;
  lugar : option jsstring;
  objeto : option jsstring;
  protocol : jsstring;
  host : option jsstring
}.

Record HttpResponse := { status : Z; body : json }.

Definition error_body (message : jsstring) : json :=
  JObject [(lit "error", JString message)].

(** Faltan parametros: personaje, lugar y objeto son obligatorios. (with
    an accented a) *)
Definition msg_faltan : jsstring :=
  lit "Faltan par" ++ [225%N] ++ lit "metros: personaje, lugar y objeto son obligatorios.".

Definition msg_error_imagen : jsstring :=
  lit "Hubo un error al generar el cuento y la imagen.".

Definition msg_error_audio : jsstring :=
  lit "Hubo un error al generar el cuento, la imagen y el audio.".

(** [`${req.protocol}://${req.get('host')}${url}`] *)
Definition absolute (req : HttpRequest) (url : jsstring) : jsstring :=
  protocol req ++ lit "://"
  ++ match host req with Some h => h | None => lit "undefined" end
  ++ url.

Definition str (s : option jsstring) : jsstring :=
  match s with Some x => x | None => [] end.

(** [app.get('/create-story', ...)] *)
Definition create_story (req : HttpRequest) : M HttpResponse :=
  if (negb (truthy (personaje req)) || negb (truthy (lugar req))
      || negb (truthy (objeto req)))%bool
  then ret {| status := 400%Z; body := error_body msg_faltan |}
  else
    try_catch
      (r <- crearCuentoEImagenesSecuencia (str (personaje req)) (str (lugar req))
                                          (str (objeto req)) 1%Z ;;
       let fullImageUrls := map (absolute req) (snd r) in
       ret {| status := 200%Z;
              body := JObject [(lit "cuento", JString (fst r));
                               (lit "imageUrls", JArray (map JString fullImageUrls))] |})
      (fun error => ret {| status := 500%Z; body := error_body msg_error_imagen |}).

(** [app.get('/create-story-audio', ...)] *)
Definition create_story_audio (req : HttpRequest) : M HttpResponse :=
  if (negb (truthy (personaje req)) || negb (truthy (lugar req))
      || negb (truthy (objeto req)))%bool
  then ret {| status := 400%Z; body := error_body msg_faltan |}
  else
    try_catch
      (r <- crearCuentoEImagenesSecuencia (str (personaje req)) (str (lugar req))
                                          (str (objeto req)) 3%Z ;;
       (if truthy (Some (fst r)) then ret tt else throw NoCuentoParaAudio) ;;
       audioUrl <- generarAudioDeCuento (fst r) ;;
       let fullAudioUrl := absolute req audioUrl in
       let fullImageUrls := map (absolute req) (snd r) in
       ret {| status := 200%Z;
              body := JObject [(lit "cuento", JString (fst r));
                               (lit "imageUrls", JArray (map JString fullImageUrls));
                               (lit "audioUrl", JString fullAudioUrl)] |})
      (fun error => ret {| status := 500%Z; body := error_body msg_error_audio |}).

End Pipeline.

(* ===================================================================== *)
(** ** Reading a run *)
(* ===================================================================== *)

(** The attempt indices for which a run slept, in order. *)
Definition sleep_log (tr : list Event) : list nat :=
  flat_map (fun e => match e with EvSleep a _ => [a] | _ => [] end) tr.

(** Whether an attempt makes its loop stop, stage by stage: the test of the
    loop together with the accesses that may raise inside its [try]. *)
Definition story_passes (a : Attempt) : bool :=
  match a with
  | Raised _ => false
  | Returned r => has_candidates r && match first_parts r with [] => false | _ :: _ => true end
  end.

(** The prompts an attempt of the scene-prompt stage gives, before
    truncation: the parsed text of the first part when it is a non-empty
    array. *)
Definition prompts_of_attempt (a : Attempt) : option (list json) :=
  match a with
  | Raised _ => None
  | Returned r =>
      if has_candidates r then
        match first_parts r with
        | {| text := Some t |} :: _ =>
            match parse (cleanedText t) with
            | Some (JArray (x :: l)) => Some (x :: l)
            | _ => None
            end
        | _ => None
        end
      else None
  end.

Definition prompts_passes (a : Attempt) : bool :=
  match prompts_of_attempt a with Some _ => true | None => false end.

(** Whether an answer carries image data; the attempt then reads the clock
    and writes the file. *)
Definition image_found (a : Attempt) : bool :=
  match a with
  | Raised _ => false
  | Returned r => has_candidates r && truthy (image_data (first_parts r))
  end.

(** Whether the write that follows the remote call [k] succeeds. *)
Definition write_ok (env : Env) (k : nat) : bool :=
  match disk env k with
  | None => true
  | Some _ => false
  end.

(** Whether the attempt that makes the remote call [k] stores an image: the
    answer carries image data and the file is written. *)
Definition image_stored (env : Env) (k : nat) : bool :=
  image_found (remote env k) && write_ok env k.

Definition audio_passes (a : Attempt) : bool :=
  match a with
  | Raised _ => false
  | Returned r => has_candidates r
  end.

(** Whether a failed attempt of the scene-prompt stage reached the inner
    [try] (the text was read), where no [sleep] follows. *)
Definition reached_parsing (a : Attempt) : bool :=
  match a with
  | Raised _ => false
  | Returned r => has_candidates r && match first_parts r with [] => false | _ :: _ => true end
  end.

(** Among the [n] attempts that make the remote calls from [c] on, the first
    that passes. *)
Fixpoint first_pass (passes : nat -> bool) (c n : nat) : option nat :=
  match n with
  | O => None
  | S n' => if passes c then Some 0
            else option_map S (first_pass passes (S c) n')
  end.

(** The four retry loops under one name. *)
Inductive Stage :=
| StoryStage (prompt : jsstring)
| PromptStage (story : jsstring) (numPrompts : Z)
| ImageStage (j : nat) (imagePrompt : json) (imageUrls : list jsstring)
| AudioStage (cuento : jsstring).

(** The type of a stage's loop variable. *)
Definition LoopVar (st : Stage) : Type :=
  match st with
  | StoryStage _ => option jsstring
  | PromptStage _ _ => option (list json)
  | ImageStage _ _ _ => list jsstring
  | AudioStage _ => option Response
  end.

Definition retry_loop (env : Env) (st : Stage) : M (LoopVar st) :=
  match st with
  | StoryStage prompt => story_loop env prompt
  | PromptStage story numPrompts => prompts_loop env story numPrompts
  | ImageStage j imagePrompt imageUrls => image_loop env j imagePrompt imageUrls
  | AudioStage cuento => audio_loop env cuento
  end.

(** Whether the attempt that makes the remote call [k] ends the loop of the
    stage: the call returns and
    - story: the response has a candidate, and that candidate a first part;
    - scene prompts: the text of that part gives a non-empty JSON array;
    - illustration: a part carries image data and the file is written;
    - narration: the response has a candidate. *)
Definition attempt_passes (env : Env) (st : Stage) (k : nat) : bool :=
  match st with
  | StoryStage _ => story_passes (remote env k)
  | PromptStage _ _ => prompts_passes (remote env k)
  | ImageStage _ _ _ => image_stored env k
  | AudioStage _ => audio_passes (remote env k)
  end.

(** The value of the loop variable before the first attempt: no story, no
    returned prompts, the image list as it was, no response. *)
Definition initial_var (st : Stage) : LoopVar st :=
  match st with
  | StoryStage _ => None
  | PromptStage _ _ => None
  | ImageStage _ _ imageUrls => imageUrls
  | AudioStage _ => None
  end.

(** The response last received among the remote calls [c] to [c + n - 1]:
    undefined when every one of them raised. *)
Fixpoint last_received (env : Env) (c n : nat) : option Response :=
  match n with
  | O => None
  | S n' => match remote env (c + n') with
            | Returned r => r
            | Raised _ => last_received env c n'
            end
  end.

(** What a loop that started at the remote call [c] leaves when it runs out
    of attempts: its variable as it was before the loop, except in the
    narration stage, where [response] is undefined when every call raised
    and is the last response received otherwise, which has no candidates. *)
Definition exhausted (env : Env) (c : nat) (st : Stage) : LoopVar st -> Prop :=
  match st with
  | StoryStage _ => fun cuento => cuento = None
  | PromptStage _ _ => fun returned => returned = None
  | ImageStage _ _ imageUrls => fun urls => urls = imageUrls
  | AudioStage _ => fun response =>
      response = last_received env c maxAttempts /\ has_candidates response = false
  end.

(** How many of the [n] attempts from the remote call [c] on read the
    clock, [reads] telling which do. *)
Fixpoint readings (reads : nat -> bool) (c n : nat) : nat :=
  match n with
  | O => 0
  | S n' => (if reads c then 1 else 0) + readings reads (S c) n'
  end.

(** [verdicts env c t prompts] gives for each prompt, in order, the reading
    of the clock that stamps its file when one of its (at most five)
    attempts stores an image, and [None] when none does.  The attempts of
    the first prompt start at the remote call [c] and the clock reading
    [t]: a prompt that succeeds at its attempt [k] has used [k + 1] calls,
    one that fails has used five, and every attempt that found image data
    has read the clock, whether its file was written or not. *)
Fixpoint verdicts (env : Env) (c t : nat) (prompts : list json) : list (option nat) :=
  match prompts with
  | [] => []
  | _ :: rest =>
      match first_pass (image_stored env) c maxAttempts with
      | Some k =>
          let t' := t + readings (fun i => image_found (remote env i)) c k in
          Some t' :: verdicts env (c + S k) (S t') rest
      | None =>
          None :: verdicts env (c + maxAttempts)
                    (t + readings (fun i => image_found (remote env i)) c maxAttempts) rest
      end
  end.

(** The positions (from [j] on) that have a verdict, with their reading. *)
Fixpoint kept_from (j : nat) (vs : list (option nat)) : list (nat * nat) :=
  match vs with
  | [] => []
  | Some t :: vs' => (j, t) :: kept_from (S j) vs'
  | None :: vs' => kept_from (S j) vs'
  end.

(** The URLs of the kept prompts. *)
Definition urls_of (env : Env) (kept : list (nat * nat)) : list jsstring :=
  map (fun jt => lit "/images/" ++ image_fileName (clock env (snd jt)) (fst jt)) kept.


Definition is_int16 (z : Z) : Prop := (-32768 <= z <= 32767)%Z.

(** A parsing step that succeeded has consumed input, and none ran out of
    budget. *)
Definition shorter {A} (s : jsstring) (p : presult A) : Prop :=
  match p with
  | POk _ r => length r < length s
  | PErr => True
  | PFuel => False
  end.

(** The loop variable after the [n] failed attempts that made the remote
    calls from [c] on, [after_fail] being the effect of one failed attempt. *)
Fixpoint var_after {St} (after_fail : nat -> St -> St) (c n : nat) (s : St) : St :=
  match n with
  | O => s
  | S n' => var_after after_fail (S c) n' (after_fail c s)
  end.

(** The attempt indices followed by a [sleep] among [n] failed attempts from
    call [c] and index [i] on, [waits] telling which failures sleep. *)
Fixpoint waits_log (waits : nat -> bool) (c i n : nat) : list nat :=
  match n with
  | O => []
  | S n' => (if waits c then [i] else []) ++ waits_log waits (S c) (S i) n'
  end.

(** The loop variable [response] after a failed narration attempt. *)
Definition audio_after (a : Attempt) (response : option Response) : option Response :=
  match a with
  | Raised _ => response
  | Returned r => r
  end.

(* ===================================================================== *)
(** ** Sample remote behaviours *)
(* ===================================================================== *)

(** A response with one candidate made of one text part. *)
Definition text_response (t : jsstring) : Attempt :=
  Returned (Some {| candidates :=
                      Some [ {| parts := [ {| text := Some t; inlineData := None |} ] |} ] |}).

(** A response with one candidate made of one inline-data part. *)
Definition data_response (mime payload : jsstring) : Attempt :=
  Returned (Some {| candidates :=
                      Some [ {| parts := [ {| text := None;
                                              inlineData := Some {| mimeType := mime;
                                                                    data := payload |} |} ] |} ] |}).

(** A response without candidates. *)
Definition empty_response : Attempt := Returned (Some {| candidates := Some [] |}).

(** An environment with the given answers and write outcomes; the draws
    are all one half and the clock advances by a millisecond at each
    reading. *)
Definition env_with (answers : nat -> Attempt) (writes : nat -> option jsstring) : Env :=
  {| remote := answers; random := fun _ => (1 # 2)%Q;
     clock := fun k => (1700000000000 + Z.of_nat k)%Z; disk := writes |}.

(** The same with a file system that works. *)
Definition env_of (answers : nat -> Attempt) : Env := env_with answers (fun _ => None).

(** The remote service is down: every call raises. *)
Definition env_down : Env := env_of (fun _ => Raised (lit "fetch failed")).

(** Every call answers in prose, with no JSON in it. *)
Definition env_prose : Env := env_of (fun _ => text_response (lit "Lo siento, no puedo ayudar.")).

(** Every call answers with an empty JSON array. *)
Definition env_empty_array : Env := env_of (fun _ => text_response (lit "[]")).

(** Every call answers without candidates. *)
Definition env_no_candidates : Env := env_of (fun _ => empty_response).

(** Every call answers with a candidate whose text is empty. *)
Definition env_blank : Env := env_of (fun _ => text_response []).

(** Two answers without candidates, then the service is down. *)
Definition env_silent_then_down : Env :=
  env_of (fun k => if (k <? 2)%nat then empty_response else Raised (lit "fetch failed")).

(** The fenced answer of the scene-prompt stage: a fence line, the array, a
    closing fence, separated by line feeds. *)
Definition fenced_abc : jsstring :=
  lit "```json" ++ [10%N] ++ litq "['a','b','c']" ++ [10%N] ++ lit "```".

Definition abc : list json := [JString (lit "a"); JString (lit "b"); JString (lit "c")].

Definition env_fenced : Env := env_of (fun _ => text_response fenced_abc).

(** Image generation that works for the first prompt (call 0), fails on the
    five attempts of the second (calls 1 to 5) and works for the third. *)
Definition env_scene2_fails : Env :=
  env_of (fun k => if (k =? 0)%nat then data_response (lit "image/png") (lit "iVBORw0KGgo=")
                   else if (k <? 6)%nat then Raised (lit "quota")
                   else data_response (lit "image/png") (lit "iVBORw0KGgo=")).

(** Image generation that always answers with an image, and a file system
    that refuses the files of the calls 1 to 5 (the five attempts of the
    second prompt). *)
Definition env_scene2_unwritable : Env :=
  env_with (fun _ => data_response (lit "image/png") (lit "iVBORw0KGgo="))
           (fun k => if ((1 <=? k) && (k <=? 5))%nat
                     then Some (lit "ENOSPC: no space left on device, write") else None).

(** The same service with a file system that refuses every file. *)
Definition env_unwritable : Env :=
  env_with (fun _ => data_response (lit "image/png") (lit "iVBORw0KGgo="))
           (fun _ => Some (lit "ENOTDIR: not a directory, open")).

(** Speech synthesis that answers at once with two samples, 0 and 16384. *)
Definition pcm_part : InlineData :=
  {| mimeType := lit "audio/L16;codec=pcm;rate=24000"; data := lit "AAAAQA==" |}.


(** A whole successful run of [/create-story]: the story, the prompts, one
    image. *)
Definition env_happy : Env :=
  env_of (fun k => if (k =? 0)%nat then text_response (lit "Habia una vez un pirata.")
                   else if (k =? 1)%nat then text_response fenced_abc
                   else data_response (lit "image/png") (lit "iVBORw0KGgo=")).

Definition sample_request : HttpRequest :=
  {| personaje := Some (lit "un pirata"); lugar := Some (lit "un asteroide");
     objeto := Some (lit "un mapa"); protocol := lit "http"; host := Some (lit "localhost:3000") |}.

(* ===================================================================== *)
(** ** Reading a run, continued *)
(* ===================================================================== *)

(** Which failed attempts of a stage are followed by a [sleep]: all of
    them, except in the scene-prompt stage those that reached the parsing. *)
Definition stage_waits (env : Env) (st : Stage) : nat -> bool :=
  match st with
  | PromptStage _ _ => fun k => negb (reached_parsing (remote env k))
  | _ => fun _ => true
  end.

(** Which failed attempts of a stage have read the clock: in the
    illustration stage, those that found image data. *)
Definition stage_reads (env : Env) (st : Stage) : nat -> bool :=
  match st with
  | ImageStage _ _ _ => fun k => image_found (remote env k)
  | _ => fun _ => false
  end.

(** The text of the first part of the first candidate of an answer. *)
Definition story_text (a : Attempt) : option jsstring :=
  match a with
  | Raised _ => None
  | Returned r => match first_parts r with
                  | p :: _ => text p
                  | [] => None
                  end
  end.

(** The loop variable a stage is left with when its attempt [k] passes, the
    loop having started in the world [w]. *)
Definition pass_result (env : Env) (st : Stage) (w : World) (k : nat) : LoopVar st :=
  let a := remote env (calls w + k) in
  match st with
  | StoryStage _ => story_text a
  | PromptStage _ numPrompts =>
      option_map (fun l => slice0 l numPrompts) (prompts_of_attempt a)
  | ImageStage j _ imageUrls =>
      let t := ticks w + readings (stage_reads env st) (calls w) k in
      imageUrls ++ [lit "/images/" ++ image_fileName (clock env t) j]
  | AudioStage _ => match a with Returned r => r | Raised _ => None end
  end.


(** The names of the files a run wrote into the directory [d] (the calls of
    [fs.writeFileSync] that returned), in order. *)
Definition written (d : Dir) (tr : list Event) : list jsstring :=
  flat_map (fun e => match e with
                     | EvWrite d' fileName _ =>
                         match d, d' with
                         | ImagesDir, ImagesDir | AudioDir, AudioDir => [fileName]
                         | _, _ => []
                         end
                     | _ => []
                     end) tr.


(** The time a run spent sleeping, in milliseconds. *)
Definition sleep_total (tr : list Event) : Z :=
  fold_right (fun e acc => match e with EvSleep _ delay => (delay + acc)%Z | _ => acc end)
             0%Z tr.

(** The delays of [n] successive sleeps, the first after attempt [i] with
    the draw number [d]. *)
Fixpoint delays (env : Env) (d i n : nat) : Z :=
  match n with
  | O => 0%Z
  | S n' => (timer_ms (delay_ms i (random env d)) + delays env (S d) (S i) n')%Z
  end.

(* --------------------------------------------------------------------- *)
(** ** Start of the program (lines 14-42)

    The module checks the API key and makes sure that the directories
    [public], [public/images] and [public/audio] exist.  What is on disk at
    the three paths is a [Node]; [fs.existsSync] answers true for a file as
    for a directory; [fs.mkdirSync], not recursive, needs a parent that is a
    directory and a path that is free.  The directory of the module itself
    exists. *)

Inductive Node := Missing | RegularFile | Directory.

Record Disk := mkDisk {
  publicDir : Node;
  imagesDir : Node;
  audioDir : Node
}.

Inductive FsError := EEXIST | ENOENT | ENOTDIR.

Inductive Startup :=
| Exited (code : Z)                  (* process.exit(code) *)
| Crashed (e : FsError) (d : Disk)   (* uncaught error of mkdirSync *)
| Started (d : Disk).                (* the server is set up *)

(** [fs.existsSync(path)] for a path whose node is [n]. *)
Definition existsSync (n : Node) : bool :=
  match n with
  | Missing => false
  | _ => true
  end.

(** [fs.mkdirSync(path)] for a path whose node is [n], under [parent]. *)
Definition mkdirSync (parent n : Node) : FsError + Node :=
  match parent, n with
  | Missing, _ => inl ENOENT
  | RegularFile, _ => inl ENOTDIR
  | Directory, Missing => inr Directory
  | Directory, _ => inl EEXIST
  end.

(** [if (!fs.existsSync(path)) { fs.mkdirSync(path); }] *)
Definition ensure_dir (parent n : Node) : FsError + Node :=
  if negb (existsSync n) then mkdirSync parent n else inr n.

(** A path below [public] holds something only if [public] is a directory. *)
Definition consistent (d : Disk) : Prop :=
  publicDir d <> Directory -> imagesDir d = Missing /\ audioDir d = Missing.

Definition startup (API_KEY : option jsstring) (d : Disk) : Startup :=
  if negb (truthy API_KEY) then Exited 1
  else
    match ensure_dir Directory (publicDir d) with
    | inl e => Crashed e d
    | inr p =>
        match ensure_dir p (imagesDir d) with
        | inl e => Crashed e (mkDisk p (imagesDir d) (audioDir d))
        | inr i =>
            match ensure_dir p (audioDir d) with
            | inl e => Crashed e (mkDisk p i (audioDir d))
            | inr a => Started (mkDisk p i a)
            end
        end
    end.

Definition made (n : Node) : Node :=
  match n with
  | Missing => Directory
  | _ => n
  end.

Unset Implicit Arguments.

(* ===================================================================== *)
(** ** Facts about binary64 numbers *)
(* ===================================================================== *)

Lemma pow2_pos k : (0 < pow2 k)%Q.
Proof. apply Qpower_0_lt. reflexivity. Qed.

Lemma pow2_add a b : (pow2 (a + b) == pow2 a * pow2 b)%Q.
Proof. apply Qpower_plus. discriminate. Qed.

Lemma pow2_nonneg_Z k : (0 <= k)%Z -> (pow2 k == inject_Z (2 ^ k))%Q.
Proof. intros H. unfold pow2. now rewrite Zpower_Qpower. Qed.

Lemma pow2_lt a b : (a < b)%Z -> (pow2 a < pow2 b)%Q.
Proof. intros H. apply Qpower_lt_compat_l; [exact H | reflexivity]. Qed.

Lemma pow2_le a b : (a <= b)%Z -> (pow2 a <= pow2 b)%Q.
Proof. intros H. apply Qpower_le_compat_l; [exact H | discriminate]. Qed.

Lemma pow2_lt_inv a b : (pow2 a < pow2 b)%Q -> (a < b)%Z.
Proof. intros H. apply (Qpower_lt_compat_l_inv 2); [exact H | reflexivity]. Qed.

Lemma pow2_inv a : (pow2 (- a) * pow2 a == 1)%Q.
Proof.
  rewrite <- pow2_add. replace (- a + a)%Z with 0%Z by lia. reflexivity.
Qed.

(** Division by a power of two is multiplication by the opposite power. *)
Lemma div_pow2 x a : (x / pow2 a == x * pow2 (- a))%Q.
Proof.
  unfold Qdiv. apply Qmult_comp; [reflexivity|].
  unfold pow2. rewrite Qpower_opp. reflexivity.
Qed.

Lemma frac_lt (n A : Z) (d B : positive) :
  (n * Zpos B < A * Zpos d)%Z -> (n # d < inject_Z A / inject_Z (Zpos B))%Q.
Proof.
  intros H. unfold Qdiv, Qinv, inject_Z, Qmult, Qlt. cbn [Qnum Qden].
  rewrite Pos.mul_1_l. lia.
Qed.

Lemma frac_gt (n A : Z) (d B : positive) :
  (A * Zpos d < n * Zpos B)%Z -> (inject_Z A / inject_Z (Zpos B) < n # d)%Q.
Proof.
  intros H. unfold Qdiv, Qinv, inject_Z, Qmult, Qlt. cbn [Qnum Qden].
  rewrite Pos.mul_1_l. lia.
Qed.

Lemma ilog2_spec x : (0 < x)%Q -> (pow2 (ilog2 x) <= x)%Q /\ (x < pow2 (ilog2 x + 1))%Q.
Proof.
  intros Hx. destruct x as [n d]. unfold ilog2. cbn [Qnum Qden].
  assert (Hn : (0 < n)%Z) by (unfold Qlt in Hx; simpl in Hx; lia).
  set (ln := Z.log2 n). set (ld := Z.log2 (Zpos d)).
  destruct (Z.log2_spec n Hn) as [N1 N2]. fold ln in N1, N2.
  destruct (Z.log2_spec (Zpos d) ltac:(lia)) as [D1 D2]. fold ld in D1, D2.
  assert (Lnn : (0 <= ln)%Z) by apply Z.log2_nonneg.
  assert (Ldd : (0 <= ld)%Z) by apply Z.log2_nonneg.
  assert (Up : (n # d < pow2 (ln - ld + 1))%Q).
  { replace (ln - ld + 1)%Z with ((ln + 1) - ld)%Z by lia.
    unfold pow2. rewrite Qpower_minus by discriminate.
    fold (pow2 (ln + 1)). fold (pow2 ld).
    rewrite !pow2_nonneg_Z by lia.
    destruct (2 ^ ld)%Z as [|B|B] eqn:EB; try lia.
    apply frac_lt. replace (Z.succ ln) with (ln + 1)%Z in N2 by lia. nia. }
  assert (Lo : (pow2 (ln - ld - 1) < n # d)%Q).
  { replace (ln - ld - 1)%Z with (ln - (ld + 1))%Z by lia.
    unfold pow2. rewrite Qpower_minus by discriminate.
    fold (pow2 ln). fold (pow2 (ld + 1)).
    rewrite !pow2_nonneg_Z by lia.
    replace (Z.succ ld) with (ld + 1)%Z in D2 by lia.
    destruct (2 ^ (ld + 1))%Z as [|B|B] eqn:EB; try lia.
    apply frac_gt. nia. }
  destruct (Qle_bool (pow2 (ln - ld)) (n # d)) eqn:E.
  - apply Qle_bool_iff in E. split; [exact E | exact Up].
  - split; [apply Qlt_le_weak; exact Lo|].
    replace (ln - ld - 1 + 1)%Z with (ln - ld)%Z by lia.
    apply Qnot_le_lt. intros C. apply Qle_bool_iff in C. congruence.
Qed.

Lemma ilog2_lt x k : (0 < x)%Q -> (x < pow2 k)%Q -> (ilog2 x < k)%Z.
Proof.
  intros Hx H. apply pow2_lt_inv.
  eapply Qle_lt_trans; [apply (ilog2_spec x Hx) | exact H].
Qed.

Lemma ilog2_ge x k : (0 < x)%Q -> (pow2 k <= x)%Q -> (k <= ilog2 x)%Z.
Proof.
  intros Hx H.
  assert (G : (k < ilog2 x + 1)%Z).
  { apply pow2_lt_inv. eapply Qle_lt_trans; [exact H | apply (ilog2_spec x Hx)]. }
  lia.
Qed.

Lemma ilog2_comp x y : (0 < x)%Q -> (x == y)%Q -> ilog2 x = ilog2 y.
Proof.
  intros Hx E. assert (Hy : (0 < y)%Q) by (now rewrite <- E).
  destruct (ilog2_spec x Hx) as [X1 X2]. destruct (ilog2_spec y Hy) as [Y1 Y2].
  assert (X1' : (pow2 (ilog2 x) <= y)%Q)
    by (eapply Qle_trans; [exact X1 | rewrite E; apply Qle_refl]).
  assert (X2' : (y < pow2 (ilog2 x + 1))%Q)
    by (eapply Qle_lt_trans; [|exact X2]; rewrite E; apply Qle_refl).
  pose proof (ilog2_ge y _ Hy X1'). pose proof (ilog2_lt y _ Hy X2'). lia.
Qed.

(** *** Rounding to the nearest integer *)

Lemma rhe_comp x y : (x == y)%Q -> round_half_even x = round_half_even y.
Proof.
  intros E. unfold round_half_even.
  rewrite (Qfloor_comp x y E).
  assert (C : (x - inject_Z (Qfloor y) ?= 1 # 2)%Q = (y - inject_Z (Qfloor y) ?= 1 # 2)%Q).
  { apply Qcompare_comp; [now rewrite E | reflexivity]. }
  now rewrite C.
Qed.

Lemma rhe_floor x : (Qfloor x <= round_half_even x <= Qfloor x + 1)%Z.
Proof.
  unfold round_half_even.
  destruct (x - inject_Z (Qfloor x) ?= 1 # 2)%Q; [destruct (Z.even (Qfloor x))| |]; lia.
Qed.

Lemma rhe_int z : round_half_even (inject_Z z) = z.
Proof.
  unfold round_half_even. rewrite Qfloor_Z.
  assert (C : (inject_Z z - inject_Z z ?= 1 # 2)%Q = Lt).
  { apply Qlt_alt. setoid_replace (inject_Z z - inject_Z z)%Q with 0%Q by ring. reflexivity. }
  now rewrite C.
Qed.

Lemma rhe_ge x n : (inject_Z n <= x)%Q -> (n <= round_half_even x)%Z.
Proof.
  intros H. apply Qfloor_resp_le in H. rewrite Qfloor_Z in H.
  pose proof (rhe_floor x). lia.
Qed.

Lemma rhe_le x n : (x <= inject_Z n)%Q -> (round_half_even x <= n)%Z.
Proof.
  intros H. unfold round_half_even.
  assert (F : (Qfloor x <= n)%Z).
  { apply Qfloor_resp_le in H. now rewrite Qfloor_Z in H. }
  assert (G : (0 < x - inject_Z (Qfloor x))%Q -> (Qfloor x + 1 <= n)%Z).
  { intros P.
    assert (L : (inject_Z (Qfloor x) < inject_Z n)%Q).
    { eapply Qlt_le_trans; [|exact H]. apply Qlt_minus_iff. exact P. }
    rewrite <- Zlt_Qlt in L. lia. }
  destruct (x - inject_Z (Qfloor x) ?= 1 # 2)%Q eqn:C.
  - destruct (Z.even (Qfloor x)); [exact F|]. apply G.
    apply Qeq_alt in C. rewrite C. reflexivity.
  - exact F.
  - apply G. apply Qgt_alt in C. eapply Qlt_trans; [|exact C]. reflexivity.
Qed.

(** Below the middle between [n - 1] and [n], the rounding stays below [n]. *)
Lemma rhe_below_half x n : (x < inject_Z n - (1 # 2))%Q -> (round_half_even x <= n - 1)%Z.
Proof.
  intros H. unfold round_half_even.
  assert (F : (Qfloor x <= n - 1)%Z).
  { assert (L : (inject_Z (Qfloor x) < inject_Z n)%Q).
    { eapply Qle_lt_trans; [apply Qfloor_le|]. eapply Qlt_trans; [exact H|].
      apply Qlt_minus_iff. ring_simplify. reflexivity. }
    rewrite <- Zlt_Qlt in L. lia. }
  assert (G : ((1 # 2) <= x - inject_Z (Qfloor x))%Q -> (Qfloor x + 1 <= n - 1)%Z).
  { intros P.
    assert (L : (inject_Z (Qfloor x) < inject_Z (n - 1))%Q).
    { unfold Zminus. rewrite inject_Z_plus, inject_Z_opp.
      apply Qlt_minus_iff.
      assert (Q1 : (0 < inject_Z n - (1 # 2) - x)%Q) by (apply Qlt_minus_iff in H; exact H).
      assert (Q2 : (0 <= x - inject_Z (Qfloor x) - (1 # 2))%Q)
        by (apply Qle_minus_iff in P; exact P).
      setoid_replace (inject_Z n + - inject_Z 1 + - inject_Z (Qfloor x))%Q
        with ((inject_Z n - (1 # 2) - x) + (x - inject_Z (Qfloor x) - (1 # 2)))%Q
        by (change (inject_Z 1) with 1%Q; ring).
      apply Qlt_le_trans with (inject_Z n - (1 # 2) - x + 0)%Q.
      - now rewrite Qplus_0_r.
      - apply Qplus_le_r. exact Q2. }
    rewrite <- Zlt_Qlt in L. lia. }
  destruct (x - inject_Z (Qfloor x) ?= 1 # 2)%Q eqn:C.
  - destruct (Z.even (Qfloor x)); [exact F|]. apply G.
    apply Qeq_alt in C. rewrite C. apply Qle_refl.
  - exact F.
  - apply G. apply Qgt_alt in C. apply Qlt_le_weak. exact C.
Qed.

(** *** Rounding to binary64 *)

Lemma ulp_exp_comp x y : (0 < x)%Q -> (x == y)%Q -> ulp_exp x = ulp_exp y.
Proof. intros Hx E. unfold ulp_exp. now rewrite (ilog2_comp x y Hx E). Qed.

Lemma nearest_comp x y : (0 < x)%Q -> (x == y)%Q -> (nearest x == nearest y)%Q.
Proof.
  intros Hx E. unfold nearest. rewrite (ulp_exp_comp x y Hx E).
  rewrite (rhe_comp (x / pow2 (ulp_exp y)) (y / pow2 (ulp_exp y))); [reflexivity|].
  now rewrite E.
Qed.

Lemma Qle_bool_comp a b c d : (a == c)%Q -> (b == d)%Q -> Qle_bool a b = Qle_bool c d.
Proof.
  intros E1 E2. destruct (Qle_bool a b) eqn:A, (Qle_bool c d) eqn:C; auto.
  - apply Qle_bool_iff in A. rewrite E1, E2 in A. apply Qle_bool_iff in A. congruence.
  - apply Qle_bool_iff in C. rewrite <- E1, <- E2 in C. apply Qle_bool_iff in C. congruence.
Qed.

Lemma Qle_bool_false a b : Qle_bool a b = false <-> (b < a)%Q.
Proof.
  split.
  - intros H. apply Qnot_le_lt. intros C. apply Qle_bool_iff in C. congruence.
  - intros H. destruct (Qle_bool a b) eqn:E; [|reflexivity].
    apply Qle_bool_iff in E. exfalso. exact (Qlt_not_le _ _ H E).
Qed.

Lemma fl64_comp x y : (x == y)%Q -> fl64 x = fl64 y.
Proof.
  intros E. unfold fl64. rewrite (Qle_bool_comp x 0 y 0 E (Qeq_refl 0)).
  destruct (Qle_bool y 0) eqn:Z0; [reflexivity|].
  assert (Hx : (0 < x)%Q) by (rewrite E; now apply Qle_bool_false).
  pose proof (nearest_comp x y Hx E) as N.
  rewrite (Qle_bool_comp _ _ _ _ (Qeq_refl (pow2 1024)) N).
  destruct (Qle_bool (pow2 1024) (nearest y)); [reflexivity|].
  f_equal. now apply Qred_complete.
Qed.

Lemma fl64_zero x : (x == 0)%Q -> fl64 x = Finite 0.
Proof. intros E. rewrite (fl64_comp x 0 E). reflexivity. Qed.

(** The scaled number stays below [2^53]. *)
Lemma scaled_lt x : (0 < x)%Q -> (x / pow2 (ulp_exp x) < inject_Z (2 ^ 53))%Q.
Proof.
  intros Hx. apply Qlt_shift_div_r; [apply pow2_pos|].
  rewrite <- (pow2_nonneg_Z 53) by lia. rewrite <- pow2_add.
  eapply Qlt_le_trans; [apply (ilog2_spec x Hx)|].
  apply pow2_le. unfold ulp_exp. lia.
Qed.

Lemma nearest_nonneg x : (0 < x)%Q -> (0 <= nearest x)%Q.
Proof.
  intros Hx. unfold nearest. apply Qmult_le_0_compat; [|apply Qlt_le_weak, pow2_pos].
  change 0%Q with (inject_Z 0). rewrite <- Zle_Qle. apply rhe_ge.
  apply Qle_shift_div_l; [apply pow2_pos|]. change (inject_Z 0) with 0%Q.
  rewrite Qmult_0_l. now apply Qlt_le_weak.
Qed.

Lemma nearest_upper x : (0 < x)%Q -> (nearest x <= pow2 (ulp_exp x + 53))%Q.
Proof.
  intros Hx. unfold nearest.
  replace (ulp_exp x + 53)%Z with (53 + ulp_exp x)%Z by lia. rewrite pow2_add.
  apply Qmult_le_compat_r; [|apply Qlt_le_weak, pow2_pos].
  rewrite (pow2_nonneg_Z 53) by lia. rewrite <- Zle_Qle. apply rhe_le.
  apply Qlt_le_weak. now apply scaled_lt.
Qed.

Lemma nearest_lower x :
  (0 < x)%Q -> (-1022 <= ilog2 x)%Z -> (pow2 (ilog2 x) <= nearest x)%Q.
Proof.
  intros Hx He. unfold nearest.
  assert (S : ulp_exp x = (ilog2 x - 52)%Z) by (unfold ulp_exp; lia).
  rewrite S.
  replace (ilog2 x) with (52 + (ilog2 x - 52))%Z at 1 by lia.
  rewrite pow2_add. apply Qmult_le_compat_r; [|apply Qlt_le_weak, pow2_pos].
  rewrite (pow2_nonneg_Z 52) by lia. rewrite <- Zle_Qle. apply rhe_ge.
  apply Qle_shift_div_l; [apply pow2_pos|].
  rewrite <- (pow2_nonneg_Z 52) by lia. rewrite <- pow2_add.
  replace (52 + (ilog2 x - 52))%Z with (ilog2 x) by lia.
  apply (ilog2_spec x Hx).
Qed.

(** Integers bound the rounding of a number below [2^53] as they bound the
    number. *)
Lemma ulp_exp_small x : (0 < x)%Q -> (x < pow2 53)%Q -> (ulp_exp x <= 0)%Z.
Proof.
  intros Hx H. pose proof (ilog2_lt x 53 Hx H). unfold ulp_exp. lia.
Qed.

Lemma scaled_int x n :
  (ulp_exp x <= 0)%Z ->
  (inject_Z (n * 2 ^ (- ulp_exp x)) == inject_Z n / pow2 (ulp_exp x))%Q.
Proof.
  intros Hs. rewrite div_pow2, inject_Z_mult, (pow2_nonneg_Z (- ulp_exp x)) by lia.
  reflexivity.
Qed.

Lemma Qle_mult_of_div a b c : (0 < b)%Q -> (a / b <= c)%Q -> (a <= c * b)%Q.
Proof.
  intros Hb H. setoid_replace a with (a / b * b)%Q at 1
    by (field; intros E; rewrite E in Hb; discriminate).
  apply Qmult_le_compat_r; [exact H | now apply Qlt_le_weak].
Qed.

Lemma Qmult_le_of_div a b c : (0 < b)%Q -> (c <= a / b)%Q -> (c * b <= a)%Q.
Proof.
  intros Hb H. setoid_replace a with (a / b * b)%Q
    by (field; intros E; rewrite E in Hb; discriminate).
  apply Qmult_le_compat_r; [exact H | now apply Qlt_le_weak].
Qed.

Lemma nearest_ge_int x n :
  (0 < x)%Q -> (ulp_exp x <= 0)%Z -> (inject_Z n <= x)%Q -> (inject_Z n <= nearest x)%Q.
Proof.
  intros Hx Hs H. unfold nearest.
  apply Qle_mult_of_div; [apply pow2_pos|].
  rewrite <- (scaled_int x n Hs), <- Zle_Qle. apply rhe_ge.
  rewrite (scaled_int x n Hs).
  apply Qmult_le_compat_r; [exact H|]. apply Qlt_le_weak, Qinv_lt_0_compat, pow2_pos.
Qed.

Lemma nearest_le_int x n :
  (0 < x)%Q -> (ulp_exp x <= 0)%Z -> (x <= inject_Z n)%Q -> (nearest x <= inject_Z n)%Q.
Proof.
  intros Hx Hs H. unfold nearest.
  apply Qmult_le_of_div; [apply pow2_pos|].
  rewrite <- (scaled_int x n Hs), <- Zle_Qle. apply rhe_le.
  rewrite (scaled_int x n Hs).
  apply Qmult_le_compat_r; [exact H|]. apply Qlt_le_weak, Qinv_lt_0_compat, pow2_pos.
Qed.

Lemma fl64_positive x :
  (0 < x)%Q ->
  fl64 x = if Qle_bool (pow2 1024) (nearest x) then Infinity else Finite (Qred (nearest x)).
Proof.
  intros Hx. unfold fl64. apply Qle_bool_false in Hx. now rewrite Hx.
Qed.

Lemma fl64_small x : (0 < x)%Q -> (x < pow2 53)%Q -> fl64 x = Finite (Qred (nearest x)).
Proof.
  intros Hx H. rewrite (fl64_positive x Hx).
  assert (L : (nearest x < pow2 1024)%Q).
  { eapply Qle_lt_trans; [apply (nearest_upper x Hx)|].
    apply pow2_lt. pose proof (ulp_exp_small x Hx H). lia. }
  apply Qle_bool_false in L. now rewrite L.
Qed.

Lemma Qred_inject_Z z : Qred (inject_Z z) = inject_Z z.
Proof. apply Qcanon.Qred_identity. simpl. apply Z.gcd_1_r. Qed.

(** The integers below [2^53] are binary64 numbers. *)
Lemma fl64_int x z :
  (x == inject_Z z)%Q -> (0 <= z < 2 ^ 53)%Z -> fl64 x = Finite (inject_Z z).
Proof.
  intros E Hz. destruct (Z.eq_dec z 0) as [->|Hne].
  - now apply fl64_zero.
  - assert (Hx : (0 < x)%Q) by (rewrite E; change 0%Q with (inject_Z 0); rewrite <- Zlt_Qlt; lia).
    assert (H53 : (x < pow2 53)%Q)
      by (rewrite E, (pow2_nonneg_Z 53) by lia; rewrite <- Zlt_Qlt; lia).
    rewrite (fl64_small x Hx H53). f_equal.
    rewrite <- (Qred_inject_Z z). apply Qred_complete.
    pose proof (ulp_exp_small x Hx H53) as Hs.
    apply Qle_antisym.
    + apply nearest_le_int; auto. rewrite E. apply Qle_refl.
    + apply nearest_ge_int; auto. rewrite E. apply Qle_refl.
Qed.

(** From [2^k] on, the rounding is [2^k] at least. *)
Lemma fl64_large x k :
  (-1022 <= k)%Z -> (pow2 k <= x)%Q ->
  match fl64 x with
  | Finite y => (pow2 k <= y)%Q
  | Infinity => True
  end.
Proof.
  intros Hk H.
  assert (Hx : (0 < x)%Q) by (eapply Qlt_le_trans; [apply (pow2_pos k) | exact H]).
  rewrite (fl64_positive x Hx).
  destruct (Qle_bool (pow2 1024) (nearest x)); [exact I|].
  rewrite Qred_correct.
  pose proof (ilog2_ge x k Hx H) as He.
  eapply Qle_trans; [|apply nearest_lower; [exact Hx | lia]].
  now apply pow2_le.
Qed.

(** *** The draws and the jitter *)

(** The largest draw is [1 - 2^-53]. *)
Lemma draw_below_one r : is_draw r -> (r <= 1 - pow2 (-53))%Q.
Proof.
  intros [H0 [H1 Hd]].
  destruct (Qlt_le_dec 0 r) as [Hr|Hr].
  - assert (H53 : (r < pow2 53)%Q) by (eapply Qlt_trans; [exact H1 | reflexivity]).
    rewrite (fl64_small r Hr H53) in Hd.
    assert (Hd' : Qred (nearest r) = Qred r) by congruence.
    clear Hd. rename Hd' into Hd. apply Qred_eq_iff in Hd.
    assert (He : (ilog2 r < 0)%Z) by (apply ilog2_lt; [exact Hr | exact H1]).
    destruct (Z_le_gt_dec (ilog2 r) (-2)) as [Hs|Hs].
    + apply Qlt_le_weak. eapply Qlt_le_trans; [apply (ilog2_spec r Hr)|].
      eapply Qle_trans; [apply (pow2_le _ (-1)); lia | discriminate].
    + assert (E : ilog2 r = (-1)%Z) by lia.
      unfold nearest, ulp_exp in Hd. rewrite E in Hd.
      change (Z.max (-1) (-1022) - 52)%Z with (-53)%Z in Hd.
      set (m := round_half_even (r / pow2 (-53))) in Hd.
      assert (Hm : (m <= 2 ^ 53 - 1)%Z).
      { assert (L : (inject_Z m < inject_Z (2 ^ 53))%Q).
        { rewrite <- (pow2_nonneg_Z 53) by lia.
          setoid_replace (inject_Z m) with (inject_Z m * pow2 (-53) * pow2 53)%Q
            by (rewrite <- Qmult_assoc, (pow2_inv 53), Qmult_1_r; reflexivity).
          rewrite Hd.
          setoid_replace (pow2 53) with (1 * pow2 53)%Q at 2 by ring.
          apply Qmult_lt_r; [apply pow2_pos | exact H1]. }
        rewrite <- Zlt_Qlt in L. lia. }
      rewrite <- Hd.
      apply Qle_trans with (inject_Z (2 ^ 53 - 1) * pow2 (-53))%Q.
      * apply Qmult_le_compat_r; [|apply Qlt_le_weak, pow2_pos].
        now rewrite <- Zle_Qle.
      * discriminate.
  - assert (E : (r == 0)%Q) by (apply Qle_antisym; assumption).
    rewrite E. discriminate.
Qed.

(** [Math.floor(Math.random() * 1000)]: a whole number from 0 to 999, the
    floor of the exact product or, when the product is rounded up to the
    next integer, one more. *)
Lemma jitter_spec r :
  is_draw r ->
  exists j, floor64 (mul64 (Finite r) (Finite 1000)) = Finite (inject_Z j)
            /\ (0 <= j <= 999)%Z
            /\ (Qfloor (r * 1000) <= j <= Qfloor (r * 1000) + 1)%Z.
Proof.
  intros D. pose proof (draw_below_one r D) as Hmax. destruct D as [H0 [H1 _]].
  cbn [mul64 floor64]. set (x := (r * 1000)%Q).
  destruct (Qlt_le_dec 0 r) as [Hr|Hr].
  - assert (Hx : (0 < x)%Q).
    { unfold x. setoid_replace 0%Q with (0 * 1000)%Q by ring.
      apply Qmult_lt_r; [reflexivity | exact Hr]. }
    assert (Hx1 : (x < 1000)%Q).
    { unfold x. setoid_replace 1000%Q with (1 * 1000)%Q at 2 by ring.
      apply Qmult_lt_r; [reflexivity | exact H1]. }
    assert (H53 : (x < pow2 53)%Q) by (eapply Qlt_trans; [exact Hx1 | reflexivity]).
    pose proof (ulp_exp_small x Hx H53) as Hs.
    rewrite (fl64_small x Hx H53).
    exists (Qfloor (Qred (nearest x))). split; [reflexivity|].
    rewrite (Qfloor_comp _ _ (Qred_correct (nearest x))).
    assert (Lo : (Qfloor x <= Qfloor (nearest x))%Z).
    { rewrite <- (Qfloor_Z (Qfloor x)) at 1. apply Qfloor_resp_le.
      apply nearest_ge_int; auto. apply Qfloor_le. }
    assert (Up : (Qfloor (nearest x) <= Qfloor x + 1)%Z).
    { rewrite <- (Qfloor_Z (Qfloor x + 1)). apply Qfloor_resp_le.
      apply nearest_le_int; auto. apply Qlt_le_weak, Qlt_floor. }
    assert (F0 : (0 <= Qfloor x)%Z).
    { change 0%Z with (Qfloor 0). apply Qfloor_resp_le. now apply Qlt_le_weak. }
    assert (N : (nearest x < 1000)%Q).
    { assert (He : (ilog2 x < 10)%Z)
        by (apply ilog2_lt; [exact Hx | eapply Qlt_trans; [exact Hx1 | reflexivity]]).
      destruct (Z_le_gt_dec (ilog2 x) 8) as [H8|H8].
      - apply Qle_lt_trans with (inject_Z 512); [|reflexivity].
        apply nearest_le_int; auto. apply Qlt_le_weak.
        eapply Qlt_le_trans; [apply (ilog2_spec x Hx)|].
        eapply Qle_trans; [apply (pow2_le _ 9); lia | discriminate].
      - assert (E : ilog2 x = 9%Z) by lia.
        unfold nearest, ulp_exp. rewrite E.
        change (Z.max 9 (-1022) - 52)%Z with (-43)%Z.
        set (m := round_half_even (x / pow2 (-43))).
        assert (Hm : (m <= 1000 * 2 ^ 43 - 1)%Z).
        { apply rhe_below_half. rewrite div_pow2. change (- -43)%Z with 43%Z.
          apply Qle_lt_trans with ((1000 - 1000 * pow2 (-53)) * pow2 43)%Q; [|reflexivity].
          apply Qmult_le_compat_r; [|discriminate].
          unfold x. setoid_replace (1000 - 1000 * pow2 (-53))%Q
            with ((1 - pow2 (-53)) * 1000)%Q by ring.
          apply Qmult_le_compat_r; [exact Hmax | discriminate]. }
        apply Qle_lt_trans with (inject_Z (1000 * 2 ^ 43 - 1) * pow2 (-43))%Q; [|reflexivity].
        apply Qmult_le_compat_r; [|discriminate]. now rewrite <- Zle_Qle. }
    assert (F9 : (Qfloor (nearest x) <= 999)%Z).
    { assert (L : (inject_Z (Qfloor (nearest x)) < inject_Z 1000)%Q)
        by (eapply Qle_lt_trans; [apply Qfloor_le | exact N]).
      rewrite <- Zlt_Qlt in L. lia. }
    lia.
  - assert (E : (x == 0)%Q).
    { unfold x. assert (R : (r == 0)%Q) by (apply Qle_antisym; assumption).
      rewrite R. reflexivity. }
    rewrite (fl64_zero x E). exists 0%Z. split; [reflexivity|].
    rewrite (Qfloor_comp _ _ E). change (Qfloor 0) with 0%Z. lia.
Qed.

(** *** The delay of [sleep] *)

Lemma pow2_64_small a : a <= 21 -> pow2_64 a = Finite (inject_Z (2 ^ Z.of_nat a)).
Proof.
  intros Ha. unfold pow2_64. apply fl64_int.
  - apply pow2_nonneg_Z. lia.
  - split; [apply Z.pow_nonneg; lia|].
    apply Z.le_lt_trans with (2 ^ 21)%Z; [apply Z.pow_le_mono_r; lia | reflexivity].
Qed.

(** Up to the attempt 21 the delay is computed exactly and fits the timer. *)
Lemma delay_spec a r :
  a <= 21 -> is_draw r ->
  exists j, floor64 (mul64 (Finite r) (Finite 1000)) = Finite (inject_Z j)
            /\ (0 <= j <= 999)%Z
            /\ (Qfloor (r * 1000) <= j <= Qfloor (r * 1000) + 1)%Z
            /\ delay_ms a r = Finite (inject_Z (2 ^ Z.of_nat a * 1000 + j))
            /\ timer_ms (delay_ms a r) = (2 ^ Z.of_nat a * 1000 + j)%Z.
Proof.
  intros Ha D. destruct (jitter_spec r D) as [j [Hj [Hr Hf]]].
  exists j. split; [exact Hj|]. split; [exact Hr|]. split; [exact Hf|].
  assert (P : (1 <= 2 ^ Z.of_nat a <= 2 ^ 21)%Z).
  { split; [|apply Z.pow_le_mono_r; lia].
    change 1%Z with (2 ^ 0)%Z. apply Z.pow_le_mono_r; lia. }
  change (2 ^ 21)%Z with 2097152%Z in P.
  assert (E : delay_ms a r = Finite (inject_Z (2 ^ Z.of_nat a * 1000 + j))).
  { unfold delay_ms. rewrite Hj, (pow2_64_small a Ha). cbn [mul64].
    rewrite (fl64_int (inject_Z (2 ^ Z.of_nat a) * 1000) (2 ^ Z.of_nat a * 1000)).
    - cbn [add64]. apply fl64_int.
      + now rewrite inject_Z_plus.
      + change (2 ^ 53)%Z with 9007199254740992%Z. lia.
    - now rewrite inject_Z_mult.
    - change (2 ^ 53)%Z with 9007199254740992%Z. lia. }
  split; [exact E|]. rewrite E. unfold timer_ms.
  assert (L1 : Qle_bool 1 (inject_Z (2 ^ Z.of_nat a * 1000 + j)) = true).
  { apply Qle_bool_iff. change 1%Q with (inject_Z 1). rewrite <- Zle_Qle. lia. }
  assert (L2 : Qle_bool (inject_Z (2 ^ Z.of_nat a * 1000 + j)) (inject_Z TIMEOUT_MAX) = true).
  { apply Qle_bool_iff. rewrite <- Zle_Qle. unfold TIMEOUT_MAX.
    change (2 ^ 31 - 1)%Z with 2147483647%Z. lia. }
  rewrite L1, L2. apply Qfloor_Z.
Qed.

(** From the attempt 22 on the delay does not fit the timer, which is set to
    one millisecond. *)
Lemma delay_overflow a r : 22 <= a -> is_draw r -> timer_ms (delay_ms a r) = 1%Z.
Proof.
  intros Ha D. destruct (jitter_spec r D) as [j [Hj [Hr _]]].
  unfold delay_ms. rewrite Hj.
  assert (P : (pow2 22 <= pow2 (Z.of_nat a))%Q) by (apply pow2_le; lia).
  pose proof (fl64_large (pow2 (Z.of_nat a)) 22 ltac:(lia) P) as H1.
  fold (pow2_64 a) in H1. destruct (pow2_64 a) as [p|]; [|reflexivity].
  cbn [mul64].
  assert (P2 : (pow2 31 <= p * 1000)%Q).
  { apply Qle_trans with (pow2 22 * 1000)%Q; [discriminate|].
    apply Qmult_le_compat_r; [exact H1 | discriminate]. }
  pose proof (fl64_large (p * 1000) 31 ltac:(lia) P2) as H2.
  destruct (fl64 (p * 1000)) as [b|]; [|reflexivity].
  cbn [add64].
  assert (P3 : (pow2 31 <= b + inject_Z j)%Q).
  { apply Qle_trans with (b + 0)%Q; [now rewrite Qplus_0_r|].
    apply Qplus_le_r. change 0%Q with (inject_Z 0). rewrite <- Zle_Qle. lia. }
  pose proof (fl64_large (b + inject_Z j) 31 ltac:(lia) P3) as H3.
  destruct (fl64 (b + inject_Z j)) as [d|]; [|reflexivity].
  unfold timer_ms.
  assert (L : Qle_bool d (inject_Z TIMEOUT_MAX) = false).
  { apply Qle_bool_false. eapply Qlt_le_trans; [|exact H3]. reflexivity. }
  rewrite L, andb_false_r. reflexivity.
Qed.

(** Some roundings: a product rounded up to the next integer, an integer of
    54 bits, the timer at the attempts 21 and 22, the largest power of two,
    and one tenth. *)
Example binary64_examples :
  floor64 (mul64 (Finite (526921156402348 # 4503599627370496)) (Finite 1000))
  = Finite (inject_Z 117)
  /\ Qfloor ((526921156402348 # 4503599627370496) * 1000) = 116%Z
  /\ fl64 (inject_Z 9007199254740993) = Finite (inject_Z 9007199254740992)
  /\ timer_ms (delay_ms 21 (1 # 2)) = 2097152500%Z
  /\ timer_ms (delay_ms 22 (1 # 2)) = 1%Z
  /\ pow2_64 1023 = Finite (inject_Z (2 ^ 1023))
  /\ pow2_64 1024 = Infinity
  /\ fl64 (1 # 10) = Finite (3602879701896397 # 36028797018963968).
Proof. repeat split; vm_compute; reflexivity. Qed.

(* ===================================================================== *)
(** ** Facts about [JSON.parse] *)
(* ===================================================================== *)

Lemma skip_ws_length s : length (skip_ws s) <= length s.
Proof.
  induction s as [|c t IH]; simpl; [lia|].
  destruct (is_ws c); simpl; lia.
Qed.

Lemma span_digits_length s ds r :
  span_digits s = (ds, r) -> length r <= length s.
Proof.
  revert ds r. induction s as [|c t IH]; simpl; intros ds r H.
  - inversion H; subst; simpl; lia.
  - destruct (is_digit c).
    + destruct (span_digits t) as [ds' r'] eqn:E. inversion H; subst.
      specialize (IH _ _ eq_refl). lia.
    + inversion H; subst; simpl; lia.
Qed.

Lemma parse_chars_shorter : forall s acc,
  match parse_chars acc s with
  | POk _ r => length r < length s
  | PErr => True
  | PFuel => False
  end.
Proof.
  fix IH 1. intros [|c t] acc; simpl; [exact I|].
  destruct (N.eqb c 34); [lia|].
  destruct (N.eqb c 92).
  - destruct t as [|e t']; [exact I|].
    destruct (N.eqb e 117).
    + destruct t' as [|h1 [|h2 [|h3 [|h4 t'']]]]; try exact I.
      destruct (hex4 h1 h2 h3 h4); [|exact I].
      specialize (IH t'' (c0 :: acc)).
      destruct (parse_chars (c0 :: acc) t''); simpl in *; try lia; auto.
    + destruct (unescape e); [|exact I].
      specialize (IH t' (c0 :: acc)).
      destruct (parse_chars (c0 :: acc) t'); simpl in *; try lia; auto.
  - destruct (N.ltb c 32); [exact I|].
    specialize (IH t (c :: acc)).
    destruct (parse_chars (c :: acc) t); simpl in *; try lia; auto.
Qed.

Lemma parse_number_shorter s : shorter s (parse_number s).
Proof.
  unfold parse_number, shorter.
  assert (Hint : forall s1, shorter s1 (parse_int_part s1)).
  { intros [|c t]; simpl; [exact I|].
    destruct (N.eqb c 48); simpl; [lia|].
    destruct (is_digit c); [|exact I].
    destruct (span_digits t) as [ds r] eqn:E. simpl.
    apply span_digits_length in E. lia. }
  assert (Hfrac : forall s2, match parse_frac_part s2 with
                            | POk _ r => length r <= length s2
                            | PErr => True | PFuel => False end).
  { intros [|c t]; simpl; [lia|].
    destruct (N.eqb c 46); simpl; [|lia].
    destruct (span_digits t) as [[|d ds] r] eqn:E; [exact I|].
    apply span_digits_length in E. simpl. lia. }
  assert (Hexp : forall s3, match parse_exp_part s3 with
                           | POk _ r => length r <= length s3
                           | PErr => True | PFuel => False end).
  { intros [|c t]; simpl; [lia|].
    destruct (N.eqb c 101 || N.eqb c 69)%bool; simpl; [|lia].
    destruct t as [|g u].
    - simpl. exact I.
    - destruct (N.eqb g 43 || N.eqb g 45)%bool.
      + destruct (span_digits u) as [[|d ds] r] eqn:E; [exact I|].
        apply span_digits_length in E. simpl. lia.
      + destruct (span_digits (g :: u)) as [[|d ds] r] eqn:E; [exact I|].
        apply span_digits_length in E. simpl in *. lia. }
  assert (Hsign : forall sign s1,
             (match s with
              | c :: t => if N.eqb c 45 then ([c], t) else ([], s)
              | [] => ([], s)
              end) = (sign, s1) -> length s1 <= length s).
  { intros sign s1 H. destruct s as [|c t]; [inversion H; subst; simpl; lia|].
    destruct (N.eqb c 45); inversion H; subst; simpl; lia. }
  destruct (match s with
            | c :: t => if N.eqb c 45 then ([c], t) else ([], s)
            | [] => ([], s)
            end) as [sign s1] eqn:E.
  specialize (Hsign _ _ eq_refl).
  specialize (Hint s1). destruct (parse_int_part s1) as [ip s2| |]; simpl in *; auto.
  specialize (Hfrac s2). destruct (parse_frac_part s2) as [fp s3| |]; auto.
  specialize (Hexp s3). destruct (parse_exp_part s3) as [ep s4| |]; auto.
  lia.
Qed.

Lemma parse_keyword_shorter kw v s :
  kw <> [] -> startsWith s kw = true -> shorter s (parse_keyword kw v s).
Proof.
  intros Hkw H. unfold parse_keyword. rewrite H. simpl.
  destruct kw as [|a kw']; [congruence|].
  destruct s as [|b s']; [discriminate|]. simpl.
  pose proof (length_skipn (length kw') s'). lia.
Qed.

Lemma parse_keyword_shorter' kw v s :
  kw <> [] -> shorter s (parse_keyword kw v s).
Proof.
  intros Hkw. destruct (startsWith s kw) eqn:E.
  - now apply parse_keyword_shorter.
  - unfold parse_keyword. rewrite E. exact I.
Qed.

Lemma shorter_skip_ws {A} s (p : presult A) : shorter (skip_ws s) p -> shorter s p.
Proof.
  unfold shorter. pose proof (skip_ws_length s). destruct p; auto. lia.
Qed.

Lemma parse_fuel_shorter : forall n,
  (forall s, 2 * length s + 1 <= n -> shorter s (parse_value n s))
  /\ (forall acc s, 2 * length s + 2 <= n -> shorter s (parse_elements n acc s))
  /\ (forall acc s, 2 * length s + 2 <= n -> shorter s (parse_members n acc s)).
Proof.
  induction n as [|n [IHv [IHe IHm]]].
  - repeat split; intros; lia.
  - repeat split.
    + intros s Hn. simpl. apply shorter_skip_ws.
      pose proof (skip_ws_length s) as Hs.
      destruct (skip_ws s) as [|c t] eqn:Es; [exact I|]. simpl in Hs.
      destruct (N.eqb c 91).
      { pose proof (skip_ws_length t) as Ht.
        destruct (skip_ws t) as [|c' t'] eqn:Et; [exact I|]. simpl in Ht.
        destruct (N.eqb c' 93); [simpl; lia|].
        specialize (IHe [] t). 
        assert (H : 2 * length t + 2 <= n) by lia. specialize (IHe H).
        unfold shorter in *. destruct (parse_elements n [] t); simpl; auto; lia. }
      destruct (N.eqb c 123).
      { pose proof (skip_ws_length t) as Ht.
        destruct (skip_ws t) as [|c' t'] eqn:Et; [exact I|]. simpl in Ht.
        destruct (N.eqb c' 125); [simpl; lia|].
        specialize (IHm [] t). 
        assert (H : 2 * length t + 2 <= n) by lia. specialize (IHm H).
        unfold shorter in *. destruct (parse_members n [] t); simpl; auto; lia. }
      destruct (N.eqb c 34).
      { pose proof (parse_chars_shorter t []) as H.
        destruct (parse_chars [] t); simpl in *; auto; lia. }
      destruct (N.eqb c 116); [apply parse_keyword_shorter'; discriminate|].
      destruct (N.eqb c 102); [apply parse_keyword_shorter'; discriminate|].
      destruct (N.eqb c 110); [apply parse_keyword_shorter'; discriminate|].
      pose proof (parse_number_shorter (c :: t)) as H.
      destruct (parse_number (c :: t)); simpl in *; auto.
    + intros acc s Hn. simpl.
      assert (Hv : 2 * length s + 1 <= n) by lia.
      specialize (IHv s Hv). destruct (parse_value n s) as [v r| |]; simpl in *; auto.
      pose proof (skip_ws_length r) as Hr.
      destruct (skip_ws r) as [|c t]; [exact I|]. simpl in Hr.
      destruct (N.eqb c 44).
      { assert (H : 2 * length t + 2 <= n) by lia.
        specialize (IHe (v :: acc) t H).
        destruct (parse_elements n (v :: acc) t); simpl in *; auto; lia. }
      destruct (N.eqb c 93); simpl; auto; lia.
    + intros acc s Hn. simpl.
      pose proof (skip_ws_length s) as Hs.
      destruct (skip_ws s) as [|c t]; [exact I|]. simpl in Hs.
      destruct (N.eqb c 34); [|exact I].
      pose proof (parse_chars_shorter t []) as Hc.
      destruct (parse_chars [] t) as [key r| |]; simpl in *; auto.
      pose proof (skip_ws_length r) as Hr.
      destruct (skip_ws r) as [|c' t']; [exact I|]. simpl in Hr.
      destruct (N.eqb c' 58); [|exact I].
      assert (Hv : 2 * length t' + 1 <= n) by lia.
      specialize (IHv t' Hv). destruct (parse_value n t') as [v r'| |]; simpl in *; auto.
      pose proof (skip_ws_length r') as Hr'.
      destruct (skip_ws r') as [|d u]; [exact I|]. simpl in Hr'.
      destruct (N.eqb d 44).
      { assert (H : 2 * length u + 2 <= n) by lia.
        specialize (IHm (put_member key v acc) u H).
        destruct (parse_members n (put_member key v acc) u); simpl in *; auto; lia. }
      destruct (N.eqb d 125); simpl; auto; lia.
Qed.

(** The budget of [parse] is never used up: [parse] answers [None] only
    for a text that is not JSON. *)
Lemma parse_value_fuel s : parse_value (budget s) s <> PFuel.
Proof.
  intros H. pose proof (proj1 (parse_fuel_shorter (budget s)) s) as Hs.
  unfold budget in *. rewrite H in Hs. simpl in Hs. apply Hs. lia.
Qed.

Example parse_abc :
  parse (litq "['a','b','c']") = Some (JArray abc).
Proof. vm_compute. reflexivity. Qed.

Example parse_nested :
  parse (litq " {'k': [1, -2.5e+3, true, null, {'x':'A\n'}], 'e':[] } ")
  = Some (JObject [(lit "k", JArray [JNumber (lit "1"); JNumber (lit "-2.5e+3"); JBool true;
                                     JNull; JObject [(lit "x", JString [65%N; 10%N])]]);
                   (lit "e", JArray [])]).
Proof. vm_compute. reflexivity. Qed.

(** A key that occurs twice keeps its place and takes the last value. *)
Example parse_duplicate_keys :
  parse (litq "{'a': 1, 'b': true, 'a': 2}")
  = Some (JObject [(lit "a", JNumber (lit "2")); (lit "b", JBool true)]).
Proof. vm_compute. reflexivity. Qed.

Example parse_rejects :
  parse (litq "['a',]") = None /\ parse (lit "01") = None
  /\ parse (lit "Lo siento, no puedo ayudar.") = None /\ parse [] = None.
Proof. repeat split; vm_compute; reflexivity. Qed.

(** The fenced answer, code unit by code unit. *)
Example fenced_abc_units :
  fenced_abc = [96; 96; 96; 106; 115; 111; 110; 10;
                91; 34; 97; 34; 44; 34; 98; 34; 44; 34; 99; 34; 93; 10;
                96; 96; 96]%N.
Proof. reflexivity. Qed.

(* ===================================================================== *)
(** ** Facts about strings and buffers *)
(* ===================================================================== *)

Lemma trimStart_incl c s : In c (trimStart s) -> In c s.
Proof.
  induction s as [|x t IH]; simpl; auto.
  destruct (is_js_space x); simpl; auto.
Qed.

Lemma trim_incl c s : In c (trim s) -> In c s.
Proof.
  unfold trim, trimEnd. intros H.
  apply trimStart_incl. apply in_rev. apply trimStart_incl. now apply in_rev.
Qed.

Lemma strip_fences_incl_upto n : forall s c,
  length s <= n -> In c (strip_fences s) -> In c s.
Proof.
  induction n as [|n IH]; intros s c Hn H.
  - destruct s; [exact H | simpl in Hn; lia].
  - destruct s as [|x t]; [exact H|]. simpl in Hn.
    destruct t as [|c2 [|c3 t3]].
    + exact H.
    + simpl in H. exact H.
    + cbn [strip_fences] in H.
      destruct (N.eqb x backtick && N.eqb c2 backtick && N.eqb c3 backtick)%bool.
      * destruct t3 as [|j [|s' [|o [|k t7]]]];
          try (right; right; right; apply IH; [simpl in *; lia | exact H]).
        destruct (N.eqb j 106 && N.eqb s' 115 && N.eqb o 111 && N.eqb k 110)%bool.
        -- do 7 right. apply IH; [simpl in *; lia | exact H].
        -- right; right; right; apply IH; [simpl in *; lia | exact H].
      * destruct H as [H|H]; [now left|]. right. apply IH; [simpl in *; lia | exact H].
Qed.

Lemma strip_fences_incl c s : In c (strip_fences s) -> In c s.
Proof. apply (strip_fences_incl_upto (length s)); lia. Qed.

Lemma skipn_incl {A} n (l : list A) x : In x (skipn n l) -> In x l.
Proof.
  revert l. induction n as [|n IH]; intros [|y l]; simpl; auto.
Qed.

Lemma cleanedText_incl c t : In c (cleanedText t) -> In c t.
Proof.
  unfold cleanedText, substring_from. intros H.
  apply trim_incl, strip_fences_incl, skipn_incl in H. exact H.
Qed.

Lemma skip_ws_incl c s : In c (skip_ws s) -> In c s.
Proof.
  induction s as [|x t IH]; simpl; auto.
  destruct (is_ws x); simpl; auto.
Qed.

Lemma parse_members_object n : forall acc s v r,
  parse_members n acc s = POk v r -> exists m, v = JObject m.
Proof.
  induction n as [|n IH]; intros acc s v r; simpl; [discriminate|].
  destruct (skip_ws s) as [|c t]; [discriminate|].
  destruct (N.eqb c 34); [|discriminate].
  destruct (parse_chars [] t) as [key r1| |]; try discriminate.
  destruct (skip_ws r1) as [|c' t']; [discriminate|].
  destruct (N.eqb c' 58); [|discriminate].
  destruct (parse_value n t') as [v1 r2| |]; try discriminate.
  destruct (skip_ws r2) as [|d u]; [discriminate|].
  destruct (N.eqb d 44); [apply IH|].
  destruct (N.eqb d 125); [|discriminate].
  intros H. inversion H. eauto.
Qed.

(** Only a text whose first significant character is an opening bracket
    parses to an array. *)
Lemma parse_value_array n s l r :
  parse_value n s = POk (JArray l) r -> exists t, skip_ws s = 91%N :: t.
Proof.
  destruct n as [|n]; simpl; [discriminate|].
  destruct (skip_ws s) as [|c t]; [discriminate|].
  destruct (N.eqb_spec c 91) as [->|_]; [eauto|].
  destruct (N.eqb c 123).
  { destruct (skip_ws t) as [|c' t']; [discriminate|].
    destruct (N.eqb c' 125); [discriminate|].
    intros H. apply parse_members_object in H. destruct H as [m H]. discriminate. }
  destruct (N.eqb c 34).
  { destruct (parse_chars [] t); discriminate. }
  unfold parse_keyword.
  destruct (N.eqb c 116); [destruct (startsWith _ _); discriminate|].
  destruct (N.eqb c 102); [destruct (startsWith _ _); discriminate|].
  destruct (N.eqb c 110); [destruct (startsWith _ _); discriminate|].
  destruct (parse_number (c :: t)); discriminate.
Qed.

Lemma parse_array_bracket text l : parse text = Some (JArray l) -> In 91%N text.
Proof.
  unfold parse.
  destruct (parse_value (budget text) text) as [v r| |] eqn:E; try discriminate.
  destruct (skip_ws r); [|discriminate]. intros H. inversion H; subst.
  apply parse_value_array in E. destruct E as [t E].
  apply skip_ws_incl. rewrite E. now left.
Qed.

(** A response text without an opening bracket gives no prompts. *)
Lemma no_bracket_no_prompts r p ps t :
  first_parts r = p :: ps -> text p = Some t -> ~ In 91%N t ->
  prompts_of_attempt (Returned r) = None.
Proof.
  intros Hp Ht Hn. unfold prompts_of_attempt.
  destruct (has_candidates r); [|reflexivity].
  rewrite Hp. destruct p as [tx d]. simpl in Ht. subst tx.
  destruct (parse (cleanedText t)) as [[| | | |[|x l]|]|] eqn:E; try reflexivity.
  exfalso. apply Hn. apply cleanedText_incl. eapply parse_array_bracket. exact E.
Qed.

(** [substring] with ordered, non-negative bounds is a window of the text. *)
Lemma substring_window s (a b : nat) :
  a <= b -> substring s (Z.of_nat a) (Z.of_nat b) = firstn (b - a) (skipn a s).
Proof.
  intros Hab. unfold substring, clamp.
  rewrite !Z.max_l by lia. rewrite <- !Nat2Z.inj_min, !Nat2Z.id.
  set (a' := Nat.min a (length s)). set (b' := Nat.min b (length s)).
  assert (Ha : a' <= b') by (subst a' b'; lia).
  rewrite (Nat.min_l a' b'), (Nat.max_r a' b') by exact Ha.
  subst a' b'.
  destruct (Nat.le_gt_cases (length s) a) as [Hl|Hl].
  - rewrite (Nat.min_r a) by lia. rewrite !skipn_all2 by lia.
    now rewrite !firstn_nil.
  - rewrite (Nat.min_l a) by lia.
    destruct (Nat.le_gt_cases b (length s)) as [Hb|Hb].
    + now rewrite Nat.min_l by lia.
    + rewrite Nat.min_r by lia.
      rewrite !firstn_all2; auto; rewrite length_skipn; lia.
Qed.

Lemma slice0_firstn {A} (l : list A) n :
  (0 <= n)%Z -> slice0 l n = firstn (Z.to_nat n) l.
Proof.
  intros H. unfold slice0. destruct (Z.ltb_spec n 0); [lia|reflexivity].
Qed.

Lemma slice0_length {A} (l : list A) n :
  (0 <= n)%Z -> length (slice0 l n) <= Z.to_nat n.
Proof.
  intros H. rewrite slice0_firstn by exact H. rewrite length_firstn. lia.
Qed.



(* ===================================================================== *)
(** ** Facts about the loops *)
(* ===================================================================== *)

Lemma sleep_log_app tr1 tr2 : sleep_log (tr1 ++ tr2) = sleep_log tr1 ++ sleep_log tr2.
Proof. unfold sleep_log. apply flat_map_app. Qed.

Lemma first_pass_none passes n : forall c,
  first_pass passes c n = None <->
  (forall k, k < n -> passes (c + k) = false).
Proof.
  induction n as [|n IH]; intros c; simpl.
  - split; [intros _ k Hk; lia | reflexivity].
  - destruct (passes c) eqn:E.
    + split; [discriminate|]. intros H. specialize (H 0 ltac:(lia)).
      rewrite Nat.add_0_r in H. congruence.
    + destruct (first_pass passes (S c) n) eqn:F; simpl.
      * split; [discriminate|]. intros H.
        assert (G : first_pass passes (S c) n = None).
        { apply IH. intros k Hk. specialize (H (S k) ltac:(lia)).
          now rewrite Nat.add_succ_r in H. }
        congruence.
      * split; [|reflexivity]. intros _ k Hk.
        destruct k as [|k]; [now rewrite Nat.add_0_r|].
        rewrite Nat.add_succ_r. apply (proj1 (IH (S c)) F). lia.
Qed.

Lemma first_pass_some passes n : forall c k,
  first_pass passes c n = Some k ->
  k < n /\ passes (c + k) = true
  /\ first_pass passes c k = None.
Proof.
  induction n as [|n IH]; intros c k; simpl; [discriminate|].
  destruct (passes c) eqn:E.
  - intros H. inversion H; subst. rewrite Nat.add_0_r. repeat split; auto. lia.
  - destruct (first_pass passes (S c) n) as [k'|] eqn:F; simpl; [|discriminate].
    intros H. inversion H; subst. destruct (IH _ _ F) as [H1 [H2 H3]].
    repeat split; [lia | now rewrite Nat.add_succ_r |].
    simpl. rewrite E, H3. reflexivity.
Qed.

Lemma first_pass_intro passes n : forall c k,
  k < n ->
  (forall k', k' < k -> passes (c + k') = false) ->
  passes (c + k) = true ->
  first_pass passes c n = Some k.
Proof.
  induction n as [|n IH]; intros c k Hk Hf Hp; [lia|]. simpl.
  destruct k as [|k].
  - rewrite Nat.add_0_r in Hp. now rewrite Hp.
  - pose proof (Hf 0 ltac:(lia)) as H0. rewrite Nat.add_0_r in H0. rewrite H0.
    rewrite (IH (S c) k); [reflexivity | lia | |].
    + intros k' Hk'. specialize (Hf (S k') ltac:(lia)).
      now rewrite Nat.add_succ_r in Hf.
    + now rewrite Nat.add_succ_r in Hp.
Qed.

Section ForRange.

Variable St : Type.
Variable body : nat -> St -> M (bool * St).
Variable passes : nat -> bool.
(** The loop variable after a failed attempt, whether that attempt was
    followed by a [sleep], and whether it read the clock. *)
Variable after_fail : nat -> St -> St.
Variable waits : nat -> bool.
Variable reads : nat -> bool.

Hypothesis fail_step : forall i s w,
  passes (calls w) = false ->
  exists w', body i s w = (Val (false, after_fail (calls w) s), w')
             /\ calls w' = S (calls w)
             /\ ticks w' = (if reads (calls w) then S (ticks w) else ticks w)
             /\ sleep_log (trace w') =
                sleep_log (trace w) ++ (if waits (calls w) then [i] else []).

Lemma for_range_fails : forall n i s w,
  first_pass passes (calls w) n = None ->
  exists w', for_range n i body s w = (Val (var_after after_fail (calls w) n s), w')
             /\ calls w' = calls w + n
             /\ ticks w' = ticks w + readings reads (calls w) n
             /\ sleep_log (trace w') = sleep_log (trace w) ++ waits_log waits (calls w) i n.
Proof.
  induction n as [|n IH]; intros i s w H; simpl in *.
  - exists w. rewrite !Nat.add_0_r, app_nil_r. auto.
  - destruct (passes (calls w)) eqn:E; [discriminate|].
    destruct (first_pass passes (S (calls w)) n) eqn:F; [discriminate|].
    destruct (fail_step i s w E) as [w1 [Hb [Hc [Ht Hs]]]].
    rewrite <- Hc in F.
    destruct (IH (S i) (after_fail (calls w) s) w1 F)
      as [w' [Hr [Hc' [Ht' Hs']]]].
    exists w'. unfold bind. rewrite Hb. simpl. rewrite Hr.
    rewrite Hc. repeat split; try lia.
    + rewrite Ht', Ht, Hc. destruct (reads (calls w)); lia.
    + rewrite Hs', Hs, Hc, <- app_assoc. reflexivity.
Qed.

Lemma for_range_passes : forall n k i s w,
  first_pass passes (calls w) n = Some k ->
  exists w1, calls w1 = calls w + k
             /\ ticks w1 = ticks w + readings reads (calls w) k
             /\ sleep_log (trace w1) = sleep_log (trace w) ++ waits_log waits (calls w) i k
             /\ forall s' w', body (i + k) (var_after after_fail (calls w) k s) w1
                              = (Val (true, s'), w') ->
                              for_range n i body s w = (Val s', w').
Proof.
  induction n as [|n IH]; intros k i s w H; simpl in *; [discriminate|].
  destruct (passes (calls w)) eqn:E.
  - inversion H; subst. exists w. simpl. rewrite !Nat.add_0_r, app_nil_r.
    repeat split; auto. intros s' w' Hb. unfold bind. rewrite Hb. reflexivity.
  - destruct (first_pass passes (S (calls w)) n) as [k'|] eqn:F; [|discriminate].
    simpl in H. inversion H; subst.
    destruct (fail_step i s w E) as [w1 [Hb [Hc [Ht Hs]]]].
    rewrite <- Hc in F.
    destruct (IH k' (S i) (after_fail (calls w) s) w1 F)
      as [w2 [Hc2 [Ht2 [Hs2 Hk]]]].
    exists w2. simpl. repeat split; try lia.
    + rewrite Ht2, Ht, Hc. destruct (reads (calls w)); lia.
    + rewrite Hs2, Hs, Hc, <- app_assoc. reflexivity.
    + intros s' w' Hb'. unfold bind. rewrite Hb. simpl.
      apply Hk. rewrite Hc. rewrite Nat.add_succ_r in Hb'. exact Hb'.
Qed.

End ForRange.

Lemma waits_log_always c i n :
  waits_log (fun _ => true) c i n = seq i n.
Proof.
  revert c i. induction n as [|n IH]; intros c i; simpl; [reflexivity|].
  now rewrite IH.
Qed.

Lemma readings_never c n : readings (fun _ => false) c n = 0.
Proof. revert c. induction n as [|n IH]; intros c; simpl; auto. Qed.

Lemma readings_le reads n : forall c, readings reads c n <= n.
Proof.
  induction n as [|n IH]; intros c; simpl; [lia|].
  specialize (IH (S c)). destruct (reads c); lia.
Qed.

Lemma var_after_same (St : Type) c n (s : St) :
  var_after (fun _ s => s) c n s = s.
Proof. revert c. induction n as [|n IH]; intros c; simpl; auto. Qed.

Lemma var_after_snoc (St : Type) (f : nat -> St -> St) n : forall c s,
  var_after f c (S n) s = f (c + n) (var_after f c n s).
Proof.
  induction n as [|n IH]; intros c s.
  - simpl. now rewrite Nat.add_0_r.
  - change (var_after f c (S (S n)) s) with (var_after f (S c) (S n) (f c s)).
    rewrite IH. simpl. now rewrite Nat.add_succ_r.
Qed.

Section Steps.

Variable env : Env.

Ltac solve_log :=
  rewrite ?sleep_log_app; simpl; rewrite ?app_nil_r; simpl;
  rewrite ?app_nil_r; try reflexivity.

(** Unfolds one attempt down to the oracle's answer. *)
Ltac run_attempt :=
  unfold try_catch, bind, generateContent, first_text, warn, sleep, ret, throw,
    dateNow, writeFileSync, emit; simpl.

Lemma story_fail_step prompt i s w :
  story_passes (remote env (calls w)) = false ->
  exists w', story_attempt env prompt i s w = (Val (false, s), w')
             /\ calls w' = S (calls w)
             /\ ticks w' = ticks w
             /\ sleep_log (trace w') = sleep_log (trace w) ++ [i].
Proof.
  unfold story_passes, story_attempt. run_attempt.
  destruct (remote env (calls w)) as [msg|r]; simpl; intros H.
  - eexists; repeat split; simpl. solve_log.
  - destruct (has_candidates r); simpl in *.
    + destruct (first_parts r); [|discriminate]. simpl.
      eexists; repeat split; simpl. solve_log.
    + eexists; repeat split; simpl. solve_log.
Qed.

Lemma story_pass_step prompt i s w :
  story_passes (remote env (calls w)) = true ->
  exists t w', story_attempt env prompt i s w = (Val (true, t), w')
               /\ calls w' = S (calls w)
               /\ sleep_log (trace w') = sleep_log (trace w).
Proof.
  unfold story_passes, story_attempt. run_attempt.
  destruct (remote env (calls w)) as [msg|r]; simpl; [discriminate|]. intros H.
  destruct (has_candidates r); simpl in *; [|discriminate].
  destruct (first_parts r); [discriminate|]. simpl.
  do 2 eexists; repeat split; simpl. solve_log.
Qed.

(** A failed attempt of the illustration stage: the call raised, the answer
    has no candidate or no image data, or the file could not be written. *)
Lemma image_fail_step j p i s w :
  image_stored env (calls w) = false ->
  exists w', image_attempt env j p i s w = (Val (false, s), w')
             /\ calls w' = S (calls w)
             /\ ticks w' = (if image_found (remote env (calls w)) then S (ticks w) else ticks w)
             /\ sleep_log (trace w') = sleep_log (trace w) ++ [i].
Proof.
  unfold image_stored, image_found, write_ok, image_attempt. run_attempt.
  destruct (remote env (calls w)) as [msg|r]; simpl; intros H.
  - eexists; repeat split; simpl. solve_log.
  - destruct (has_candidates r); simpl in *.
    + destruct (truthy (image_data (first_parts r))); simpl in *.
      * destruct (disk env (calls w)); [|discriminate]. simpl.
        eexists; repeat split; simpl. solve_log.
      * eexists; repeat split; simpl. solve_log.
    + eexists; repeat split; simpl. solve_log.
Qed.

Lemma image_pass_step j p i s w :
  image_stored env (calls w) = true ->
  exists w', image_attempt env j p i s w
             = (Val (true, s ++ [lit "/images/" ++ image_fileName (clock env (ticks w)) j]), w')
             /\ calls w' = S (calls w)
             /\ ticks w' = S (ticks w)
             /\ sleep_log (trace w') = sleep_log (trace w).
Proof.
  unfold image_stored, image_found, write_ok, image_attempt. run_attempt.
  destruct (remote env (calls w)) as [msg|r]; simpl; [discriminate|]. intros H.
  destruct (has_candidates r); simpl in *; [|discriminate].
  destruct (truthy (image_data (first_parts r))); simpl in *; [|discriminate].
  destruct (disk env (calls w)); [discriminate|]. simpl.
  eexists; repeat split; simpl. solve_log.
Qed.

Lemma audio_fail_step cuento i s w :
  audio_passes (remote env (calls w)) = false ->
  exists w', audio_attempt env cuento i s w
             = (Val (false, audio_after (remote env (calls w)) s), w')
             /\ calls w' = S (calls w)
             /\ ticks w' = ticks w
             /\ sleep_log (trace w') = sleep_log (trace w) ++ [i].
Proof.
  unfold audio_passes, audio_attempt. run_attempt.
  destruct (remote env (calls w)) as [msg|r]; simpl; intros H.
  - eexists; repeat split; simpl. solve_log.
  - rewrite H. simpl.
    eexists; repeat split; simpl. solve_log.
Qed.

Lemma audio_pass_step cuento i s w r :
  remote env (calls w) = Returned r -> has_candidates r = true ->
  audio_attempt env cuento i s w
  = (Val (true, r),
     {| calls := S (calls w); draws := draws w; ticks := ticks w;
        trace := trace w ++ [EvCall Gemini25FlashTts (ReqSpeech cuento)] |}).
Proof.
  intros Hr Hc. unfold audio_attempt. run_attempt. rewrite Hr. simpl.
  rewrite Hc. reflexivity.
Qed.

Lemma extract_prompts_spec t numPrompts i w :
  exists w', extract_prompts (Some t) numPrompts i w
             = (Val (match parse (cleanedText t) with
                     | Some (JArray (x :: l)) => Some (slice0 (x :: l) numPrompts)
                     | _ => None
                     end), w')
             /\ calls w' = calls w /\ ticks w' = ticks w /\ draws w' = draws w
             /\ sleep_log (trace w') = sleep_log (trace w).
Proof.
  unfold extract_prompts. run_attempt.
  destruct (parse (cleanedText t)) as [v|]; simpl.
  - destruct v as [| | | |[|x l]|]; simpl; eexists; repeat split.
  - eexists; repeat split; simpl. solve_log.
Qed.

Lemma prompts_fail_step story numPrompts i s w :
  prompts_passes (remote env (calls w)) = false ->
  exists w', prompts_attempt env story numPrompts i s w = (Val (false, s), w')
             /\ calls w' = S (calls w)
             /\ ticks w' = ticks w
             /\ sleep_log (trace w') =
                sleep_log (trace w)
                ++ (if negb (reached_parsing (remote env (calls w))) then [i] else []).
Proof.
  unfold prompts_passes, prompts_of_attempt, reached_parsing, prompts_attempt.
  unfold try_catch at 1. unfold bind at 1. unfold generateContent.
  destruct (remote env (calls w)) as [msg|r]; simpl; intros H.
  - run_attempt. eexists; repeat split; simpl. solve_log.
  - destruct (has_candidates r); simpl in *.
    + unfold first_text. destruct (first_parts r) as [|[[t|] d] ps]; simpl.
      * run_attempt. eexists; repeat split; simpl. solve_log.
      * unfold bind at 1. unfold ret at 1. unfold bind at 1.
        match goal with
        | |- context [extract_prompts (Some t) numPrompts i ?w0] =>
            destruct (extract_prompts_spec t numPrompts i w0) as [w1 [E [C [T [D L]]]]]
        end.
        rewrite E. simpl in *.
        destruct (parse (cleanedText t)) as [[| | | |[|x l]|]|]; try discriminate;
          unfold ret; simpl; eexists; repeat split; auto;
          rewrite L; solve_log.
      * unfold extract_prompts. run_attempt.
        eexists; repeat split; simpl. solve_log.
    + run_attempt. eexists; repeat split; simpl. solve_log.
Qed.

Lemma prompts_pass_step story numPrompts i s w l :
  prompts_of_attempt (remote env (calls w)) = Some l ->
  exists w', prompts_attempt env story numPrompts i s w
             = (Val (true, Some (slice0 l numPrompts)), w')
             /\ calls w' = S (calls w)
             /\ sleep_log (trace w') = sleep_log (trace w).
Proof.
  unfold prompts_of_attempt, prompts_attempt.
  unfold try_catch at 1. unfold bind at 1. unfold generateContent.
  destruct (remote env (calls w)) as [msg|r]; simpl; [discriminate|]. intros H.
  destruct (has_candidates r); simpl in *; [|discriminate].
  unfold first_text. destruct (first_parts r) as [|[[t|] d] ps]; simpl; try discriminate.
  unfold bind at 1. unfold ret at 1. unfold bind at 1.
  match goal with
  | |- context [extract_prompts (Some t) numPrompts i ?w0] =>
      destruct (extract_prompts_spec t numPrompts i w0) as [w1 [E [C [T [D L]]]]]
  end.
  rewrite E. simpl in *.
  destruct (parse (cleanedText t)) as [[| | | |[|x l']|]|]; try discriminate.
  inversion H; subst. unfold ret. simpl. eexists; repeat split; auto.
  rewrite L; solve_log.
Qed.

End Steps.

(* ===================================================================== *)
(** ** The retry loops *)
(* ===================================================================== *)

(** After failed attempts only, the narration loop holds the response last
    received, and that response has no candidates. *)
Lemma audio_var_after env n : forall c,
  first_pass (fun k => audio_passes (remote env k)) c n = None ->
  var_after (fun k => audio_after (remote env k)) c n None = last_received env c n
  /\ has_candidates (last_received env c n) = false.
Proof.
  induction n as [|n IH]; intros c H; [split; reflexivity|].
  rewrite first_pass_none in H.
  assert (F : first_pass (fun k => audio_passes (remote env k)) c n = None)
    by (apply first_pass_none; intros k Hk; apply H; lia).
  destruct (IH c F) as [E Hc].
  rewrite var_after_snoc, E. cbn [last_received].
  specialize (H n ltac:(lia)). unfold audio_passes in H.
  destruct (remote env (c + n)) as [msg|r]; simpl; auto.
Qed.

(** The response last received is undefined when every call raised, and is
    the response of the latest call that returned otherwise. *)
Lemma last_received_all_raised env c n :
  (forall k, k < n -> exists msg, remote env (c + k) = Raised msg) ->
  last_received env c n = None.
Proof.
  induction n as [|n IH]; intros H; [reflexivity|].
  cbn [last_received]. destruct (H n ltac:(lia)) as [msg E]. rewrite E.
  apply IH. intros k Hk. apply H. lia.
Qed.

Lemma last_received_latest env c n k r :
  k < n ->
  remote env (c + k) = Returned r ->
  (forall k', k < k' < n -> exists msg, remote env (c + k') = Raised msg) ->
  last_received env c n = r.
Proof.
  induction n as [|n IH]; intros Hk E H; [lia|].
  cbn [last_received]. destruct (Nat.eq_dec k n) as [->|Hne].
  - now rewrite E.
  - destruct (H n ltac:(lia)) as [msg En]. rewrite En.
    apply IH; [lia | exact E |]. intros k' Hk'. apply H. lia.
Qed.

(** A call that raises, and an answer without candidates, fail in every
    stage. *)
Lemma raised_or_rejected_fails env st k :
  (exists msg, remote env k = Raised msg)
  \/ (exists r, remote env k = Returned r /\ has_candidates r = false) ->
  attempt_passes env st k = false.
Proof.
  intros [[msg E]|[r [E H]]]; destruct st; simpl;
    unfold image_stored, prompts_passes, prompts_of_attempt; rewrite E; simpl;
    try reflexivity; rewrite H; reflexivity.
Qed.

(** Every retry loop, when each of its five attempts fails, makes exactly
    five remote calls, sleeps as [waits_log] tells and leaves its variable
    [exhausted]. *)
Lemma retry_loop_all_fail env st w :
  first_pass (attempt_passes env st) (calls w) 5 = None ->
  exists v w', retry_loop env st w = (Val v, w')
               /\ exhausted env (calls w) st v
               /\ calls w' = calls w + 5
               /\ ticks w' = ticks w + readings (stage_reads env st) (calls w) 5
               /\ sleep_log (trace w') =
                  sleep_log (trace w) ++ waits_log (stage_waits env st) (calls w) 0 5.
Proof.
  intros H. destruct st as [prompt|story n|j p urls|cuento]; simpl in *.
  - destruct (for_range_fails _ (story_attempt env prompt)
                (fun k => story_passes (remote env k))
                (fun _ s => s) (fun _ => true) (fun _ => false)
                (story_fail_step env prompt) 5 0 None w H) as [w' [Hr [Hc [Ht Hs]]]].
    exists None, w'. unfold story_loop, maxAttempts. rewrite Hr.
    rewrite var_after_same. auto.
  - destruct (for_range_fails _ (prompts_attempt env story n)
                (fun k => prompts_passes (remote env k))
                (fun _ s => s) (fun k => negb (reached_parsing (remote env k)))
                (fun _ => false)
                (prompts_fail_step env story n) 5 0 None w H) as [w' [Hr [Hc [Ht Hs]]]].
    exists None, w'. unfold prompts_loop, maxAttempts. rewrite Hr.
    rewrite var_after_same. auto.
  - destruct (for_range_fails _ (image_attempt env j p) (image_stored env)
                (fun _ s => s) (fun _ => true) (fun k => image_found (remote env k))
                (image_fail_step env j p) 5 0 urls w H) as [w' [Hr [Hc [Ht Hs]]]].
    exists urls, w'. unfold image_loop, maxAttempts. rewrite Hr.
    rewrite var_after_same. auto.
  - destruct (for_range_fails _ (audio_attempt env cuento)
                (fun k => audio_passes (remote env k))
                (fun k => audio_after (remote env k)) (fun _ => true) (fun _ => false)
                (audio_fail_step env cuento) 5 0 None w H) as [w' [Hr [Hc [Ht Hs]]]].
    destruct (audio_var_after env 5 (calls w) H) as [E Hn].
    exists (last_received env (calls w) 5), w'.
    unfold audio_loop, maxAttempts. rewrite Hr, E.
    repeat split; auto.
Qed.

(** C1, as amended.  For every generation stage's retry loop, if every one
    of the five attempts fails the test the loop makes (the call raises; or
    the response has no candidate; or, in the story and scene-prompt stages,
    the candidate has no first part; or, in the scene-prompt stage, the text
    gives no non-empty JSON array; or, in the illustration stage, no part
    carries image data or the file cannot be written), the loop makes
    exactly 5 remote calls and then leaves the terminal outcome: no story,
    no returned prompt list, the image list unchanged, and in the narration
    stage a [response] that is undefined when every call raised and is the
    last response received otherwise, which has no candidates. *)
Theorem retry_loop_exhausts env st w :
  (forall k, k < 5 -> attempt_passes env st (calls w + k) = false) ->
  exists v w', retry_loop env st w = (Val v, w')
               /\ exhausted env (calls w) st v
               /\ calls w' = calls w + 5.
Proof.
  intros H. apply first_pass_none in H.
  destruct (retry_loop_all_fail env st w H) as [v [w' [Hr [Hv [Hc _]]]]].
  exists v, w'. auto.
Qed.

Lemma retry_loop_exhausts_witness :
  (exists v w', retry_loop env_down (StoryStage (lit "Crea un cuento")) world0 = (Val v, w')
                /\ v = None
                /\ calls w' = 5)
  /\ (exists v w', retry_loop env_silent_then_down (AudioStage (lit "Habia una vez.")) world0
                   = (Val v, w')
                   /\ (v = Some {| candidates := Some [] |} /\ has_candidates v = false)
                   /\ calls w' = 5).
Proof.
  split.
  - apply (retry_loop_exhausts env_down (StoryStage (lit "Crea un cuento")) world0).
    intros k _. reflexivity.
  - apply (retry_loop_exhausts env_silent_then_down (AudioStage (lit "Habia una vez.")) world0).
    intros k Hk. do 5 (destruct k as [|k]; [reflexivity|]). lia.
Defined.

(** C1 as stated fails.  In the narration stage, against a service whose
    five answers come without candidates, every attempt fails and five calls
    are made, but the loop ends with [response] holding the last answer, not
    with a null or undefined result.  In the story stage, an answer whose
    candidate has an empty text carries no text content, yet the loop stops
    at it after one call. *)
Lemma narration_exhausted_keeps_response :
  let st := AudioStage (lit "Habia una vez un pirata.") in
  let run := retry_loop env_no_candidates st world0 in
  let story := retry_loop env_blank (StoryStage (lit "Crea un cuento")) world0 in
  (forall k, k < 5 -> attempt_passes env_no_candidates st (calls world0 + k) = false)
  /\ calls (snd run) = 5
  /\ fst run = Val (Some {| candidates := Some [] |})
  /\ fst run <> Val (initial_var st)
  /\ (forall k, truthy (story_text (remote env_blank k)) = false)
  /\ fst story = Val (Some [])
  /\ calls (snd story) = 1.
Proof.
  split; [intros k _; reflexivity|].
  split; [vm_compute; reflexivity|].
  split; [vm_compute; reflexivity|].
  split; [vm_compute; discriminate|].
  split; [intros k; reflexivity|].
  split; vm_compute; reflexivity.
Qed.

(** In a loop whose failures all sleep, five failed attempts sleep after the
    attempts 0 to 4, the last one included. *)
Lemma retry_loop_waits env st w :
  (forall k, k < 5 -> attempt_passes env st (calls w + k) = false) ->
  (forall k, k < 5 -> match st with
                      | PromptStage _ _ => reached_parsing (remote env (calls w + k)) = false
                      | _ => True
                      end) ->
  exists v w', retry_loop env st w = (Val v, w')
               /\ sleep_log (trace w') = sleep_log (trace w) ++ [0; 1; 2; 3; 4].
Proof.
  intros H Hp. apply first_pass_none in H.
  destruct (retry_loop_all_fail env st w H) as [v [w' [Hr [_ [_ [_ Hs]]]]]].
  exists v, w'. split; [exact Hr|]. rewrite Hs. f_equal.
  destruct st; try apply waits_log_always.
  pose proof (Hp 0 ltac:(lia)) as H0. pose proof (Hp 1 ltac:(lia)) as H1.
  pose proof (Hp 2 ltac:(lia)) as H2. pose proof (Hp 3 ltac:(lia)) as H3.
  pose proof (Hp 4 ltac:(lia)) as H4.
  rewrite Nat.add_0_r in H0.
  replace (calls w + 1) with (S (calls w)) in H1 by lia.
  replace (calls w + 2) with (S (S (calls w))) in H2 by lia.
  replace (calls w + 3) with (S (S (S (calls w)))) in H3 by lia.
  replace (calls w + 4) with (S (S (S (S (calls w))))) in H4 by lia.
  cbn [waits_log stage_waits]. rewrite H0, H1, H2, H3, H4. reflexivity.
Qed.

(** C2, on the code.  The scene-prompt stage against a service that answers
    in prose five times: each attempt logs the parsing warning and the next
    call follows at once, no [sleep] in between.  Against a service that
    answers with an empty array, the attempts follow each other with neither
    warning nor [sleep]. *)
Theorem parse_failure_retries_without_wait :
  let story := lit "Habia una vez un pirata." in
  let call := EvCall Gemini15Flash (ReqText (promptText story 3)) in
  trace (snd (prompts_loop env_prose story 3 world0))
  = [call; EvWarn (WParseJSON 1); call; EvWarn (WParseJSON 2); call; EvWarn (WParseJSON 3);
     call; EvWarn (WParseJSON 4); call; EvWarn (WParseJSON 5)]
  /\ trace (snd (prompts_loop env_empty_array story 3 world0))
     = [call; call; call; call; call].
Proof. split; vm_compute; reflexivity. Qed.

(** C10, on the code.  The scene-prompt stage against a service that answers
    in prose: the five attempts all fail, five remote calls are made, and the
    loop never sleeps before the stage falls back. *)
Theorem exhausted_prompt_loop_never_waits :
  let story := lit "Habia una vez un pirata." in
  let run := generarPromptsSecuenciales env_prose story 3 world0 in
  (forall k, k < 5 -> prompts_passes (remote env_prose k) = false)
  /\ fst run = Val (fallback_prompts story)
  /\ calls (snd run) = 5
  /\ sleep_log (trace (snd run)) = [].
Proof.
  repeat split; try (vm_compute; reflexivity).
Qed.

(** C3, on the code.  With one prompt requested and the service down, the
    stage returns the three prompts of the fallback. *)
Theorem fallback_ignores_requested_count :
  let story := lit "Habia una vez un pirata." in
  let run := generarPromptsSecuenciales env_down story 1 world0 in
  fst run = Val (fallback_prompts story)
  /\ length (fallback_prompts story) = 3
  /\ calls (snd run) = 5.
Proof. repeat split; vm_compute; reflexivity. Qed.

(** The prompts taken from a parsed answer are at most as many as requested. *)
Lemma parsed_prompts_bounded env story numPrompts i s w l w' :
  (1 <= numPrompts)%Z ->
  prompts_attempt env story numPrompts i s w = (Val (true, Some l), w') ->
  (Z.of_nat (length l) <= numPrompts)%Z.
Proof.
  intros Hn H.
  destruct (prompts_of_attempt (remote env (calls w))) as [l0|] eqn:E.
  - destruct (prompts_pass_step env story numPrompts i s w l0 E) as [w1 [H1 _]].
    rewrite H1 in H. inversion H; subst.
    pose proof (slice0_length l0 numPrompts ltac:(lia)). lia.
  - assert (P : prompts_passes (remote env (calls w)) = false)
      by (unfold prompts_passes; now rewrite E).
    destruct (prompts_fail_step env story numPrompts i s w P) as [w1 [H1 _]].
    rewrite H1 in H. discriminate.
Qed.

(* ===================================================================== *)
(** ** The backoff *)
(* ===================================================================== *)

Lemma number_eqb_eq a b : number_eqb a b = true -> a = b.
Proof.
  destruct a as [[n d]|], b as [[n' d']|]; simpl; try discriminate; auto.
  intros H. apply andb_true_iff in H. destruct H as [H1 H2].
  apply Z.eqb_eq in H1. apply Pos.eqb_eq in H2. now subst.
Qed.

Lemma is_draw_b_true r : is_draw_b r = true -> is_draw r.
Proof.
  unfold is_draw_b, is_draw. intros H.
  apply andb_true_iff in H. destruct H as [H H3].
  apply andb_true_iff in H. destruct H as [H1 H2].
  apply Qle_bool_iff in H1. apply negb_true_iff, Qle_bool_false in H2.
  apply number_eqb_eq in H3. auto.
Qed.

(** Every whole number of milliseconds from 0 to 999 is the jitter of some
    draw. *)
Lemma jitter_attains (j : Z) :
  (0 <= j < 1000)%Z ->
  exists r, is_draw r /\ floor64 (mul64 (Finite r) (Finite 1000)) = Finite (inject_Z j).
Proof.
  intros Hj.
  assert (A : forallb draw_for_ok (seq 0 1000) = true) by (vm_compute; reflexivity).
  rewrite forallb_forall in A.
  specialize (A (Z.to_nat j)). rewrite in_seq in A.
  specialize (A ltac:(lia)). unfold draw_for_ok in A.
  rewrite Z2Nat.id in A by lia.
  apply andb_true_iff in A. destruct A as [A1 A2].
  exists (draw_for j). split; [now apply is_draw_b_true | now apply number_eqb_eq].
Qed.

(** C4.  For every attempt index [a] in [0, 5) and every draw [r] of
    [Math.random()], a binary64 number in [0, 1), [sleep] waits [2^a]
    seconds plus a jitter: a whole number of milliseconds from 0 to 999,
    which is the floor of [1000 r] or, when the binary64 product is rounded
    up to the next integer, one more; so the wait lies in [2^a, 2^a + 1)
    seconds.  Every jitter from 0 to 999 is given by some draw. *)
Theorem sleep_wait_bounds env a w :
  a < 5 ->
  is_draw (random env (draws w)) ->
  let r := random env (draws w) in
  let base := (2 ^ Z.of_nat a * 1000)%Z in
  exists jitter : Z,
    floor64 (mul64 (Finite r) (Finite 1000)) = Finite (inject_Z jitter)
    /\ (0 <= jitter < 1000)%Z
    /\ (Qfloor (r * 1000) <= jitter <= Qfloor (r * 1000) + 1)%Z
    /\ delay_ms a r = Finite (inject_Z (base + jitter))
    /\ fst (sleep env a w) = Val tt
    /\ trace (snd (sleep env a w)) = trace w ++ [EvSleep a (base + jitter)]
    /\ (inject_Z (2 ^ Z.of_nat a) <= inject_Z (base + jitter) / 1000)%Q
    /\ (inject_Z (base + jitter) / 1000 < inject_Z (2 ^ Z.of_nat a) + 1)%Q
    /\ (forall j, (0 <= j < 1000)%Z ->
                  exists r', is_draw r'
                             /\ floor64 (mul64 (Finite r') (Finite 1000)) = Finite (inject_Z j)).
Proof.
  intros Ha D r base.
  destruct (delay_spec a r ltac:(lia) D) as [j [Hj [Hr [Hf [Hd Ht]]]]].
  assert (P : (0 < 1000)%Q) by reflexivity.
  exists j. split; [exact Hj|]. split; [lia|]. split; [exact Hf|]. split; [exact Hd|].
  split; [reflexivity|].
  split; [unfold sleep; cbn [snd trace]; fold r; rewrite Ht; reflexivity|].
  split; [|split; [|exact jitter_attains]].
  - apply Qle_shift_div_l; [exact P|].
    change 1000%Q with (inject_Z 1000). rewrite <- inject_Z_mult, <- Zle_Qle.
    unfold base. lia.
  - apply Qlt_shift_div_r; [exact P|].
    change 1%Q with (inject_Z 1). change 1000%Q with (inject_Z 1000).
    rewrite <- inject_Z_plus, <- inject_Z_mult, <- Zlt_Qlt.
    unfold base. lia.
Qed.

Lemma sleep_wait_bounds_witness :
  trace (snd (sleep env_down 3 world0)) = [EvSleep 3 8500]
  /\ (inject_Z 8 <= inject_Z 8500 / 1000)%Q
  /\ (inject_Z 8500 / 1000 < inject_Z 8 + 1)%Q.
Proof.
  assert (H3 : 3 < 5) by lia.
  assert (D : is_draw (random env_down (draws world0)))
    by (apply is_draw_b_true; vm_compute; reflexivity).
  destruct (sleep_wait_bounds env_down 3 world0 H3 D) as [j [Hj [_ [_ [_ [_ [Ht [Hl [Hu _]]]]]]]]].
  assert (E : j = 500%Z).
  { assert (F : Finite (inject_Z 500) = Finite (inject_Z j)) by (rewrite <- Hj; vm_compute; reflexivity).
    injection F as F. symmetry. exact F. }
  subst j. split; [exact Ht|]. split; [exact Hl | exact Hu].
Defined.

(* ===================================================================== *)
(** ** The scene-prompt stage *)
(* ===================================================================== *)

(** C5.  If none of the five attempts of the scene-prompt stage gives a
    non-empty JSON array, the stage returns three prompts: the first, second
    and third window of 50 characters of the story (its characters 0 to 50,
    50 to 100 and 100 to 150), each inside its fixed sentence. *)
Theorem fallback_on_exhaustion env story numPrompts w :
  (forall k, k < 5 -> prompts_of_attempt (remote env (calls w + k)) = None) ->
  exists w',
    generarPromptsSecuenciales env story numPrompts w
    = (Val [ JString (lit "Render 3D de alta calidad, que muestre la escena principal del cuento: "
                      ++ firstn 50 story ++ lit "...");
             JString (lit "Render 3D de alta calidad, que muestre una escena de acci" ++ [243%N]
                      ++ lit "n del cuento: " ++ firstn 50 (skipn 50 story) ++ lit "...");
             JString (lit "Render 3D de alta calidad, que muestre el final feliz del cuento: "
                      ++ firstn 50 (skipn 100 story) ++ lit "...") ], w')
    /\ calls w' = calls w + 5.
Proof.
  intros H.
  assert (F : first_pass (attempt_passes env (PromptStage story numPrompts)) (calls w) 5 = None).
  { apply first_pass_none. intros k Hk. simpl. unfold prompts_passes. now rewrite H. }
  destruct (retry_loop_all_fail env (PromptStage story numPrompts) w F)
    as [v [w1 [Hr [Hv [Hc _]]]]].
  simpl in Hr, Hv. subst v.
  unfold generarPromptsSecuenciales, bind. rewrite Hr.
  unfold warn, ret. cbn beta iota.
  exists (emit (EvWarn WPromptGenerico) w1). split; [|exact Hc].
  unfold fallback_prompts.
  change (substring story 0 50) with (substring story (Z.of_nat 0) (Z.of_nat 50)).
  change (substring story 50 100) with (substring story (Z.of_nat 50) (Z.of_nat 100)).
  change (substring story 100 150) with (substring story (Z.of_nat 100) (Z.of_nat 150)).
  rewrite (substring_window story 0 50), (substring_window story 50 100),
    (substring_window story 100 150) by lia.
  reflexivity.
Qed.

Lemma fallback_on_exhaustion_witness :
  exists w',
    generarPromptsSecuenciales env_prose (lit "Habia una vez un pirata.") 3 world0
    = (Val [ JString (lit "Render 3D de alta calidad, que muestre la escena principal del cuento: "
                      ++ lit "Habia una vez un pirata." ++ lit "...");
             JString (lit "Render 3D de alta calidad, que muestre una escena de acci" ++ [243%N]
                      ++ lit "n del cuento: " ++ lit "...");
             JString (lit "Render 3D de alta calidad, que muestre el final feliz del cuento: "
                      ++ lit "...") ], w')
    /\ calls w' = 5.
Proof.
  apply (fallback_on_exhaustion env_prose (lit "Habia una vez un pirata.") 3 world0).
  intros k _. vm_compute. reflexivity.
Defined.

(** C6.  When an attempt of the scene-prompt stage (the earlier ones having
    failed) returns the array a, b, c between code fences, the text from the
    first opening bracket, without the fences and trimmed, is the bare
    array; it parses to the three strings, and the stage returns them cut to
    the requested count. *)
Theorem fenced_array_is_extracted env story numPrompts w k r p ps :
  k < 5 ->
  (forall k', k' < k -> prompts_of_attempt (remote env (calls w + k')) = None) ->
  remote env (calls w + k) = Returned r ->
  has_candidates r = true ->
  first_parts r = p :: ps ->
  text p = Some fenced_abc ->
  (1 <= numPrompts)%Z ->
  cleanedText fenced_abc = litq "['a','b','c']"
  /\ parse (litq "['a','b','c']") = Some (JArray abc)
  /\ exists w', generarPromptsSecuenciales env story numPrompts w
                = (Val (firstn (Z.to_nat numPrompts) abc), w').
Proof.
  intros Hk Hf Hr Hc Hp Ht Hn.
  split; [vm_compute; reflexivity|]. split; [vm_compute; reflexivity|].
  assert (E : prompts_of_attempt (remote env (calls w + k)) = Some abc).
  { rewrite Hr. unfold prompts_of_attempt. rewrite Hc, Hp.
    destruct p as [tx d]. simpl in Ht. subst tx. vm_compute. reflexivity. }
  assert (F : first_pass (fun i => prompts_passes (remote env i)) (calls w) 5 = Some k).
  { apply first_pass_intro; [exact Hk | | unfold prompts_passes; now rewrite E].
    intros k' Hk'. unfold prompts_passes. now rewrite Hf. }
  destruct (for_range_passes _ (prompts_attempt env story numPrompts)
              (fun i => prompts_passes (remote env i))
              (fun _ s => s) (fun i => negb (reached_parsing (remote env i)))
              (fun _ => false)
              (prompts_fail_step env story numPrompts) 5 k 0 None w F)
    as [w1 [Hc1 [_ [_ Hrun]]]].
  rewrite <- Hc1 in E.
  destruct (prompts_pass_step env story numPrompts (0 + k)
              (var_after (fun _ s => s) (calls w) k None) w1 abc E) as [w' [Hb _]].
  exists w'. unfold generarPromptsSecuenciales, bind, prompts_loop, maxAttempts.
  rewrite (Hrun _ _ Hb). unfold ret. rewrite slice0_firstn by lia. reflexivity.
Qed.

Lemma fenced_array_is_extracted_witness :
  exists w', generarPromptsSecuenciales env_fenced (lit "Habia una vez un pirata.") 2 world0
             = (Val [JString (lit "a"); JString (lit "b")], w').
Proof.
  refine (proj2 (proj2 (fenced_array_is_extracted env_fenced (lit "Habia una vez un pirata.")
                          2 world0 0 _ _ _ _ _ _ _ _ _ _))).
  - lia.
  - intros k' Hk'. lia.
  - reflexivity.
  - reflexivity.
  - reflexivity.
  - reflexivity.
  - lia.
Defined.

(* ===================================================================== *)
(** ** The illustration stage *)
(* ===================================================================== *)

(** One prompt: its URL is appended when one of its attempts stores an
    image, and nothing is appended when the five fail. *)
Lemma image_loop_spec env j p urls w :
  let found := fun i => image_found (remote env i) in
  exists w',
    image_loop env j p urls w
    = (Val (match first_pass (image_stored env) (calls w) 5 with
            | Some k =>
                urls ++ [lit "/images/"
                         ++ image_fileName (clock env (ticks w + readings found (calls w) k)) j]
            | None => urls
            end), w')
    /\ calls w' = calls w + match first_pass (image_stored env) (calls w) 5 with
                            | Some k => S k
                            | None => 5
                            end
    /\ ticks w' = match first_pass (image_stored env) (calls w) 5 with
                  | Some k => S (ticks w + readings found (calls w) k)
                  | None => ticks w + readings found (calls w) 5
                  end.
Proof.
  intros found. unfold image_loop, maxAttempts.
  destruct (first_pass (image_stored env) (calls w) 5) as [k|] eqn:F.
  - destruct (for_range_passes _ (image_attempt env j p) (image_stored env)
                (fun _ s => s) (fun _ => true) found
                (image_fail_step env j p) 5 k 0 urls w F) as [w1 [Hc [Ht [_ Hrun]]]].
    apply first_pass_some in F. destruct F as [_ [Hp _]].
    rewrite <- Hc in Hp.
    destruct (image_pass_step env j p (0 + k)
                (var_after (fun _ s => s) (calls w) k urls) w1 Hp)
      as [w' [Hb [Hc' [Ht' _]]]].
    exists w'. rewrite (Hrun _ _ Hb). rewrite var_after_same, Ht.
    repeat split; lia.
  - destruct (for_range_fails _ (image_attempt env j p) (image_stored env)
                (fun _ s => s) (fun _ => true) found
                (image_fail_step env j p) 5 0 urls w F) as [w' [Hr [Hc [Ht _]]]].
    exists w'. rewrite Hr, var_after_same. repeat split; lia.
Qed.

Lemma illustrate_from_spec env prompts : forall j urls w,
  exists w',
    illustrate_from env j prompts urls w
    = (Val (urls ++ urls_of env (kept_from j (verdicts env (calls w) (ticks w) prompts))), w').
Proof.
  induction prompts as [|p rest IH]; intros j urls w;
    cbn [illustrate_from verdicts].
  - exists w. cbn [kept_from urls_of map]. now rewrite app_nil_r.
  - destruct (image_loop_spec env j p urls w) as [w1 [Hl [Hc Ht]]].
    unfold bind. rewrite Hl. unfold maxAttempts.
    destruct (first_pass (image_stored env) (calls w) 5) as [k|];
      cbn [kept_from urls_of map fst snd].
    + match goal with
      | |- context [illustrate_from env (S j) rest ?u w1] =>
          destruct (IH (S j) u w1) as [w' Hr]
      end.
      exists w'. rewrite Hr, Hc, Ht, <- app_assoc. reflexivity.
    + destruct (IH (S j) urls w1) as [w' Hr].
      exists w'. rewrite Hr, Hc, Ht. reflexivity.
Qed.

Lemma verdicts_length env prompts : forall c t,
  length (verdicts env c t prompts) = length prompts.
Proof.
  induction prompts as [|p rest IH]; intros c t; cbn [verdicts]; [reflexivity|].
  unfold maxAttempts.
  destruct (first_pass (image_stored env) c 5); cbn [length]; now rewrite IH.
Qed.

Lemma kept_from_bounds vs : forall j i, In i (map fst (kept_from j vs)) -> j <= i.
Proof.
  induction vs as [|[t|] vs IH]; intros j i; simpl; [tauto| |].
  - intros [->|H]; [lia|]. apply IH in H. lia.
  - intros H. apply IH in H. lia.
Qed.

(** The kept positions come in increasing order. *)
Lemma kept_from_sorted vs : forall j, StronglySorted lt (map fst (kept_from j vs)).
Proof.
  induction vs as [|[t|] vs IH]; intros j; simpl.
  - constructor.
  - constructor; [apply IH|].
    apply Forall_forall. intros i Hi. apply kept_from_bounds in Hi. lia.
  - apply IH.
Qed.

(** A position is kept exactly when it has a verdict. *)
Lemma kept_from_In vs : forall j i,
  In i (map fst (kept_from j vs)) <-> j <= i /\ nth (i - j) vs None <> None.
Proof.
  induction vs as [|[t|] vs IH]; intros j i; simpl.
  - split; [tauto|]. intros [_ H]. destruct (i - j); congruence.
  - rewrite IH. split.
    + intros [->|[H1 H2]].
      * rewrite Nat.sub_diag. split; [lia|discriminate].
      * split; [lia|]. replace (i - j) with (S (i - S j)) by lia. exact H2.
    + intros [H1 H2]. destruct (Nat.eq_dec j i) as [->|Hne]; [now left|].
      right. split; [lia|]. replace (i - j) with (S (i - S j)) in H2 by lia. exact H2.
  - rewrite IH. split.
    + intros [H1 H2]. split; [lia|]. replace (i - j) with (S (i - S j)) by lia. exact H2.
    + intros [H1 H2]. destruct (Nat.eq_dec j i) as [->|Hne].
      * rewrite Nat.sub_diag in H2. congruence.
      * split; [lia|]. replace (i - j) with (S (i - S j)) in H2 by lia. exact H2.
Qed.

(** C7.  For every list of scene prompts: the image list of the stage holds
    one URL for each prompt of which an attempt stores an image (the answer
    carries image data and the file is written), in the order of the prompts
    and named after the prompt's position; a prompt whose five attempts fail
    adds nothing and the stage goes on with the next prompt; and the stage
    throws (no image generated) exactly when that list is empty, returning
    it otherwise. *)
Theorem illustration_keeps_successes_in_order env prompts w :
  let vs := verdicts env (calls w) (ticks w) prompts in
  let kept := kept_from 0 vs in
  let urls := urls_of env kept in
  length vs = length prompts
  /\ (forall j, In j (map fst kept) <-> nth j vs None <> None)
  /\ StronglySorted lt (map fst kept)
  /\ urls = map (fun jt => lit "/images/" ++ image_fileName (clock env (snd jt)) (fst jt)) kept
  /\ exists w',
       illustrate_from env 0 prompts [] w = (Val urls, w')
       /\ illustrate env prompts w
          = (match urls with [] => Exn NoImagenes | _ :: _ => Val urls end, w')
       /\ ((exists e, fst (illustrate env prompts w) = Exn e) <-> urls = []).
Proof.
  intros vs kept urls.
  split; [apply verdicts_length|].
  split; [intros j; unfold kept; rewrite kept_from_In, Nat.sub_0_r;
          split; [tauto | split; [lia | assumption]]|].
  split; [apply kept_from_sorted|].
  split; [reflexivity|].
  destruct (illustrate_from_spec env prompts 0 [] w) as [w' Hr]. simpl in Hr.
  fold vs in Hr. fold kept in Hr. fold urls in Hr.
  exists w'. split; [exact Hr|].
  assert (Hi : illustrate env prompts w
               = (match urls with [] => Exn NoImagenes | _ :: _ => Val urls end, w')).
  { unfold illustrate, bind. rewrite Hr. destruct urls; reflexivity. }
  split; [exact Hi|]. rewrite Hi. simpl.
  destruct urls; split; auto; try discriminate.
  - intros _. eauto.
  - intros [e He]. discriminate.
Qed.

(** The image service failing for the second of three prompts: the images
    of the first and the third are kept, in that order.  The same when the
    service answers but the five files of the second prompt cannot be
    written (each of those attempts has read the clock).  Nothing is kept
    and the stage throws when the service is down, or no file can be
    written. *)
Example illustrate_scene2_dropped :
  fst (illustrate env_scene2_fails abc world0)
  = Val [lit "/images/cuento_ilustrado_1700000000000_1.png";
         lit "/images/cuento_ilustrado_1700000000001_3.png"]
  /\ fst (illustrate env_scene2_unwritable abc world0)
     = Val [lit "/images/cuento_ilustrado_1700000000000_1.png";
            lit "/images/cuento_ilustrado_1700000000006_3.png"]
  /\ verdicts env_scene2_unwritable 0 0 abc = [Some 0; None; Some 6]
  /\ fst (illustrate env_down abc world0) = Exn NoImagenes
  /\ fst (illustrate env_unwritable abc world0) = Exn NoImagenes
  /\ calls (snd (illustrate env_unwritable abc world0)) = 15
  /\ sleep_log (trace (snd (illustrate env_unwritable [JString (lit "a")] world0)))
     = [0; 1; 2; 3; 4].
Proof. repeat split; vm_compute; reflexivity. Qed.

(* ===================================================================== *)
(** ** The narration stage *)
(* ===================================================================== *)






(* ===================================================================== *)
(** ** The handler of /create-story *)
(* ===================================================================== *)



(* ===================================================================== *)
(** ** More about the retry loops *)
(* ===================================================================== *)

Lemma waits_log_length waits n : forall c i,
  length (waits_log waits c i n) <= n.
Proof.
  induction n as [|n IH]; intros c i; simpl; [lia|].
  rewrite length_app. specialize (IH (S c) (S i)).
  destruct (waits c); simpl; lia.
Qed.

Lemma story_pass_value env prompt i s w :
  story_passes (remote env (calls w)) = true ->
  exists w', story_attempt env prompt i s w
             = (Val (true, story_text (remote env (calls w))), w')
             /\ calls w' = S (calls w)
             /\ ticks w' = ticks w
             /\ sleep_log (trace w') = sleep_log (trace w).
Proof.
  unfold story_passes, story_attempt, story_text.
  unfold try_catch, bind, generateContent, first_text, ret.
  destruct (remote env (calls w)) as [msg|r]; [discriminate|]. intros H.
  destruct (has_candidates r); [|discriminate].
  destruct (first_parts r) as [|p ps]; [discriminate|].
  eexists. split; [reflexivity|]. cbn [calls ticks trace].
  rewrite sleep_log_app. cbn. rewrite app_nil_r. auto.
Qed.

(** A loop whose first passing attempt is the attempt [k]. *)
Lemma retry_loop_first_pass env st w k :
  first_pass (attempt_passes env st) (calls w) 5 = Some k ->
  exists w', retry_loop env st w = (Val (pass_result env st w k), w')
             /\ calls w' = calls w + S k
             /\ sleep_log (trace w') =
                sleep_log (trace w) ++ waits_log (stage_waits env st) (calls w) 0 k.
Proof.
  intros F. pose proof (first_pass_some _ _ _ _ F) as [Hk [Hp _]].
  destruct st as [prompt|story n|j p urls|cuento]; simpl in F, Hp |- *.
  - destruct (for_range_passes _ (story_attempt env prompt)
                (fun i => story_passes (remote env i))
                (fun _ s => s) (fun _ => true) (fun _ => false)
                (story_fail_step env prompt) 5 k 0 None w F) as [w1 [Hc [Ht [Hs Hrun]]]].
    rewrite <- Hc in Hp.
    destruct (story_pass_value env prompt (0 + k)
                (var_after (fun _ s => s) (calls w) k None) w1 Hp)
      as [w' [Hb [Hc' [_ Hs']]]].
    exists w'. unfold story_loop, maxAttempts. rewrite (Hrun _ _ Hb).
    unfold pass_result. rewrite <- Hc. rewrite Hc', Hs', Hs, Hc.
    repeat split; auto; lia.
  - destruct (for_range_passes _ (prompts_attempt env story n)
                (fun i => prompts_passes (remote env i))
                (fun _ s => s) (fun i => negb (reached_parsing (remote env i)))
                (fun _ => false)
                (prompts_fail_step env story n) 5 k 0 None w F) as [w1 [Hc [Ht [Hs Hrun]]]].
    rewrite <- Hc in Hp. unfold prompts_passes in Hp.
    destruct (prompts_of_attempt (remote env (calls w1))) as [l|] eqn:E; [|discriminate].
    destruct (prompts_pass_step env story n (0 + k)
                (var_after (fun _ s => s) (calls w) k None) w1 l E)
      as [w' [Hb [Hc' Hs']]].
    exists w'. unfold prompts_loop, maxAttempts. rewrite (Hrun _ _ Hb).
    unfold pass_result. rewrite <- Hc, E. cbn [option_map]. rewrite Hc', Hs', Hs, Hc.
    repeat split; auto; lia.
  - destruct (for_range_passes _ (image_attempt env j p) (image_stored env)
                (fun _ s => s) (fun _ => true) (fun i => image_found (remote env i))
                (image_fail_step env j p) 5 k 0 urls w F) as [w1 [Hc [Ht [Hs Hrun]]]].
    rewrite <- Hc in Hp.
    destruct (image_pass_step env j p (0 + k)
                (var_after (fun _ s => s) (calls w) k urls) w1 Hp)
      as [w' [Hb [Hc' [_ Hs']]]].
    exists w'. unfold image_loop, maxAttempts. rewrite (Hrun _ _ Hb).
    unfold pass_result, stage_reads. rewrite var_after_same, Ht, Hc', Hs', Hs, Hc.
    repeat split; auto; lia.
  - destruct (for_range_passes _ (audio_attempt env cuento)
                (fun i => audio_passes (remote env i))
                (fun i => audio_after (remote env i)) (fun _ => true) (fun _ => false)
                (audio_fail_step env cuento) 5 k 0 None w F) as [w1 [Hc [Ht [Hs Hrun]]]].
    unfold audio_passes in Hp. unfold pass_result.
    destruct (remote env (calls w + k)) as [msg|r] eqn:E; [discriminate|].
    rewrite <- Hc in E.
    pose proof (audio_pass_step env cuento (0 + k)
                  (var_after (fun i => audio_after (remote env i)) (calls w) k None)
                  w1 r E Hp) as Hb.
    eexists. unfold audio_loop, maxAttempts. rewrite (Hrun _ _ Hb).
    split; [reflexivity|]. cbn [calls trace].
    rewrite sleep_log_app. cbn. rewrite app_nil_r, Hs, Hc.
    split; [lia | reflexivity].
Qed.

(** X1.  In every retry loop, when the attempt [k] is the first that passes
    (in the illustration stage: the first whose answer carries image data
    and whose file is written), the loop stops there: it has made [k + 1]
    remote calls, it is left with the result of that attempt, and it has
    slept only after the failed attempts before it (after each of them,
    outside the scene-prompt stage), not after the success. *)
Theorem retry_loop_stops_at_first_success env st w k :
  k < 5 ->
  (forall k', k' < k -> attempt_passes env st (calls w + k') = false) ->
  attempt_passes env st (calls w + k) = true ->
  exists w', retry_loop env st w = (Val (pass_result env st w k), w')
             /\ calls w' = calls w + S k
             /\ sleep_log (trace w') =
                sleep_log (trace w) ++ waits_log (stage_waits env st) (calls w) 0 k
             /\ match st with
                | PromptStage _ _ => True
                | _ => sleep_log (trace w') = sleep_log (trace w) ++ seq 0 k
                end.
Proof.
  intros Hk Hf Hp.
  pose proof (first_pass_intro (attempt_passes env st) 5 (calls w) k Hk Hf Hp) as F.
  destruct (retry_loop_first_pass env st w k F) as [w' [Hr [Hc Hs]]].
  exists w'. repeat split; auto.
  destruct st; auto; rewrite Hs; simpl; now rewrite waits_log_always.
Qed.

Lemma retry_loop_stops_at_first_success_witness :
  exists w', retry_loop env_scene2_unwritable
               (ImageStage 1 (JString (lit "b")) [lit "/images/uno.png"])
               {| calls := 4; draws := 0; ticks := 1; trace := [] |}
             = (Val [lit "/images/uno.png";
                     lit "/images/cuento_ilustrado_1700000000003_2.png"], w')
             /\ calls w' = 7
             /\ sleep_log (trace w') = [0; 1].
Proof.
  destruct (retry_loop_stops_at_first_success env_scene2_unwritable
              (ImageStage 1 (JString (lit "b")) [lit "/images/uno.png"])
              {| calls := 4; draws := 0; ticks := 1; trace := [] |} 2)
    as [w' [Hr [Hc [_ Hs]]]].
  - lia.
  - intros k' Hk'. destruct k' as [|[|k']]; [reflexivity | reflexivity | lia].
  - reflexivity.
  - exists w'. split; [exact Hr|]. split; [exact Hc | exact Hs].
Defined.

(** A retry loop returns, after one to five remote calls. *)
Lemma retry_loop_returns env st w :
  exists v w', retry_loop env st w = (Val v, w') /\ calls w < calls w' <= calls w + 5.
Proof.
  destruct (first_pass (attempt_passes env st) (calls w) 5) as [k|] eqn:F.
  - pose proof (first_pass_some _ _ _ _ F) as [Hk _].
    destruct (retry_loop_first_pass env st w k F) as [w' [Hr [Hc _]]].
    eexists; exists w'. split; [exact Hr | lia].
  - destruct (retry_loop_all_fail env st w F) as [v [w' [Hr [_ [Hc _]]]]].
    exists v, w'. split; [exact Hr | lia].
Qed.

(** X2.  Whatever the remote service does, every retry loop returns without
    throwing, after at least one and at most five remote calls and at most
    five sleeps. *)
Theorem retry_loop_bounded env st w :
  exists v w', retry_loop env st w = (Val v, w')
               /\ calls w < calls w' <= calls w + 5
               /\ length (sleep_log (trace w')) <= length (sleep_log (trace w)) + 5.
Proof.
  destruct (first_pass (attempt_passes env st) (calls w) 5) as [k|] eqn:F.
  - pose proof (first_pass_some _ _ _ _ F) as [Hk _].
    destruct (retry_loop_first_pass env st w k F) as [w' [Hr [Hc Hs]]].
    eexists; exists w'. split; [exact Hr|]. split; [lia|].
    rewrite Hs, length_app.
    pose proof (waits_log_length (stage_waits env st) k (calls w) 0). lia.
  - destruct (retry_loop_all_fail env st w F) as [v [w' [Hr [_ [Hc [_ Hs]]]]]].
    exists v, w'. split; [exact Hr|]. split; [lia|].
    rewrite Hs, length_app.
    pose proof (waits_log_length (stage_waits env st) 5 (calls w) 0). lia.
Qed.

(* ===================================================================== *)
(** ** File names *)
(* ===================================================================== *)

Lemma lit_inj s s' : lit s = lit s' -> s = s'.
Proof.
  unfold lit. revert s'. induction s as [|a s IH]; intros [|a' s']; simpl; try discriminate.
  - reflexivity.
  - intros H. inversion H as [[Ha Hs]].
    apply (f_equal ascii_of_N) in Ha. rewrite !ascii_N_embedding in Ha.
    f_equal; auto.
Qed.

Lemma uint_digits d :
  Forall (fun c => is_digit c = true) (lit (NilEmpty.string_of_uint d)).
Proof.
  induction d; simpl; constructor; auto.
Qed.

Lemma of_nat_digits n : Forall (fun c => is_digit c = true) (of_nat n).
Proof.
  unfold of_nat, NilZero.string_of_uint.
  destruct (Nat.to_uint n); try apply uint_digits.
  repeat constructor.
Qed.

Lemma of_nat_inj n n' : of_nat n = of_nat n' -> n = n'.
Proof.
  unfold of_nat. intros H. apply lit_inj in H.
  rewrite <- (DecimalNat.Unsigned.of_to n), <- (DecimalNat.Unsigned.of_to n').
  destruct (Nat.to_uint n) as [|d|d|d|d|d|d|d|d|d|d] eqn:E;
    destruct (Nat.to_uint n') as [|d'|d'|d'|d'|d'|d'|d'|d'|d'|d'] eqn:E';
    try reflexivity;
    try (apply (f_equal NilZero.uint_of_string) in H;
         rewrite !NilZero.usu in H by discriminate;
         inversion H; reflexivity);
    try (apply (f_equal NilZero.uint_of_string) in H;
         rewrite NilZero.usu_nil, NilZero.usu in H by discriminate;
         inversion H; reflexivity);
    try (apply (f_equal NilZero.uint_of_string) in H;
         rewrite NilZero.usu_nil, NilZero.usu in H by discriminate;
         inversion H; reflexivity).
  all: apply (f_equal NilZero.uint_of_string) in H;
    rewrite NilZero.usu, NilZero.usu_nil in H by discriminate;
    inversion H; reflexivity.
Qed.

Lemma of_Z_no_underscore z : ~ In 95%N (of_Z z).
Proof.
  unfold of_Z, NilZero.string_of_int, NilZero.string_of_uint.
  assert (D : forall d, ~ In 95%N (lit (NilEmpty.string_of_uint d))).
  { intros d H. pose proof (uint_digits d) as F. rewrite Forall_forall in F.
    apply F in H. discriminate. }
  destruct (Z.to_int z) as [d|d]; destruct d; simpl;
    try (intros [H|H]; [discriminate | contradiction]);
    try (intros [H|[H|H]]; [discriminate | discriminate | contradiction]);
    try (intros [H|H]; [discriminate | now apply (D _) in H]);
    try (intros [H|[H|H]]; [discriminate | discriminate | now apply (D _) in H]).
Qed.

Lemma app_sep_inj (c : N) : forall D D' Y Y',
  ~ In c D -> ~ In c D' -> D ++ c :: Y = D' ++ c :: Y' -> D = D' /\ Y = Y'.
Proof.
  induction D as [|x D IH]; intros [|x' D'] Y Y' H1 H2 E; simpl in *.
  - inversion E. auto.
  - inversion E; subst. exfalso. apply H2. now left.
  - inversion E; subst. exfalso. apply H1. now left.
  - inversion E; subst.
    destruct (IH D' Y Y') as [-> ->]; auto.
Qed.

(** A clock reading, an underscore and a number: the number can be read
    back. *)
Lemma numbered_inj t j t' j' (Y : jsstring) :
  of_Z t ++ 95%N :: (of_nat (j + 1) ++ Y) = of_Z t' ++ 95%N :: (of_nat (j' + 1) ++ Y) ->
  j = j'.
Proof.
  intros H. apply app_sep_inj in H; try apply of_Z_no_underscore.
  destruct H as [_ H]. apply app_inv_tail in H. apply of_nat_inj in H. lia.
Qed.

(** X6.  The name of an image file tells the position of its prompt: two
    names are equal only for the same position, whatever the two readings
    of the clock. *)
Theorem image_fileName_tells_position t j t' j' :
  image_fileName t j = image_fileName t' j' -> j = j'.
Proof.
  unfold image_fileName. intros H.
  apply app_inv_head in H.
  change (lit "_" ++ of_nat (j + 1) ++ lit ".png")
    with (95%N :: (of_nat (j + 1) ++ lit ".png")) in H.
  change (lit "_" ++ of_nat (j' + 1) ++ lit ".png")
    with (95%N :: (of_nat (j' + 1) ++ lit ".png")) in H.
  apply app_sep_inj in H; try apply of_Z_no_underscore.
  destruct H as [_ H]. apply app_inv_tail in H. apply of_nat_inj in H. lia.
Qed.

Lemma image_fileName_tells_position_witness :
  image_fileName 1700000000000 0 = lit "cuento_ilustrado_1700000000000_1.png"
  /\ image_fileName 1700000000000 1 <> image_fileName 1700000000000 0.
Proof.
  split; [reflexivity|]. intros H.
  pose proof (image_fileName_tells_position 1700000000000 1 1700000000000 0 H) as E.
  discriminate E.
Defined.

Lemma urls_of_NoDup env kept :
  StronglySorted lt (map fst kept) -> NoDup (urls_of env kept).
Proof.
  induction kept as [|[j t] rest IH]; intros S; cbn [urls_of map fst snd] in *;
    constructor.
  - inversion S as [|? ? _ Hlt]; subst. intros H.
    apply in_map_iff in H. destruct H as [[j' t'] [Hu Hin]]. cbn [fst snd] in Hu.
    apply app_inv_head in Hu. unfold image_fileName in Hu. apply app_inv_head in Hu.
    apply (numbered_inj _ _ _ _ (lit ".png")) in Hu; subst j'.
    rewrite Forall_forall in Hlt.
    specialize (Hlt j (in_map fst _ _ Hin)). lia.
  - inversion S; subst. now apply IH.
Qed.

Lemma urls_of_length env kept : length (urls_of env kept) = length kept.
Proof. apply length_map. Qed.

Lemma kept_from_length vs : forall j, length (kept_from j vs) <= length vs.
Proof.
  induction vs as [|[t|] vs IH]; intros j; simpl; [lia| |];
    specialize (IH (S j)); lia.
Qed.

Lemma urls_of_prefix env kept :
  Forall (fun u => startsWith u (lit "/images/") = true) (urls_of env kept).
Proof.
  induction kept as [|[j t] rest IH]; cbn [urls_of map]; constructor; auto.
Qed.

(* ===================================================================== *)
(** ** The stages as wholes *)
(* ===================================================================== *)

Lemma prompts_of_attempt_nonempty a l : prompts_of_attempt a = Some l -> l <> [].
Proof.
  unfold prompts_of_attempt. destruct a as [msg|r]; [discriminate|].
  destruct (has_candidates r); [|discriminate].
  destruct (first_parts r) as [|[[t|] d] ps]; try discriminate.
  destruct (parse (cleanedText t)) as [[| | | |[|x l']|]|]; try discriminate.
  intros H. inversion H. discriminate.
Qed.

Lemma slice0_nonempty {A} (l : list A) n : (1 <= n)%Z -> l <> [] -> slice0 l n <> [].
Proof.
  intros Hn Hl. rewrite slice0_firstn by lia.
  destruct l as [|x l]; [congruence|].
  destruct (Z.to_nat n) as [|m] eqn:E; [lia|]. simpl. discriminate.
Qed.

(** The scene-prompt stage, whatever the remote service does. *)
Lemma prompts_stage_total env story n w :
  (0 <= n)%Z ->
  exists l w', generarPromptsSecuenciales env story n w = (Val l, w')
               /\ length l <= Nat.max (Z.to_nat n) 3
               /\ ((1 <= n)%Z -> l <> [])
               /\ calls w < calls w' <= calls w + 5.
Proof.
  intros Hn. unfold generarPromptsSecuenciales, bind.
  change (prompts_loop env story n w) with (retry_loop env (PromptStage story n) w).
  destruct (first_pass (attempt_passes env (PromptStage story n)) (calls w) 5) as [k|] eqn:F.
  - pose proof (first_pass_some _ _ _ _ F) as [Hk [Hp _]].
    destruct (retry_loop_first_pass env _ w k F) as [w' [Hr [Hc _]]].
    rewrite Hr. unfold pass_result. simpl in Hp |- *. unfold prompts_passes in Hp.
    destruct (prompts_of_attempt (remote env (calls w + k))) as [l|] eqn:E; [|discriminate].
    simpl. unfold ret. exists (slice0 l n), w'.
    split; [reflexivity|]. split.
    { pose proof (slice0_length l n Hn). lia. }
    split; [|lia].
    intros H1. apply slice0_nonempty; [exact H1|].
    eapply prompts_of_attempt_nonempty; exact E.
  - destruct (retry_loop_all_fail env _ w F) as [v [w' [Hr [Hv [Hc _]]]]].
    rewrite Hr. simpl in Hv. subst v. unfold warn, ret. cbn beta iota.
    exists (fallback_prompts story), (emit (EvWarn WPromptGenerico) w').
    split; [reflexivity|]. split; [simpl; lia|].
    split; [discriminate|]. simpl. lia.
Qed.

(** X3.  The scene-prompt stage never fails: for a requested count of at
    least one it always returns at least one prompt, at most as many as
    requested or three, after one to five remote calls. *)
Theorem scene_prompts_always_returned env story numPrompts w :
  (1 <= numPrompts)%Z ->
  exists l w', generarPromptsSecuenciales env story numPrompts w = (Val l, w')
               /\ l <> []
               /\ length l <= Nat.max (Z.to_nat numPrompts) 3
               /\ calls w < calls w' <= calls w + 5.
Proof.
  intros Hn.
  destruct (prompts_stage_total env story numPrompts w ltac:(lia))
    as [l [w' [Hr [Hl [Hne Hc]]]]].
  exists l, w'. repeat split; auto; lia.
Qed.

Lemma scene_prompts_always_returned_witness :
  exists l w', generarPromptsSecuenciales env_empty_array (lit "Habia una vez un pirata.")
                 1 world0 = (Val l, w')
               /\ l <> []
               /\ length l <= 3
               /\ 0 < calls w' <= 5.
Proof.
  apply (scene_prompts_always_returned env_empty_array (lit "Habia una vez un pirata.")
           1 world0).
  lia.
Defined.

Lemma illustrate_from_calls env prompts : forall j urls w,
  exists w',
    illustrate_from env j prompts urls w
    = (Val (urls ++ urls_of env (kept_from j (verdicts env (calls w) (ticks w) prompts))), w')
    /\ calls w <= calls w' <= calls w + 5 * length prompts.
Proof.
  induction prompts as [|p rest IH]; intros j urls w;
    cbn [illustrate_from verdicts].
  - exists w. cbn [kept_from urls_of map length]. rewrite app_nil_r.
    split; [reflexivity | lia].
  - destruct (image_loop_spec env j p urls w) as [w1 [Hl [Hc Ht]]].
    unfold bind. rewrite Hl. unfold maxAttempts.
    destruct (first_pass (image_stored env) (calls w) 5) as [k|] eqn:F;
      cbn [kept_from urls_of map fst snd length].
    + apply first_pass_some in F. destruct F as [Hk _].
      match goal with
      | |- context [illustrate_from env (S j) rest ?u w1] =>
          destruct (IH (S j) u w1) as [w' [Hr Hb]]
      end.
      exists w'. rewrite Hr, Hc, Ht, <- app_assoc.
      split; [reflexivity | lia].
    + destruct (IH (S j) urls w1) as [w' [Hr Hb]].
      exists w'. rewrite Hr, Hc, Ht. split; [reflexivity | lia].
Qed.

(** The illustration stage, whatever the remote service and the file system
    do. *)
Lemma illustrate_total env prompts w :
  exists r w', illustrate env prompts w = (r, w')
               /\ calls w <= calls w' <= calls w + 5 * length prompts
               /\ match r with
                  | Val urls => urls <> [] /\ length urls <= length prompts
                                /\ NoDup urls
                                /\ Forall (fun u => startsWith u (lit "/images/") = true) urls
                  | Exn e => e = NoImagenes
                  end.
Proof.
  destruct (illustrate_from_calls env prompts 0 [] w) as [w' [Hr Hc]].
  cbn [app] in Hr. unfold illustrate, bind. rewrite Hr.
  set (kept := kept_from 0 (verdicts env (calls w) (ticks w) prompts)).
  assert (Hlen : length (urls_of env kept) <= length prompts).
  { rewrite urls_of_length. unfold kept.
    pose proof (kept_from_length (verdicts env (calls w) (ticks w) prompts) 0).
    rewrite verdicts_length in *. lia. }
  assert (Hnd : NoDup (urls_of env kept))
    by (apply urls_of_NoDup, kept_from_sorted).
  pose proof (urls_of_prefix env kept) as Hpre.
  destruct (urls_of env kept) as [|u us] eqn:E.
  - exists (Exn NoImagenes), w'. auto.
  - exists (Val (u :: us)), w'.
    split; [reflexivity|]. split; [exact Hc|]. split; [discriminate|].
    split; [exact Hlen|]. split; [exact Hnd | exact Hpre].
Qed.

(** The whole pipeline, whatever the remote service does. *)
Lemma pipeline_total env personaje lugar objeto numImages w :
  (0 <= numImages)%Z ->
  exists r w',
    crearCuentoEImagenesSecuencia env personaje lugar objeto numImages w = (r, w')
    /\ calls w < calls w' <= calls w + 5 * (2 + Nat.max (Z.to_nat numImages) 3)
    /\ match r with
       | Val (cuento, urls) =>
           cuento <> [] /\ urls <> []
           /\ length urls <= Nat.max (Z.to_nat numImages) 3
           /\ NoDup urls
           /\ Forall (fun u => startsWith u (lit "/images/") = true) urls
       | Exn e => e = NoCuento \/ e = NoImagenes
       end.
Proof.
  intros Hn. unfold crearCuentoEImagenesSecuencia.
  unfold bind at 1.
  change (story_loop env (cuentoPrompt personaje lugar objeto) w)
    with (retry_loop env (StoryStage (cuentoPrompt personaje lugar objeto)) w).
  destruct (retry_loop_returns env (StoryStage (cuentoPrompt personaje lugar objeto)) w)
    as [v [w1 [Hr Hc1]]].
  rewrite Hr. simpl in v.
  destruct v as [[|c cs]|].
  - exists (Exn NoCuento), w1. unfold throw.
    split; [reflexivity|]. split; [lia|]. now left.
  - unfold bind at 1.
    destruct (prompts_stage_total env (c :: cs) numImages w1 Hn)
      as [l [w2 [Hp [Hl [_ Hc2]]]]].
    rewrite Hp. unfold bind at 1.
    destruct (illustrate_total env l w2) as [r [w3 [Hi [Hc3 Hshape]]]].
    rewrite Hi.
    assert (Hcalls : calls w < calls w3
                     <= calls w + 5 * (2 + Nat.max (Z.to_nat numImages) 3)) by nia.
    destruct r as [urls|e].
    + exists (Val (c :: cs, urls)), w3. unfold ret.
      destruct Hshape as [H1 [H2 [H3 H4]]].
      split; [reflexivity|]. split; [exact Hcalls|]. split; [discriminate|].
      split; [exact H1|]. split; [lia|]. split; [exact H3 | exact H4].
    + exists (Exn e), w3. subst e.
      split; [reflexivity|]. split; [exact Hcalls|]. now right.
  - exists (Exn NoCuento), w1. unfold throw.
    split; [reflexivity|]. split; [lia|]. now left.
Qed.

Lemma pipeline_story_nonempty env personaje lugar objeto numImages w cuento urls w' :
  crearCuentoEImagenesSecuencia env personaje lugar objeto numImages w
  = (Val (cuento, urls), w') -> cuento <> [].
Proof.
  unfold crearCuentoEImagenesSecuencia. unfold bind at 1.
  destruct (story_loop env (cuentoPrompt personaje lugar objeto) w) as [[[[|c cs]|]|e] w1];
    try discriminate.
  unfold bind at 1.
  destruct (generarPromptsSecuenciales env (c :: cs) numImages w1) as [[l|e] w2];
    [|discriminate].
  unfold bind at 1. destruct (illustrate env l w2) as [[us|e] w3]; [|discriminate].
  unfold ret. intros H. inversion H. discriminate.
Qed.

(** X4.  When the pipeline succeeds with a requested count of images of
    zero or more, the story is not empty, there is at least one image URL
    and at most as many as requested or three, the URLs are pairwise
    different, and each starts with /images/. *)
Theorem pipeline_success_shape env personaje lugar objeto numImages w cuento urls w' :
  (0 <= numImages)%Z ->
  crearCuentoEImagenesSecuencia env personaje lugar objeto numImages w
  = (Val (cuento, urls), w') ->
  cuento <> [] /\ urls <> []
  /\ length urls <= Nat.max (Z.to_nat numImages) 3
  /\ NoDup urls
  /\ Forall (fun u => startsWith u (lit "/images/") = true) urls.
Proof.
  intros Hn H.
  destruct (pipeline_total env personaje lugar objeto numImages w Hn)
    as [r [w1 [Hr [_ Hshape]]]].
  rewrite H in Hr. inversion Hr; subst. exact Hshape.
Qed.

Lemma pipeline_success_shape_witness :
  lit "Habia una vez un pirata." <> []
  /\ [lit "/images/cuento_ilustrado_1700000000000_1.png"] <> []
  /\ length [lit "/images/cuento_ilustrado_1700000000000_1.png"] <= 3
  /\ NoDup [lit "/images/cuento_ilustrado_1700000000000_1.png"]
  /\ Forall (fun u => startsWith u (lit "/images/") = true)
            [lit "/images/cuento_ilustrado_1700000000000_1.png"].
Proof.
  apply (pipeline_success_shape env_happy (lit "un pirata") (lit "un asteroide")
           (lit "un mapa") 1 world0 _ _
           (snd (crearCuentoEImagenesSecuencia env_happy (lit "un pirata")
                   (lit "un asteroide") (lit "un mapa") 1 world0))).
  - lia.
  - vm_compute. reflexivity.
Defined.

(** X5.  Whatever the remote service does, the pipeline makes at least one
    and at most [5 * (2 + max numImages 3)] remote calls, and the only
    errors it throws are the two of its own: no story, or no image. *)
Theorem pipeline_calls_and_errors env personaje lugar objeto numImages w :
  (0 <= numImages)%Z ->
  let run := crearCuentoEImagenesSecuencia env personaje lugar objeto numImages w in
  calls w < calls (snd run) <= calls w + 5 * (2 + Nat.max (Z.to_nat numImages) 3)
  /\ forall e, fst run = Exn e -> e = NoCuento \/ e = NoImagenes.
Proof.
  intros Hn run.
  destruct (pipeline_total env personaje lugar objeto numImages w Hn)
    as [r [w1 [Hr [Hc Hshape]]]].
  unfold run. rewrite Hr. cbn [fst snd]. split; [exact Hc|].
  intros e He. subst r. exact Hshape.
Qed.

Lemma pipeline_calls_and_errors_witness :
  0 < calls (snd (crearCuentoEImagenesSecuencia env_down (lit "un pirata")
                    (lit "un asteroide") (lit "un mapa") 1 world0)) <= 25
  /\ forall e, fst (crearCuentoEImagenesSecuencia env_down (lit "un pirata")
                      (lit "un asteroide") (lit "un mapa") 1 world0) = Exn e ->
               e = NoCuento \/ e = NoImagenes.
Proof.
  apply (pipeline_calls_and_errors env_down (lit "un pirata") (lit "un asteroide")
           (lit "un mapa") 1 world0).
  lia.
Defined.


(* ===================================================================== *)
(** ** The story stage inside the pipeline *)
(* ===================================================================== *)

(** X7.  When the five attempts at the story all fail, the pipeline throws
    its no-story error after exactly five remote calls, having slept after
    each of them: neither prompts nor images are asked for. *)
Theorem story_exhaustion_is_fatal env personaje lugar objeto numImages w :
  (forall k, k < 5 -> story_passes (remote env (calls w + k)) = false) ->
  exists w',
    crearCuentoEImagenesSecuencia env personaje lugar objeto numImages w = (Exn NoCuento, w')
    /\ calls w' = calls w + 5
    /\ sleep_log (trace w') = sleep_log (trace w) ++ [0; 1; 2; 3; 4].
Proof.
  intros H.
  assert (F : first_pass (attempt_passes env (StoryStage (cuentoPrompt personaje lugar objeto)))
                (calls w) 5 = None) by (apply first_pass_none; exact H).
  destruct (retry_loop_all_fail env _ w F) as [v [w' [Hr [Hv [Hc [_ Hs]]]]]].
  simpl in Hr, Hv. subst v.
  exists w'. unfold crearCuentoEImagenesSecuencia, bind. rewrite Hr.
  split; [reflexivity|]. split; [exact Hc|].
  rewrite Hs. reflexivity.
Qed.

Lemma story_exhaustion_is_fatal_witness :
  exists w',
    crearCuentoEImagenesSecuencia env_no_candidates (lit "un pirata") (lit "un asteroide")
                                  (lit "un mapa") 3 world0 = (Exn NoCuento, w')
    /\ calls w' = 5
    /\ sleep_log (trace w') = [0; 1; 2; 3; 4].
Proof.
  apply (story_exhaustion_is_fatal env_no_candidates (lit "un pirata") (lit "un asteroide")
           (lit "un mapa") 3 world0).
  intros k _. reflexivity.
Defined.

(** X8.  An answer that has a candidate but whose first part carries no
    text, or an empty one, ends the story loop like a success: the pipeline
    throws its no-story error at once, the attempts that remain are not
    used. *)
Theorem empty_story_is_not_retried env personaje lugar objeto numImages w k :
  k < 5 ->
  (forall k', k' < k -> story_passes (remote env (calls w + k')) = false) ->
  story_passes (remote env (calls w + k)) = true ->
  truthy (story_text (remote env (calls w + k))) = false ->
  exists w',
    crearCuentoEImagenesSecuencia env personaje lugar objeto numImages w = (Exn NoCuento, w')
    /\ calls w' = calls w + S k.
Proof.
  intros Hk Hf Hp Ht.
  pose proof (first_pass_intro (attempt_passes env (StoryStage (cuentoPrompt personaje lugar objeto)))
                5 (calls w) k Hk Hf Hp) as F.
  destruct (retry_loop_first_pass env _ w k F) as [w' [Hr [Hc _]]].
  unfold pass_result in Hr. simpl in Hr.
  exists w'. unfold crearCuentoEImagenesSecuencia, bind. rewrite Hr.
  split; [|exact Hc].
  destruct (story_text (remote env (calls w + k))) as [[|c cs]|]; try reflexivity.
  discriminate Ht.
Qed.

Lemma empty_story_is_not_retried_witness :
  exists w',
    crearCuentoEImagenesSecuencia (env_of (fun _ => text_response []))
      (lit "un pirata") (lit "un asteroide") (lit "un mapa") 3 world0 = (Exn NoCuento, w')
    /\ calls w' = 1.
Proof.
  apply (empty_story_is_not_retried (env_of (fun _ => text_response []))
           (lit "un pirata") (lit "un asteroide") (lit "un mapa") 3 world0 0).
  - lia.
  - intros k' Hk'. lia.
  - reflexivity.
  - reflexivity.
Defined.

(** X9.  The story the pipeline returns is the text of the first part of the
    first answer that brought a candidate; the answers before it failed. *)
Theorem returned_story_is_first_answer env personaje lugar objeto numImages w cuento urls w' :
  crearCuentoEImagenesSecuencia env personaje lugar objeto numImages w
  = (Val (cuento, urls), w') ->
  exists k, k < 5
            /\ (forall k', k' < k -> story_passes (remote env (calls w + k')) = false)
            /\ story_text (remote env (calls w + k)) = Some cuento.
Proof.
  intros H. unfold crearCuentoEImagenesSecuencia in H. unfold bind at 1 in H.
  change (story_loop env (cuentoPrompt personaje lugar objeto) w)
    with (retry_loop env (StoryStage (cuentoPrompt personaje lugar objeto)) w) in H.
  destruct (first_pass (attempt_passes env (StoryStage (cuentoPrompt personaje lugar objeto)))
              (calls w) 5) as [k|] eqn:F.
  - pose proof (first_pass_some _ _ _ _ F) as [Hk [_ Hnone]].
    destruct (retry_loop_first_pass env _ w k F) as [w1 [Hr _]].
    rewrite Hr in H. unfold pass_result in H. simpl in H.
    exists k. split; [exact Hk|]. split.
    + apply (first_pass_none (fun i => story_passes (remote env i))). exact Hnone.
    + destruct (story_text (remote env (calls w + k))) as [[|c cs]|]; try discriminate H.
      unfold bind at 1 in H.
      destruct (generarPromptsSecuenciales env (c :: cs) numImages w1) as [[l|e] w2];
        [|discriminate H].
      unfold bind at 1 in H.
      destruct (illustrate env l w2) as [[us|e] w3]; [|discriminate H].
      unfold ret in H. inversion H. reflexivity.
  - destruct (retry_loop_all_fail env _ w F) as [v [w1 [Hr [Hv _]]]].
    rewrite Hr in H. simpl in Hv. subst v. discriminate H.
Qed.

Lemma returned_story_is_first_answer_witness :
  exists k, k < 5
            /\ (forall k', k' < k -> story_passes (remote env_happy (calls world0 + k')) = false)
            /\ story_text (remote env_happy (calls world0 + k))
               = Some (lit "Habia una vez un pirata.").
Proof.
  apply (returned_story_is_first_answer env_happy (lit "un pirata") (lit "un asteroide")
           (lit "un mapa") 1 world0 _
           [lit "/images/cuento_ilustrado_1700000000000_1.png"]
           (snd (crearCuentoEImagenesSecuencia env_happy (lit "un pirata")
                   (lit "un asteroide") (lit "un mapa") 1 world0))).
  vm_compute. reflexivity.
Defined.

(* ===================================================================== *)
(** ** The narration stage as a whole *)
(* ===================================================================== *)

Lemma written_app d tr1 tr2 : written d (tr1 ++ tr2) = written d tr1 ++ written d tr2.
Proof. unfold written. apply flat_map_app. Qed.

(** What every iteration keeps, a loop keeps. *)
Lemma for_range_inv {St} (body : nat -> St -> M (bool * St)) (Inv : St -> World -> Prop) :
  (forall i s w b s' w', body i s w = (Val (b, s'), w') -> Inv s w -> Inv s' w') ->
  forall n i s w s' w',
    for_range n i body s w = (Val s', w') -> Inv s w -> Inv s' w'.
Proof.
  intros Hbody. induction n as [|n IH]; intros i s w s' w' H HI; simpl in H.
  - unfold ret in H. inversion H; subst. exact HI.
  - unfold bind in H. destruct (body i s w) as [[[b s1]|e] w1] eqn:E; [|discriminate H].
    pose proof (Hbody _ _ _ _ _ _ E HI) as H1. cbn [fst snd] in H.
    destruct b.
    + unfold ret in H. inversion H; subst. exact H1.
    + eapply IH; eauto.
Qed.

Lemma audio_attempt_writes_nothing env cuento d i s w r w' :
  audio_attempt env cuento i s w = (r, w') -> written d (trace w') = written d (trace w).
Proof.
  unfold audio_attempt, try_catch, bind, generateContent, warn, sleep, ret, emit.
  destruct (remote env (calls w)) as [msg|a]; cbn [fst snd].
  - intros H. inversion H; subst. cbn [trace]. rewrite !written_app. cbn.
    now rewrite !app_nil_r.
  - destruct (has_candidates a); intros H; inversion H; subst; cbn [trace];
      rewrite !written_app; cbn; now rewrite ?app_nil_r.
Qed.

Lemma audio_loop_writes_nothing env cuento d w v w' :
  audio_loop env cuento w = (Val v, w') -> written d (trace w') = written d (trace w).
Proof.
  intros H.
  apply (for_range_inv (audio_attempt env cuento)
           (fun _ w0 => written d (trace w0) = written d (trace w))
           (fun i s w0 b s' w1 Hb HI =>
              eq_trans (audio_attempt_writes_nothing env cuento d i s w0 _ w1 Hb) HI)
           maxAttempts 0 None w v w' H eq_refl).
Qed.

(** The narration stage, whatever the remote service and the file system
    do. *)
Lemma narration_total env cuento w :
  exists r w',
    generarAudioDeCuento env cuento w = (r, w')
    /\ calls w < calls w' <= calls w + 5
    /\ written ImagesDir (trace w') = written ImagesDir (trace w)
    /\ match r with
       | Val url =>
           exists fileName, url = lit "/audio/" ++ fileName
                            /\ written AudioDir (trace w') = written AudioDir (trace w) ++ [fileName]
       | Exn e =>
           (e = TypeError \/ e = NoCandidatosAudio \/ e = NoDatosAudio
            \/ exists message, e = WriteError message)
           /\ written AudioDir (trace w') = written AudioDir (trace w)
       end.
Proof.
  destruct (retry_loop_returns env (AudioStage cuento) w) as [v [w1 [Hr Hc]]].
  simpl in Hr, v.
  pose proof (audio_loop_writes_nothing env cuento ImagesDir w v w1 Hr) as Wi.
  pose proof (audio_loop_writes_nothing env cuento AudioDir w v w1 Hr) as Wa.
  unfold generarAudioDeCuento, bind. rewrite Hr.
  assert (Hfail : forall e, e = TypeError \/ e = NoCandidatosAudio \/ e = NoDatosAudio
                            \/ (exists message, e = WriteError message) ->
                 exists r w',
                   (Exn e : Outcome jsstring, w1) = (r, w')
                   /\ calls w < calls w' <= calls w + 5
                   /\ written ImagesDir (trace w') = written ImagesDir (trace w)
                   /\ match r with
                      | Val url =>
                          exists fileName,
                            url = lit "/audio/" ++ fileName
                            /\ written AudioDir (trace w')
                               = written AudioDir (trace w) ++ [fileName]
                      | Exn e0 =>
                          (e0 = TypeError \/ e0 = NoCandidatosAudio \/ e0 = NoDatosAudio
                           \/ exists message, e0 = WriteError message)
                          /\ written AudioDir (trace w') = written AudioDir (trace w)
                      end).
  { intros e He. exists (Exn e), w1. auto. }
  destruct v as [r|]; [|apply Hfail; auto].
  destruct (candidates r) as [[|c cs]|]; [apply Hfail; auto | | apply Hfail; auto].
  destruct (audio_part (parts c)) as [d|]; [|apply Hfail; auto].
  destruct (wav_of_part d) as [wav|]; [|apply Hfail; auto].
  unfold dateNow, writeFileSync, ret. cbn [fst snd calls draws ticks trace].
  destruct (disk env (pred (calls w1))) as [message|].
  - eexists. eexists. split; [reflexivity|]. cbn [calls trace].
    split; [lia|]. split; [exact Wi|]. split; [|exact Wa].
    right. right. right. now exists message.
  - unfold emit. cbn [fst snd calls draws ticks trace].
    eexists. eexists. split; [reflexivity|]. cbn [calls trace].
    split; [lia|]. rewrite !written_app. cbn. rewrite app_nil_r.
    split; [exact Wi|]. eexists. split; [reflexivity|]. now rewrite Wa.
Qed.

(** X10.  The narration stage makes one to five remote calls and never
    touches the image directory; it either returns the URL of the one file
    it wrote into the audio directory, or throws (a [TypeError], no
    candidates, no audio data, or the error of the file system that refused
    the file), no write having succeeded. *)
Theorem narration_writes_what_it_returns env cuento w :
  let run := generarAudioDeCuento env cuento w in
  calls w < calls (snd run) <= calls w + 5
  /\ written ImagesDir (trace (snd run)) = written ImagesDir (trace w)
  /\ match fst run with
     | Val url =>
         exists fileName,
           url = lit "/audio/" ++ fileName
           /\ written AudioDir (trace (snd run)) = written AudioDir (trace w) ++ [fileName]
     | Exn e =>
         (e = TypeError \/ e = NoCandidatosAudio \/ e = NoDatosAudio
          \/ exists message, e = WriteError message)
         /\ written AudioDir (trace (snd run)) = written AudioDir (trace w)
     end.
Proof.
  intros run. destruct (narration_total env cuento w) as [r [w' [Hr H]]].
  unfold run. rewrite Hr. exact H.
Qed.

(** The narration against a file system that refuses the file. *)
Example narration_unwritable :
  fst (generarAudioDeCuento
         (env_with (fun _ => data_response (mimeType pcm_part) (data pcm_part))
                   (fun _ => Some (lit "ENOTDIR: not a directory, open")))
         (lit "Habia una vez un pirata.") world0)
  = Exn (WriteError (lit "ENOTDIR: not a directory, open")).
Proof. vm_compute. reflexivity. Qed.

(** X11.  When the five attempts at the narration fail, the stage throws
    after exactly five calls: the [TypeError] of reading the candidates of
    an undefined response when every call raised, its own no-candidates
    error when the last call returned a response. *)
Theorem narration_exhaustion_errors env cuento w :
  (forall k, k < 5 -> audio_passes (remote env (calls w + k)) = false) ->
  exists e w',
    generarAudioDeCuento env cuento w = (Exn e, w')
    /\ calls w' = calls w + 5
    /\ ((forall k, k < 5 -> exists msg, remote env (calls w + k) = Raised msg) -> e = TypeError)
    /\ ((exists r, remote env (calls w + 4) = Returned (Some r)) -> e = NoCandidatosAudio).
Proof.
  intros H.
  assert (F : first_pass (attempt_passes env (AudioStage cuento)) (calls w) 5 = None)
    by (apply first_pass_none; exact H).
  destruct (retry_loop_all_fail env (AudioStage cuento) w F)
    as [v [w' [Hr [[Ev Hv] [Hc _]]]]].
  simpl in Hr. unfold generarAudioDeCuento, bind. rewrite Hr.
  assert (Hall : (forall k, k < 5 -> exists msg, remote env (calls w + k) = Raised msg) ->
                 v = None).
  { intros R. rewrite Ev. unfold maxAttempts. cbn [last_received].
    destruct (R 4 ltac:(lia)) as [m4 E4]. rewrite E4.
    destruct (R 3 ltac:(lia)) as [m3 E3]. rewrite E3.
    destruct (R 2 ltac:(lia)) as [m2 E2]. rewrite E2.
    destruct (R 1 ltac:(lia)) as [m1 E1]. rewrite E1.
    destruct (R 0 ltac:(lia)) as [m0 E0]. rewrite E0. reflexivity. }
  assert (Hlast : forall r, remote env (calls w + 4) = Returned (Some r) -> v = Some r).
  { intros r E4. rewrite Ev. unfold maxAttempts. cbn [last_received]. rewrite E4.
    reflexivity. }
  clear Ev. destruct v as [r|].
  - assert (Hcand : match candidates r with Some (_ :: _) => False | _ => True end).
    { unfold has_candidates in Hv. destruct r as [[[|c cs]|]]; simpl; auto; discriminate. }
    destruct (candidates r) as [[|c cs]|]; try contradiction;
      exists NoCandidatosAudio, w'; (split; [reflexivity|]); (split; [exact Hc|]);
      (split; [intros R; apply Hall in R; discriminate | reflexivity]).
  - exists TypeError, w'. split; [reflexivity|]. split; [exact Hc|].
    split; [reflexivity|]. intros [r E]. apply Hlast in E. discriminate.
Qed.

Lemma narration_exhaustion_errors_witness :
  (exists w', generarAudioDeCuento env_down (lit "Habia una vez un pirata.") world0
              = (Exn TypeError, w') /\ calls w' = 5)
  /\ (exists w', generarAudioDeCuento env_no_candidates (lit "Habia una vez un pirata.") world0
                 = (Exn NoCandidatosAudio, w') /\ calls w' = 5).
Proof.
  split.
  - destruct (narration_exhaustion_errors env_down (lit "Habia una vez un pirata.") world0)
      as [e [w' [Hr [Hc [Hall _]]]]].
    + intros k _. reflexivity.
    + exists w'. rewrite <- (Hall (fun k _ => ex_intro _ (lit "fetch failed") eq_refl)).
      split; [exact Hr | exact Hc].
  - destruct (narration_exhaustion_errors env_no_candidates (lit "Habia una vez un pirata.")
                world0) as [e [w' [Hr [Hc [_ Hlast]]]]].
    + intros k _. reflexivity.
    + exists w'. rewrite <- (Hlast (ex_intro _ {| candidates := Some [] |} eq_refl)).
      split; [exact Hr | exact Hc].
Defined.

(** X12.  When the first answer with candidates has no audio part in its
    first candidate, or has one whose media type names no rate, the
    narration stage throws (no audio data, respectively a [TypeError]) and
    writes no file; the attempts that remain are not used. *)
Theorem narration_rejects_unusable_answer env cuento w k r c cs :
  k < 5 ->
  (forall k', k' < k -> audio_passes (remote env (calls w + k')) = false) ->
  remote env (calls w + k) = Returned (Some r) ->
  candidates r = Some (c :: cs) ->
  match audio_part (parts c) with
  | None => True
  | Some d => match_rate (mimeType d) = None
  end ->
  exists w',
    generarAudioDeCuento env cuento w
    = (Exn (match audio_part (parts c) with None => NoDatosAudio | Some _ => TypeError end), w')
    /\ calls w' = calls w + S k
    /\ written AudioDir (trace w') = written AudioDir (trace w).
Proof.
  intros Hk Hf Hr Hc Hbad.
  assert (Hp : attempt_passes env (AudioStage cuento) (calls w + k) = true).
  { simpl. rewrite Hr. unfold audio_passes, has_candidates.
    destruct r as [cands]. simpl in Hc. now rewrite Hc. }
  pose proof (first_pass_intro (attempt_passes env (AudioStage cuento)) 5 (calls w) k
                Hk Hf Hp) as F.
  destruct (retry_loop_first_pass env _ w k F) as [w' [Hl [Hcalls _]]].
  unfold pass_result in Hl. simpl in Hl. rewrite Hr in Hl.
  pose proof (audio_loop_writes_nothing env cuento AudioDir w _ w' Hl) as Wa.
  exists w'. unfold generarAudioDeCuento, bind. rewrite Hl, Hc.
  destruct (audio_part (parts c)) as [d|].
  - unfold wav_of_part. rewrite Hbad. auto.
  - auto.
Qed.

Lemma narration_rejects_unusable_answer_witness :
  exists w',
    generarAudioDeCuento (env_of (fun _ => data_response (lit "audio/L16") (lit "AAAAQA==")))
                         (lit "Habia una vez un pirata.") world0
    = (Exn TypeError, w')
    /\ calls w' = 1
    /\ written AudioDir (trace w') = [].
Proof.
  apply (narration_rejects_unusable_answer
           (env_of (fun _ => data_response (lit "audio/L16") (lit "AAAAQA==")))
           (lit "Habia una vez un pirata.") world0 0
           {| candidates := Some [ {| parts := [ {| text := None;
                                                   inlineData := Some {| mimeType := lit "audio/L16";
                                                                         data := lit "AAAAQA==" |} |} ] |} ] |}
           {| parts := [ {| text := None;
                            inlineData := Some {| mimeType := lit "audio/L16";
                                                  data := lit "AAAAQA==" |} |} ] |} []).
  - lia.
  - intros k' Hk'. lia.
  - reflexivity.
  - reflexivity.
  - reflexivity.
Defined.


(* ===================================================================== *)
(** ** Decoded audio *)
(* ===================================================================== *)

Lemma sextet_bound c v : sextet c = Some v -> (v < 64)%N.
Proof.
  unfold sextet.
  destruct (N.leb 65 c && N.leb c 90)%bool eqn:E1.
  { apply andb_true_iff in E1. destruct E1 as [A B]. apply N.leb_le in A, B.
    intros H. inversion H. lia. }
  destruct (N.leb 97 c && N.leb c 122)%bool eqn:E2.
  { apply andb_true_iff in E2. destruct E2 as [A B]. apply N.leb_le in A, B.
    intros H. inversion H. lia. }
  destruct (N.leb 48 c && N.leb c 57)%bool eqn:E3.
  { apply andb_true_iff in E3. destruct E3 as [A B]. apply N.leb_le in A, B.
    intros H. inversion H. lia. }
  destruct (N.eqb c 43 || N.eqb c 45)%bool; [intros H; inversion H; lia|].
  destruct (N.eqb c 47 || N.eqb c 95)%bool; [intros H; inversion H; lia|].
  discriminate.
Qed.

Lemma sextets_bound s : Forall (fun v => (v < 64)%N) (sextets s).
Proof.
  induction s as [|c t IH]; cbn [sextets]; [constructor|]. cbv zeta.
  destruct (N.eqb (c mod 256)%N 61); [constructor|].
  destruct (sextet (c mod 256)%N) as [v|] eqn:E; [|exact IH].
  constructor; [eapply sextet_bound; eauto | exact IH].
Qed.

Lemma quad_bytes a b : (a < 64)%N -> (b < 64)%N -> (a * 4 + b / 16 < 256)%N.
Proof.
  intros Ha Hb. assert (b / 16 < 4)%N by (apply N.Div0.div_lt_upper_bound; lia). lia.
Qed.

Lemma quad_bytes2 b c : (b < 64)%N -> (c < 64)%N -> ((b mod 16) * 16 + c / 4 < 256)%N.
Proof.
  intros Hb Hc. assert (c / 4 < 16)%N by (apply N.Div0.div_lt_upper_bound; lia).
  assert (b mod 16 < 16)%N by (apply N.mod_lt; lia). lia.
Qed.

Lemma quad_bytes3 c d : (c < 64)%N -> (d < 64)%N -> ((c mod 4) * 64 + d < 256)%N.
Proof.
  intros Hc Hd. assert (c mod 4 < 4)%N by (apply N.mod_lt; lia). lia.
Qed.

Lemma bytes_of_sextets_bound_upto n : forall l,
  length l <= n -> Forall (fun v => (v < 64)%N) l ->
  Forall (fun b => (b < 256)%N) (bytes_of_sextets l).
Proof.
  induction n as [|n IH]; intros l Hn Hl.
  - destruct l; [constructor | simpl in Hn; lia].
  - destruct l as [|a [|b [|c [|d t]]]]; simpl; try constructor.
    + inversion Hl as [|? ? Ha Hl1]; subst. inversion Hl1; subst.
      now apply quad_bytes.
    + constructor.
    + inversion Hl as [|? ? Ha Hl1]; subst. inversion Hl1; subst.
      now apply quad_bytes.
    + inversion Hl as [|? ? Ha Hl1]; subst. inversion Hl1 as [|? ? Hb Hl2]; subst.
      inversion Hl2; subst. constructor; [now apply quad_bytes2 | constructor].
    + inversion Hl as [|? ? Ha Hl1]; subst. inversion Hl1; subst.
      now apply quad_bytes.
    + inversion Hl as [|? ? Ha Hl1]; subst. inversion Hl1 as [|? ? Hb Hl2]; subst.
      inversion Hl2 as [|? ? Hc Hl3]; subst. inversion Hl3 as [|? ? Hd Hl4]; subst.
      constructor; [now apply quad_bytes2|].
      constructor; [now apply quad_bytes3|].
      apply IH; [simpl in Hn; lia | exact Hl4].
Qed.

(** What [Buffer.from(_, 'base64')] gives are bytes. *)
Lemma from_base64_bytes s : Forall (fun b => (b < 256)%N) (from_base64 s).
Proof.
  unfold from_base64.
  apply (bytes_of_sextets_bound_upto (length (sextets s))); [lia | apply sextets_bound].
Qed.

Lemma int16_range lo hi : (lo < 256)%N -> (hi < 256)%N -> is_int16 (int16 lo hi).
Proof.
  unfold is_int16, int16. intros Hl Hh.
  destruct (Z.ltb_spec (Z.of_N lo + 256 * Z.of_N hi) 32768); lia.
Qed.

Lemma int16_view_spec_upto n : forall bytes,
  length bytes <= n -> Forall (fun b => (b < 256)%N) bytes ->
  length (int16_view bytes) = length bytes / 2
  /\ Forall is_int16 (int16_view bytes).
Proof.
  induction n as [|n IH]; intros bytes Hn Hb.
  - destruct bytes; [split; [reflexivity | constructor] | simpl in Hn; lia].
  - destruct bytes as [|lo [|hi t]]; simpl int16_view.
    + split; [reflexivity | constructor].
    + split; [reflexivity | constructor].
    + inversion Hb as [|? ? Hlo Hb1]; subst. inversion Hb1 as [|? ? Hhi Hb2]; subst.
      destruct (IH t ltac:(simpl in Hn; lia) Hb2) as [Hlen Hall].
      split.
      * cbn [length]. rewrite Hlen.
        change (S (S (length t))) with (2 + length t).
        replace (2 + length t) with (length t + 1 * 2) by lia.
        rewrite Nat.div_add by lia. lia.
      * constructor; [now apply int16_range | exact Hall].
Qed.

Lemma sample_normalised z :
  is_int16 z -> (-1 <= inject_Z z / 32768)%Q /\ (inject_Z z / 32768 < 1)%Q.
Proof.
  unfold is_int16. intros [Hl Hu].
  assert (P : (0 < 32768)%Q) by reflexivity.
  split.
  - apply Qle_shift_div_l; [exact P|].
    change (-1 * 32768)%Q with (inject_Z (-32768)). rewrite <- Zle_Qle. exact Hl.
  - apply Qlt_shift_div_r; [exact P|].
    change (1 * 32768)%Q with (inject_Z 32768). rewrite <- Zlt_Qlt. lia.
Qed.

Lemma fl64_nonneg x :
  match fl64 x with
  | Finite y => (0 <= y)%Q
  | Infinity => True
  end.
Proof.
  unfold fl64. destruct (Qle_bool x 0) eqn:E; [discriminate|].
  apply Qle_bool_false in E.
  destruct (Qle_bool (pow2 1024) (nearest x)); [exact I|].
  rewrite Qred_correct. now apply nearest_nonneg.
Qed.

(** X13.  Whatever the payload of an audio part, the data handed to the
    encoder has one channel, with one sample for every two decoded bytes (an
    odd last byte is left out), every sample lies in [-1, 1), and the rate
    is a number that is not negative, or [Infinity]. *)
Theorem decoded_audio_is_normalised d wav :
  wav_of_part d = Some wav ->
  exists channel,
    channelData wav = [channel]
    /\ length channel = length (from_base64 (data d)) / 2
    /\ Forall (fun q => (-1 <= q)%Q /\ (q < 1)%Q) channel
    /\ match sampleRate wav with
       | Finite rate => (0 <= rate)%Q
       | Infinity => True
       end.
Proof.
  unfold wav_of_part. destruct (match_rate (mimeType d)) as [ds|] eqn:E; [|discriminate].
  intros H. inversion H; subst. cbn [channelData sampleRate].
  destruct (int16_view_spec_upto (length (from_base64 (data d))) (from_base64 (data d))
              (le_n _) (from_base64_bytes (data d))) as [Hlen Hall].
  eexists. split; [reflexivity|]. unfold pcm_to_float.
  split; [now rewrite length_map|]. split.
  - apply Forall_map. eapply Forall_impl; [|exact Hall].
    intros z Hz. now apply sample_normalised.
  - apply fl64_nonneg.
Qed.

Lemma decoded_audio_is_normalised_witness :
  exists channel,
    [[(0 # 32768)%Q; (16384 # 32768)%Q]] = [channel]
    /\ length channel = 2
    /\ Forall (fun q => (-1 <= q)%Q /\ (q < 1)%Q) channel
    /\ (0 <= inject_Z 24000)%Q.
Proof.
  apply (decoded_audio_is_normalised pcm_part
           {| sampleRate := Finite (inject_Z 24000);
              channelData := [[(0 # 32768)%Q; (16384 # 32768)%Q]] |}).
  reflexivity.
Defined.

(** The decoder reads the low byte of a code unit: after the digits QUJD,
    two code units U+0141 count as two letters A and give a fourth byte.
    A rate of more than 53 bits is rounded, and one beyond the largest
    binary64 number is [Infinity]. *)
Example decoding_examples :
  from_base64 (lit "QUJD" ++ [321%N; 321%N]) = [65%N; 66%N; 67%N; 0%N]
  /\ from_base64 (lit "QUJD" ++ [317%N] ++ lit "QUJD") = [65%N; 66%N; 67%N]
  /\ from_base64 (lit "QU JD Q-_/+") = [65%N; 66%N; 67%N; 67%N; 239%N; 255%N]
  /\ parseInt10 (lit "9007199254740993") = Finite (inject_Z 9007199254740992)
  /\ parseInt10 (lit "1" ++ repeat 48%N 309) = Infinity.
Proof. repeat split; vm_compute; reflexivity. Qed.


(* ===================================================================== *)
(** ** The handlers as wholes *)
(* ===================================================================== *)

Lemma params_present req :
  (negb (truthy (personaje req)) || negb (truthy (lugar req))
   || negb (truthy (objeto req)))%bool = false <->
  truthy (personaje req) = true /\ truthy (lugar req) = true /\ truthy (objeto req) = true.
Proof.
  destruct (truthy (personaje req)), (truthy (lugar req)), (truthy (objeto req));
    simpl; split; try tauto; try discriminate; intros [? [? ?]]; discriminate.
Qed.

(** X14.  For every request to [/create-story-audio]: a missing (or empty)
    parameter gives 400 and nothing is called; with the three present, the
    answer is 200 with the story, the absolute image URLs and the absolute
    audio URL when both the pipeline and the narration complete; it is 500
    with the fixed message when the pipeline throws (the narration is then
    not attempted) and when the narration throws after the pipeline
    completed. *)
Theorem create_story_audio_responses env req w :
  ((truthy (personaje req) = false \/ truthy (lugar req) = false
    \/ truthy (objeto req) = false) ->
   create_story_audio env req w
   = (Val {| status := 400; body := error_body msg_faltan |}, w))
  /\ (truthy (personaje req) = true -> truthy (lugar req) = true ->
      truthy (objeto req) = true ->
      let pipeline := crearCuentoEImagenesSecuencia env (str (personaje req))
                        (str (lugar req)) (str (objeto req)) 3 w in
      (forall e w1,
          pipeline = (Exn e, w1) ->
          create_story_audio env req w
          = (Val {| status := 500; body := error_body msg_error_audio |}, w1))
      /\ (forall cuento imageUrls w1 e w2,
             pipeline = (Val (cuento, imageUrls), w1) ->
             generarAudioDeCuento env cuento w1 = (Exn e, w2) ->
             create_story_audio env req w
             = (Val {| status := 500; body := error_body msg_error_audio |}, w2))
      /\ (forall cuento imageUrls w1 audioUrl w2,
             pipeline = (Val (cuento, imageUrls), w1) ->
             generarAudioDeCuento env cuento w1 = (Val audioUrl, w2) ->
             create_story_audio env req w
             = (Val {| status := 200;
                       body := JObject [(lit "cuento", JString cuento);
                                        (lit "imageUrls",
                                         JArray (map (fun url => JString (absolute req url))
                                                     imageUrls));
                                        (lit "audioUrl", JString (absolute req audioUrl))] |},
                w2))).
Proof.
  split.
  - intros H. unfold create_story_audio.
    destruct H as [H|[H|H]]; rewrite H; simpl; rewrite ?orb_true_r; reflexivity.
  - intros Hp Hl Ho pipeline. unfold create_story_audio.
    rewrite (proj2 (params_present req) (conj Hp (conj Hl Ho))).
    subst pipeline. split; [|split].
    + intros e w1 H. unfold try_catch. unfold bind at 1. rewrite H. reflexivity.
    + intros cuento imageUrls w1 e w2 H Ha.
      unfold try_catch. unfold bind at 1. rewrite H. cbn [fst snd].
      pose proof (pipeline_story_nonempty env _ _ _ _ _ _ _ _ H) as Hc.
      destruct cuento as [|c cs]; [congruence|]. cbn [truthy].
      unfold bind at 1. unfold ret at 1. unfold bind at 1. rewrite Ha. reflexivity.
    + intros cuento imageUrls w1 audioUrl w2 H Ha.
      unfold try_catch. unfold bind at 1. rewrite H. cbn [fst snd].
      pose proof (pipeline_story_nonempty env _ _ _ _ _ _ _ _ H) as Hc.
      destruct cuento as [|c cs]; [congruence|]. cbn [truthy].
      unfold bind at 1. unfold ret at 1. unfold bind at 1. rewrite Ha.
      unfold ret. rewrite map_map. reflexivity.
Qed.

Lemma create_story_audio_responses_witness :
  fst (create_story_audio env_down sample_request world0)
  = Val {| status := 500; body := error_body msg_error_audio |}
  /\ create_story_audio env_happy
       {| personaje := Some []; lugar := Some (lit "un asteroide");
          objeto := Some (lit "un mapa"); protocol := lit "http";
          host := Some (lit "localhost:3000") |} world0
     = (Val {| status := 400; body := error_body msg_faltan |}, world0).
Proof.
  split.
  - destruct (proj2 (create_story_audio_responses env_down sample_request world0)
                eq_refl eq_refl eq_refl) as [H _].
    rewrite (H NoCuento
               (snd (crearCuentoEImagenesSecuencia env_down (lit "un pirata")
                       (lit "un asteroide") (lit "un mapa") 3 world0)));
      [reflexivity | vm_compute; reflexivity].
  - apply (proj1 (create_story_audio_responses env_happy _ world0)). left. reflexivity.
Defined.

(** X15.  [/create-story] always answers, whatever the remote service does:
    with 400 (then nothing was called), 500 with its fixed message, or 200
    with a story that is not empty and one to three image URLs (three are
    possible although one image is requested); it never makes more than 25
    remote calls. *)
Theorem create_story_always_answers env req w :
  exists resp w',
    create_story env req w = (Val resp, w')
    /\ calls w <= calls w' <= calls w + 25
    /\ (status resp = 400%Z /\ w' = w
        \/ status resp = 500%Z /\ body resp = error_body msg_error_imagen
        \/ status resp = 200%Z
           /\ exists cuento urls,
               body resp = JObject [(lit "cuento", JString cuento);
                                    (lit "imageUrls",
                                     JArray (map (fun url => JString (absolute req url)) urls))]
               /\ cuento <> [] /\ 1 <= length urls <= 3).
Proof.
  unfold create_story.
  destruct (negb (truthy (personaje req)) || negb (truthy (lugar req))
            || negb (truthy (objeto req)))%bool.
  - eexists. exists w. unfold ret. split; [reflexivity|]. split; [lia|]. left. auto.
  - destruct (pipeline_total env (str (personaje req)) (str (lugar req)) (str (objeto req))
                1 w ltac:(lia)) as [r [w' [Hr [Hc Hshape]]]].
    unfold try_catch, bind. rewrite Hr.
    change (Nat.max (Z.to_nat 1) 3) with 3 in *.
    destruct r as [[cuento urls]|e].
    + eexists. exists w'. unfold ret. split; [reflexivity|]. split; [lia|].
      right. right. split; [reflexivity|].
      exists cuento, urls. cbn [body fst snd]. rewrite map_map.
      destruct Hshape as [H1 [H2 [H3 _]]].
      split; [reflexivity|]. split; [exact H1|].
      destruct urls; [congruence|]. simpl in *. lia.
    + eexists. exists w'. unfold ret. split; [reflexivity|]. split; [lia|].
      right. left. auto.
Qed.

(** X16.  [/create-story-audio] always answers, with 400 (then nothing was
    called), 500 or 200, and never makes more than 30 remote calls. *)
Theorem create_story_audio_always_answers env req w :
  exists resp w',
    create_story_audio env req w = (Val resp, w')
    /\ calls w <= calls w' <= calls w + 30
    /\ (status resp = 400%Z /\ w' = w
        \/ status resp = 500%Z /\ body resp = error_body msg_error_audio
        \/ status resp = 200%Z).
Proof.
  unfold create_story_audio.
  destruct (negb (truthy (personaje req)) || negb (truthy (lugar req))
            || negb (truthy (objeto req)))%bool.
  - eexists. exists w. unfold ret. split; [reflexivity|]. split; [lia|]. left. auto.
  - destruct (pipeline_total env (str (personaje req)) (str (lugar req)) (str (objeto req))
                3 w ltac:(lia)) as [r [w1 [Hr [Hc Hshape]]]].
    unfold try_catch. unfold bind at 1. rewrite Hr.
    change (Nat.max (Z.to_nat 3) 3) with 3 in *.
    destruct r as [[cuento urls]|e].
    + cbn [fst snd]. destruct Hshape as [H1 _].
      destruct cuento as [|c cs]; [congruence|]. cbn [truthy].
      unfold bind at 1. unfold ret at 1. unfold bind at 1.
      destruct (narration_total env (c :: cs) w1) as [ra [w2 [Ha [Hca _]]]].
      rewrite Ha. destruct ra as [audioUrl|e].
      * eexists. exists w2. unfold ret. split; [reflexivity|]. split; [lia|].
        right. right. reflexivity.
      * eexists. exists w2. unfold ret. split; [reflexivity|]. split; [lia|].
        right. left. auto.
    + eexists. exists w1. unfold ret. split; [reflexivity|]. split; [lia|].
      right. left. auto.
Qed.

(* ===================================================================== *)
(** ** More about the backoff *)
(* ===================================================================== *)

(** X17.  For draws of [Math.random()] (binary64 numbers in [0, 1)): up to
    the attempt 20 each wait is at least one second and shorter than the
    wait of the next attempt, whatever the two draws; from the attempt 22 on
    the delay no longer fits Node's timer, which then waits one
    millisecond. *)
Theorem backoff_grows a r r' :
  is_draw r -> is_draw r' ->
  (a <= 20 ->
   (1000 <= timer_ms (delay_ms a r))%Z
   /\ (timer_ms (delay_ms a r) < timer_ms (delay_ms (S a) r'))%Z)
  /\ (22 <= a -> timer_ms (delay_ms a r) = 1%Z).
Proof.
  intros D D'. split.
  - intros Ha.
    destruct (delay_spec a r ltac:(lia) D) as [j [_ [Hj [_ [_ Ht]]]]].
    destruct (delay_spec (S a) r' ltac:(lia) D') as [j' [_ [Hj' [_ [_ Ht']]]]].
    rewrite Ht, Ht'. rewrite Nat2Z.inj_succ, Z.pow_succ_r by lia.
    assert (P : (1 <= 2 ^ Z.of_nat a)%Z).
    { change 1%Z with (2 ^ 0)%Z. apply Z.pow_le_mono_r; lia. }
    lia.
  - intros Ha. now apply delay_overflow.
Qed.

Lemma backoff_grows_witness :
  (1000 <= timer_ms (delay_ms 0 (1023 # 1024)))%Z
  /\ (timer_ms (delay_ms 0 (1023 # 1024)) < timer_ms (delay_ms 1 0))%Z.
Proof.
  apply (backoff_grows 0 (1023 # 1024) 0).
  - apply is_draw_b_true. vm_compute. reflexivity.
  - apply is_draw_b_true. vm_compute. reflexivity.
  - lia.
Defined.

Lemma sleep_total_app tr1 tr2 : sleep_total (tr1 ++ tr2) = (sleep_total tr1 + sleep_total tr2)%Z.
Proof.
  unfold sleep_total. induction tr1 as [|e tr1 IH]; simpl; [reflexivity|].
  destruct e; rewrite IH; lia.
Qed.

Section ForRangeDelays.

Variable env : Env.
Variable St : Type.
Variable body : nat -> St -> M (bool * St).
Variable passes : nat -> bool.

Hypothesis fail_delay : forall i s w,
  passes (calls w) = false ->
  exists s' w', body i s w = (Val (false, s'), w')
                /\ calls w' = S (calls w)
                /\ draws w' = S (draws w)
                /\ sleep_total (trace w') =
                   (sleep_total (trace w) + timer_ms (delay_ms i (random env (draws w))))%Z.

Lemma for_range_delays : forall n i s w,
  first_pass passes (calls w) n = None ->
  exists s' w', for_range n i body s w = (Val s', w')
                /\ sleep_total (trace w') =
                   (sleep_total (trace w) + delays env (draws w) i n)%Z.
Proof.
  induction n as [|n IH]; intros i s w F; simpl in *.
  - exists s, w. unfold ret. split; [reflexivity | lia].
  - destruct (passes (calls w)) eqn:E; [discriminate|].
    destruct (first_pass passes (S (calls w)) n) eqn:G; [discriminate|].
    destruct (fail_delay i s w E) as [s1 [w1 [Hb [Hc [Hd Ht]]]]].
    rewrite <- Hc in G. destruct (IH (S i) s1 w1 G) as [s' [w' [Hr Ht']]].
    exists s', w'. unfold bind. rewrite Hb. cbn [fst snd]. rewrite Hr.
    split; [reflexivity|]. rewrite Ht', Ht, Hd. lia.
Qed.

End ForRangeDelays.

Section DelaySteps.

Variable env : Env.

Ltac run_attempt :=
  unfold try_catch, bind, generateContent, first_text, warn, sleep, ret, throw,
    dateNow, writeFileSync, emit.

Ltac solve_delay :=
  do 2 eexists; split; [reflexivity|]; cbn [calls draws trace];
  split; [reflexivity|]; split; [reflexivity|];
  rewrite !sleep_total_app; cbn [sleep_total fold_right]; lia.

Lemma story_fail_delay prompt i s w :
  story_passes (remote env (calls w)) = false ->
  exists s' w', story_attempt env prompt i s w = (Val (false, s'), w')
                /\ calls w' = S (calls w)
                /\ draws w' = S (draws w)
                /\ sleep_total (trace w') =
                   (sleep_total (trace w) + timer_ms (delay_ms i (random env (draws w))))%Z.
Proof.
  unfold story_passes, story_attempt. run_attempt.
  destruct (remote env (calls w)) as [msg|r]; cbn [fst snd]; intros H.
  - solve_delay.
  - destruct (has_candidates r); simpl in H.
    + destruct (first_parts r); [|discriminate]. solve_delay.
    + solve_delay.
Qed.

Lemma image_fail_delay j p i s w :
  image_stored env (calls w) = false ->
  exists s' w', image_attempt env j p i s w = (Val (false, s'), w')
                /\ calls w' = S (calls w)
                /\ draws w' = S (draws w)
                /\ sleep_total (trace w') =
                   (sleep_total (trace w) + timer_ms (delay_ms i (random env (draws w))))%Z.
Proof.
  unfold image_stored, image_found, write_ok, image_attempt. run_attempt.
  destruct (remote env (calls w)) as [msg|r]; cbn [fst snd]; intros H.
  - solve_delay.
  - destruct (has_candidates r); simpl in H.
    + destruct (truthy (image_data (first_parts r))); simpl in H.
      * cbn [fst snd calls pred].
        destruct (disk env (calls w)); [|discriminate]. solve_delay.
      * solve_delay.
    + solve_delay.
Qed.

Lemma audio_fail_delay cuento i s w :
  audio_passes (remote env (calls w)) = false ->
  exists s' w', audio_attempt env cuento i s w = (Val (false, s'), w')
                /\ calls w' = S (calls w)
                /\ draws w' = S (draws w)
                /\ sleep_total (trace w') =
                   (sleep_total (trace w) + timer_ms (delay_ms i (random env (draws w))))%Z.
Proof.
  unfold audio_passes, audio_attempt. run_attempt.
  destruct (remote env (calls w)) as [msg|r]; cbn [fst snd]; intros H.
  - solve_delay.
  - rewrite H. solve_delay.
Qed.

End DelaySteps.

Lemma delays_five env d :
  (forall k, is_draw (random env k)) ->
  (31000 <= delays env d 0 5 <= 35995)%Z.
Proof.
  intros R. cbn [delays].
  destruct (delay_spec 0 _ ltac:(lia) (R d)) as [j0 [_ [H0 [_ [_ E0]]]]].
  destruct (delay_spec 1 _ ltac:(lia) (R (S d))) as [j1 [_ [H1 [_ [_ E1]]]]].
  destruct (delay_spec 2 _ ltac:(lia) (R (S (S d)))) as [j2 [_ [H2 [_ [_ E2]]]]].
  destruct (delay_spec 3 _ ltac:(lia) (R (S (S (S d))))) as [j3 [_ [H3 [_ [_ E3]]]]].
  destruct (delay_spec 4 _ ltac:(lia) (R (S (S (S (S d)))))) as [j4 [_ [H4 [_ [_ E4]]]]].
  rewrite E0, E1, E2, E3, E4.
  change (2 ^ Z.of_nat 0)%Z with 1%Z. change (2 ^ Z.of_nat 1)%Z with 2%Z.
  change (2 ^ Z.of_nat 2)%Z with 4%Z. change (2 ^ Z.of_nat 3)%Z with 8%Z.
  change (2 ^ Z.of_nat 4)%Z with 16%Z. lia.
Qed.

(** X18.  In the story, illustration and narration stages a loop whose five
    attempts fail has slept between 31 and 36 seconds in all (31 000 to
    35 995 ms), the jitter draws being binary64 numbers in [0, 1). *)
Theorem exhausted_loop_total_wait env st w :
  match st with PromptStage _ _ => False | _ => True end ->
  (forall k, is_draw (random env k)) ->
  (forall k, k < 5 -> attempt_passes env st (calls w + k) = false) ->
  exists v w', retry_loop env st w = (Val v, w')
               /\ (31000 <= sleep_total (trace w') - sleep_total (trace w) <= 35995)%Z.
Proof.
  intros Hst R H. apply first_pass_none in H.
  pose proof (delays_five env (draws w) R) as D.
  destruct st as [prompt|story n|j p urls|cuento]; [| contradiction | |]; simpl in H |- *.
  - destruct (for_range_delays env _ (story_attempt env prompt)
                (fun k => story_passes (remote env k))
                (story_fail_delay env prompt) 5 0 None w H) as [v [w' [Hr Ht]]].
    exists v, w'. split; [exact Hr | lia].
  - destruct (for_range_delays env _ (image_attempt env j p) (image_stored env)
                (image_fail_delay env j p) 5 0 urls w H) as [v [w' [Hr Ht]]].
    exists v, w'. split; [exact Hr | lia].
  - destruct (for_range_delays env _ (audio_attempt env cuento)
                (fun k => audio_passes (remote env k))
                (audio_fail_delay env cuento) 5 0 None w H) as [v [w' [Hr Ht]]].
    exists v, w'. split; [exact Hr | lia].
Qed.

Lemma exhausted_loop_total_wait_witness :
  exists v w', retry_loop env_unwritable (ImageStage 0 (JString (lit "a")) []) world0
               = (Val v, w')
               /\ (31000 <= sleep_total (trace w') - sleep_total (trace world0) <= 35995)%Z.
Proof.
  apply (exhausted_loop_total_wait env_unwritable (ImageStage 0 (JString (lit "a")) [])
           world0).
  - exact I.
  - intros k. apply is_draw_b_true. vm_compute. reflexivity.
  - intros k _. reflexivity.
Defined.

(* ===================================================================== *)
(** ** The tolerant extraction *)
(* ===================================================================== *)

Lemma indexOf_from_app c pre t : forall i,
  ~ In c pre -> indexOf_from c (pre ++ c :: t) i = (i + Z.of_nat (length pre))%Z.
Proof.
  induction pre as [|x pre IH]; intros i H; simpl.
  - rewrite N.eqb_refl. lia.
  - destruct (N.eqb_spec x c) as [->|Hne]; [exfalso; apply H; now left|].
    rewrite IH by (intros G; apply H; now right). lia.
Qed.

Lemma strip_fences_plain c t : c <> backtick -> strip_fences (c :: t) = c :: strip_fences t.
Proof.
  intros H. cbn [strip_fences]. destruct t as [|c2 [|c3 t3]]; try reflexivity.
  destruct (N.eqb_spec c backtick) as [->|_]; [congruence|]. reflexivity.
Qed.

Lemma strip_fences_app a post :
  ~ In backtick a -> strip_fences (a ++ post) = a ++ strip_fences post.
Proof.
  induction a as [|c a IH]; intros H; [reflexivity|].
  cbn [app]. rewrite strip_fences_plain by (intros ->; apply H; now left).
  rewrite IH by (intros G; apply H; now right). reflexivity.
Qed.

Lemma trimStart_spaces q x :
  Forall (fun c => is_js_space c = true) q -> trimStart (q ++ x) = trimStart x.
Proof.
  induction 1 as [|c q Hc _ IH]; [reflexivity|]. cbn [app trimStart]. now rewrite Hc.
Qed.

Lemma trim_padded a q :
  a <> [] -> is_js_space (hd 0%N a) = false -> is_js_space (last a 0%N) = false ->
  Forall (fun c => is_js_space c = true) q ->
  trim (a ++ q) = a.
Proof.
  intros Hne Hh Hl Hq. unfold trim, trimEnd.
  destruct a as [|c a']; [congruence|]. cbn [app trimStart hd] in *. rewrite Hh.
  change (c :: a' ++ q) with ((c :: a') ++ q). rewrite rev_app_distr.
  rewrite trimStart_spaces by (apply Forall_rev; exact Hq).
  rewrite (app_removelast_last 0%N Hne) at 1.
  rewrite rev_app_distr. cbn [rev app trimStart]. rewrite Hl.
  change (last (c :: a') 0%N :: rev (removelast (c :: a')))
    with (rev [last (c :: a') 0%N] ++ rev (removelast (c :: a'))).
  rewrite <- rev_app_distr, rev_involutive, <- app_removelast_last by exact Hne.
  reflexivity.
Qed.

(** X19.  The extraction of the scene-prompt stage tolerates any wrapping of
    the array: whatever comes before it (prose, an opening fence) as long
    as it has no opening bracket, and whatever follows it that is only
    fences and blanks, the text handed to [JSON.parse] is the array itself,
    provided the array has no backquote in it; the attempt then gives what
    the array parses to. *)
Theorem extraction_tolerates_wrapping pre a post :
  ~ In 91%N pre ->
  hd 0%N a = 91%N ->
  ~ In backtick a ->
  is_js_space (last a 0%N) = false ->
  Forall (fun c => is_js_space c = true) (strip_fences post) ->
  cleanedText (pre ++ a ++ post) = a
  /\ prompts_of_attempt (text_response (pre ++ a ++ post))
     = match parse a with
       | Some (JArray (x :: l)) => Some (x :: l)
       | _ => None
       end.
Proof.
  intros Hpre Hhd Hbt Hlast Hpost.
  assert (Hne : a <> []) by (intros ->; discriminate Hhd).
  assert (E : cleanedText (pre ++ a ++ post) = a).
  { unfold cleanedText, indexOf, substring_from, clamp.
    destruct a as [|c a']; [congruence|]. cbn [hd] in Hhd. subst c.
    cbn [app]. rewrite indexOf_from_app by exact Hpre.
    rewrite Z.add_0_l, Z.max_l by lia.
    rewrite Z.min_l by (rewrite length_app; apply inj_le, Nat.le_add_r).
    rewrite Nat2Z.id, skipn_app, skipn_all, Nat.sub_diag. cbn [app skipn].
    change (91%N :: a' ++ post) with ((91%N :: a') ++ post).
    rewrite strip_fences_app by exact Hbt.
    apply trim_padded; auto; discriminate. }
  split; [exact E|].
  unfold prompts_of_attempt, text_response. cbn [has_candidates first_parts parts text].
  rewrite E. destruct (parse a) as [[| | | |[|x l]|]|]; reflexivity.
Qed.

Lemma extraction_tolerates_wrapping_witness :
  cleanedText (lit "Claro, aqui tienes: ```json" ++ litq "['a','b','c']" ++ lit " ``` ")
  = litq "['a','b','c']"
  /\ prompts_of_attempt
       (text_response (lit "Claro, aqui tienes: ```json" ++ litq "['a','b','c']" ++ lit " ``` "))
     = Some abc.
Proof.
  apply (extraction_tolerates_wrapping (lit "Claro, aqui tienes: ```json")
           (litq "['a','b','c']") (lit " ``` ")).
  - vm_compute. intuition discriminate.
  - reflexivity.
  - vm_compute. intuition discriminate.
  - reflexivity.
  - vm_compute. repeat constructor.
Defined.

(* ===================================================================== *)
(** ** What the illustration stage writes *)
(* ===================================================================== *)

Lemma image_attempt_writes env j p i urls w b urls' w' :
  image_attempt env j p i urls w = (Val (b, urls'), w') ->
  written AudioDir (trace w') = written AudioDir (trace w)
  /\ exists names, written ImagesDir (trace w') = written ImagesDir (trace w) ++ names
                   /\ urls' = urls ++ map (fun name => lit "/images/" ++ name) names.
Proof.
  unfold image_attempt, try_catch, bind, generateContent, warn, sleep, ret,
    dateNow, writeFileSync, emit.
  destruct (remote env (calls w)) as [msg|r]; cbn [fst snd].
  - intros H. inversion H; subst. cbn [trace]. rewrite !written_app. cbn.
    rewrite !app_nil_r. split; [reflexivity|]. exists []. now rewrite !app_nil_r.
  - destruct (has_candidates r).
    + destruct (truthy (image_data (first_parts r))); cbn [fst snd calls draws ticks trace pred].
      * destruct (disk env (calls w)); cbn [fst snd calls draws ticks trace];
          intros H; inversion H; subst; cbn [trace]; rewrite !written_app; cbn;
          rewrite ?app_nil_r.
        -- split; [reflexivity|]. exists []. now rewrite !app_nil_r.
        -- split; [reflexivity|]. eexists [_]. split; reflexivity.
      * intros H; inversion H; subst; cbn [trace]; rewrite !written_app; cbn;
          rewrite ?app_nil_r.
        split; [reflexivity|]. exists []. now rewrite !app_nil_r.
    + intros H. inversion H; subst. cbn [trace]. rewrite !written_app. cbn.
      rewrite !app_nil_r. split; [reflexivity|]. exists []. now rewrite !app_nil_r.
Qed.

Lemma image_loop_writes env j p urls w urls' w' :
  image_loop env j p urls w = (Val urls', w') ->
  written AudioDir (trace w') = written AudioDir (trace w)
  /\ exists names, written ImagesDir (trace w') = written ImagesDir (trace w) ++ names
                   /\ urls' = urls ++ map (fun name => lit "/images/" ++ name) names.
Proof.
  intros H.
  apply (for_range_inv (image_attempt env j p)
           (fun s w0 =>
              written AudioDir (trace w0) = written AudioDir (trace w)
              /\ exists names, written ImagesDir (trace w0) = written ImagesDir (trace w) ++ names
                               /\ s = urls ++ map (fun name => lit "/images/" ++ name) names))
    with (n := maxAttempts) (i := 0) (s := urls) (w := w); [ | exact H | ].
  - intros i s w0 b s' w1 Hb [Ha [names [Hw Hs]]].
    destruct (image_attempt_writes env j p i s w0 b s' w1 Hb) as [Ha' [names' [Hw' Hs']]].
    split; [congruence|]. exists (names ++ names').
    rewrite Hw', Hw, Hs', Hs, map_app, !app_assoc. auto.
  - split; [reflexivity|]. exists []. now rewrite !app_nil_r.
Qed.

Lemma illustrate_from_writes env prompts : forall j urls w urls' w',
  illustrate_from env j prompts urls w = (Val urls', w') ->
  written AudioDir (trace w') = written AudioDir (trace w)
  /\ exists names, written ImagesDir (trace w') = written ImagesDir (trace w) ++ names
                   /\ urls' = urls ++ map (fun name => lit "/images/" ++ name) names.
Proof.
  induction prompts as [|p rest IH]; intros j urls w urls' w' H; cbn [illustrate_from] in H.
  - unfold ret in H. inversion H; subst. split; [reflexivity|].
    exists []. now rewrite !app_nil_r.
  - unfold bind in H.
    destruct (image_loop env j p urls w) as [[urls1|e] w1] eqn:E; [|discriminate H].
    destruct (image_loop_writes env j p urls w urls1 w1 E) as [Ha [names [Hw Hs]]].
    destruct (IH _ _ _ _ _ H) as [Ha' [names' [Hw' Hs']]].
    split; [congruence|]. exists (names ++ names').
    rewrite Hw', Hw, Hs', Hs, map_app, !app_assoc. auto.
Qed.

(** X20.  The illustration stage returns exactly what it wrote: the URLs it
    returns are, in order, /images/ followed by the names of the files it
    added to the image directory; when it throws it has added no file; it
    never writes into the audio directory. *)
Theorem illustration_returns_what_it_wrote env prompts w :
  let run := illustrate env prompts w in
  written AudioDir (trace (snd run)) = written AudioDir (trace w)
  /\ exists names,
       written ImagesDir (trace (snd run)) = written ImagesDir (trace w) ++ names
       /\ match fst run with
          | Val urls => urls = map (fun name => lit "/images/" ++ name) names
          | Exn _ => names = []
          end.
Proof.
  intros run. unfold run, illustrate, bind.
  destruct (illustrate_from_calls env prompts 0 [] w) as [w' [Hr _]].
  destruct (illustrate_from_writes env prompts 0 [] w _ w' Hr) as [Ha [names [Hw Hs]]].
  rewrite Hr. cbn [app] in Hs.
  destruct (urls_of env (kept_from 0 (verdicts env (calls w) (ticks w) prompts)))
    as [|u us] eqn:E; cbn [fst snd].
  - split; [exact Ha|]. exists names. split; [exact Hw|].
    destruct names; [reflexivity | discriminate Hs].
  - split; [exact Ha|]. exists names. split; [exact Hw | exact Hs].
Qed.

(* ===================================================================== *)
(** ** Start of the program *)
(* ===================================================================== *)

(** X21.  The start of the program, on a consistent disk.  Without an API
    key (absent or empty) it exits with code 1 before any directory is
    looked at.  With a
    key it fails only when [public] is a regular file, with ENOTDIR at the
    first directory below it; otherwise it starts, every path that was free
    is now a directory, what was there is left as it was (also a file named
    images or audio, which is not replaced), and a second start on the
    resulting disk changes nothing. *)
Theorem startup_prepares_directories (API_KEY : option jsstring) (d : Disk) :
  consistent d ->
  match startup API_KEY d with
  | Exited code => truthy API_KEY = false /\ code = 1%Z
  | Crashed e d' =>
      truthy API_KEY = true /\ publicDir d = RegularFile /\ e = ENOTDIR /\ d' = d
  | Started d' =>
      truthy API_KEY = true
      /\ publicDir d <> RegularFile
      /\ d' = mkDisk Directory (made (imagesDir d)) (made (audioDir d))
      /\ consistent d'
      /\ startup API_KEY d' = Started d'
  end.
Proof.
  intros Hc. unfold startup.
  destruct (truthy API_KEY); cbn [negb]; [|split; reflexivity].
  destruct d as [p i a]. unfold consistent in *. cbn [publicDir imagesDir audioDir] in *.
  destruct p.
  - destruct Hc as [-> ->]; [discriminate|]. cbn.
    repeat split; try discriminate; congruence.
  - destruct Hc as [-> ->]; [discriminate|]. cbn. repeat split.
  - destruct i, a; cbn; repeat split; try discriminate; congruence.
Qed.

Lemma startup_prepares_directories_witness :
  startup (Some (lit "clave")) (mkDisk Directory Missing RegularFile)
  = Started (mkDisk Directory Directory RegularFile).
Proof.
  pose proof (startup_prepares_directories (Some (lit "clave"))
                (mkDisk Directory Missing RegularFile)) as H.
  assert (Hc : consistent (mkDisk Directory Missing RegularFile)).
  { intros G. now elim G. }
  specialize (H Hc).
  destruct (startup (Some (lit "clave")) (mkDisk Directory Missing RegularFile))
    as [code|e d'|d'] eqn:E.
  - destruct H as [H _]. discriminate H.
  - destruct H as [_ [H _]]. discriminate H.
  - destruct H as [_ [_ [H _]]]. now rewrite H.
Defined.
